(** * Network graphs with SVG: the [Graph] class of svg_network_graph.ts

    A shallow embedding of the constructor and the graph store, the
    analysis functions (degree, breadth-first search, connected
    components), the random network generator, the two arrangements and
    the two Fruchterman-Reingold solvers, followed by the properties of
    the specification that are decided on it and by further properties
    of the code.

    Conventions of the embedding.
    - A JavaScript number is a binary64 float ([PrimFloat.float]).
    - A [GraphNode] object lives in a heap; a reference to it is its
      address.  The arrays and the dictionary of the store hold
      references, so that the nodes reached through [nodes], through
      [nodeDictionary] and through the two ends of an edge are shared.
    - [nodeDictionary] is a plain object: a property read that finds
      no property of the object's own goes on to its prototype, which is
      [Object.prototype] or, once a node with the id [__proto__] has
      been written to the dictionary, that node.
    - A method is a computation on the [World]: it ends normally with a
      value or throws a string, and it may change the world.
    - [parseInt], [Math.cos] and [Math.sin] are parameters of the
      methods that call them.  The methods that write to the document
      ([drawLine], [drawCircle], [clear], [draw], [drawNode]) are not
      modelled; of [refresh] the model keeps what is handed to them. *)

From Stdlib Require Import Floats ZArith Lia Ascii.
From stdpp Require Import base option list gmap strings pretty.

#[local] Set Warnings "-inexact-float,-clear-no-such-hyp".

(** ** Numbers *)

Module Math.

(** [Math.sqrt] and [Math.abs]. *)
Definition sqrt (z : float) : float := PrimFloat.sqrt z.
Definition abs (z : float) : float := PrimFloat.abs z.

(** [Math.pow(z, 2)]: the square of [z]. *)
Definition pow2 (z : float) : float := (z * z)%float.

Definition isNaN (z : float) : bool := PrimFloat.is_nan z.

Definition isNegZero (z : float) : bool :=
  match PrimFloat.classify z with NZero => true | _ => false end.

Definition isPosZero (z : float) : bool :=
  match PrimFloat.classify z with PZero => true | _ => false end.

(** [Math.min(a, b)]: NaN if either argument is NaN, and -0 is below +0. *)
Definition min (a b : float) : float :=
  if isNaN a || isNaN b then nan
  else if (b <? a)%float || (isNegZero b && isPosZero a) then b
  else a.

(** [Math.max(a, b)]: NaN if either argument is NaN, and +0 is above -0. *)
Definition max (a b : float) : float :=
  if isNaN a || isNaN b then nan
  else if (a <? b)%float || (isPosZero b && isNegZero a) then b
  else a.

End Math.

(** The number of elements of an array, as a number. *)
Definition number_of_nat (n : nat) : float :=
  PrimFloat.of_uint63 (Uint63.of_Z (Z.of_nat n)).

(** ** Data model *)

(** A reference to a [GraphNode] object: its address in the heap. *)
Abbreviation ref := nat.

(** The value of an expression that is a node or [undefined]. *)
Abbreviation value := (option ref).
Abbreviation undefined := (@None ref).

(** The objects, other than nodes, that a property read can find. *)
Inductive builtin : Type :=
| ObjectPrototype
| ObjectConstructor
| ObjectPrototypeFunction (name : string)
| GraphNodeClass
| DispOf (r : ref).

#[global] Instance builtin_eq_dec : EqDecision builtin.
Proof. solve_decision. Defined.

(** The value of an expression in general: what a read of a property of
    [nodeDictionary] may find. *)
Inductive jsval : Type :=
| JUndefined
| JNode (r : ref)
| JNumber (z : float)
| JString (s : string)
| JBoolean (b : bool)
| JObject (o : builtin).

#[global] Instance spec_float_eq_dec : EqDecision SpecFloat.spec_float.
Proof. solve_decision. Defined.

#[global] Instance float_eq_dec : EqDecision float.
Proof.
  intros a b. destruct (decide (Prim2SF a = Prim2SF b)) as [H|H].
  - left. by apply Prim2SF_inj.
  - right. congruence.
Defined.

#[global] Instance jsval_eq_dec : EqDecision jsval.
Proof. solve_decision. Defined.

Definition ofValue (v : value) : jsval :=
  match v with
  | Some r => JNode r
  | None => JUndefined
  end.

(** The end of an edge that [addEdge] and the constructor make of a
    read of the dictionary.  They read under listed ids only, and in
    every store that the methods build such a read finds a node
    ([store_inv]); the ends of an edge are therefore nodes or
    [undefined], and a read that finds anything else, as it can only
    in a store that was put together by other means, is kept as
    [undefined]. *)
Definition toValue (j : jsval) : value :=
  match j with
  | JNode r => Some r
  | _ => None
  end.

Record Vector := mkVector { vec_x : float; vec_y : float }.

Module GraphNode.

Record t := mk {
  id : string;
  x : float;
  y : float;
  label : string;
  displayLabel : bool;
  weight : float;
  disp : Vector;
  strokeColor : string;
  fillColor : string
}.

Definition set_x (v : float) (n : t) : t :=
  mk (id n) v (y n) (label n) (displayLabel n) (weight n) (disp n)
     (strokeColor n) (fillColor n).

Definition set_y (v : float) (n : t) : t :=
  mk (id n) (x n) v (label n) (displayLabel n) (weight n) (disp n)
     (strokeColor n) (fillColor n).

Definition set_disp (d : Vector) (n : t) : t :=
  mk (id n) (x n) (y n) (label n) (displayLabel n) (weight n) d
     (strokeColor n) (fillColor n).

(** The constructor, with its defaults for [label], [displayLabel],
    [weight] and [disp]. *)
Definition new (id : string) (x y : float) (strokeColor fillColor : string)
    (label : option string) (displayLabel : option bool) : t :=
  mk id x y (default "" label) (default false displayLabel) 1%float
     (mkVector 0 0) strokeColor fillColor.

End GraphNode.

Record Edge := mkEdge { source : value; target : value }.

(** The object [nodeDictionary]: the properties of its own, which are
    nodes, and its prototype, which is [Object.prototype] ([None]) until
    a node is assigned to the property [__proto__]. *)
Record Dictionary := mkDictionary {
  own : gmap string ref;
  prototype : option ref
}.

(** [{}] *)
Definition emptyDictionary : Dictionary := mkDictionary ∅ None.

Record Canvas := mkCanvas { clientWidth : float; clientHeight : float }.

Record Graph := mkGraph {
  canvas : Canvas;
  nodes : list ref;
  nodeIds : list string;
  nodeDictionary : Dictionary;
  edges : list Edge;
  width : float;
  height : float;
  weightFactor : float;
  playing : bool;
  primaryDark : string;
  primaryMid : string;
  primaryLight : string;
  secondaryDark : string;
  secondaryMid : string;
  tertiaryMid : string
}.

(** What the renderer is handed by [refresh]: the edges and the nodes as
    they are at that moment. *)
Record Frame := mkFrame {
  frame_edges : list (GraphNode.t * GraphNode.t);
  frame_nodes : list GraphNode.t
}.

(** The world a method runs in: the heap of node objects, the graph
    itself, the lines written by [console.error], the results that the
    successive calls of [Math.random] return together with the number of
    calls made so far, and the frames drawn.  [passes] is a ghost
    counter of the simulation passes completed by the layout solvers; no
    method reads it. *)
Record World := mkWorld {
  heap : list GraphNode.t;
  this : Graph;
  console : list string;
  random : nat → float;
  drawn : nat;
  frames : list Frame;
  passes : nat
}.

Definition set_this (g : Graph) (w : World) : World :=
  mkWorld (heap w) g (console w) (random w) (drawn w) (frames w) (passes w).

Definition set_heap (h : list GraphNode.t) (w : World) : World :=
  mkWorld h (this w) (console w) (random w) (drawn w) (frames w) (passes w).

Definition set_console (c : list string) (w : World) : World :=
  mkWorld (heap w) (this w) c (random w) (drawn w) (frames w) (passes w).

Definition set_drawn (n : nat) (w : World) : World :=
  mkWorld (heap w) (this w) (console w) (random w) n (frames w) (passes w).

Definition set_frames (f : list Frame) (w : World) : World :=
  mkWorld (heap w) (this w) (console w) (random w) (drawn w) f (passes w).

Definition set_passes (n : nat) (w : World) : World :=
  mkWorld (heap w) (this w) (console w) (random w) (drawn w) (frames w) n.

Definition set_nodes (l : list ref) (g : Graph) : Graph :=
  mkGraph (canvas g) l (nodeIds g) (nodeDictionary g) (edges g) (width g)
    (height g) (weightFactor g) (playing g) (primaryDark g) (primaryMid g)
    (primaryLight g) (secondaryDark g) (secondaryMid g) (tertiaryMid g).

Definition set_nodeIds (l : list string) (g : Graph) : Graph :=
  mkGraph (canvas g) (nodes g) l (nodeDictionary g) (edges g) (width g)
    (height g) (weightFactor g) (playing g) (primaryDark g) (primaryMid g)
    (primaryLight g) (secondaryDark g) (secondaryMid g) (tertiaryMid g).

Definition set_nodeDictionary (d : Dictionary) (g : Graph) : Graph :=
  mkGraph (canvas g) (nodes g) (nodeIds g) d (edges g) (width g)
    (height g) (weightFactor g) (playing g) (primaryDark g) (primaryMid g)
    (primaryLight g) (secondaryDark g) (secondaryMid g) (tertiaryMid g).

Definition set_edges (l : list Edge) (g : Graph) : Graph :=
  mkGraph (canvas g) (nodes g) (nodeIds g) (nodeDictionary g) l (width g)
    (height g) (weightFactor g) (playing g) (primaryDark g) (primaryMid g)
    (primaryLight g) (secondaryDark g) (secondaryMid g) (tertiaryMid g).

Definition set_playing (b : bool) (g : Graph) : Graph :=
  mkGraph (canvas g) (nodes g) (nodeIds g) (nodeDictionary g) (edges g)
    (width g) (height g) (weightFactor g) b (primaryDark g) (primaryMid g)
    (primaryLight g) (secondaryDark g) (secondaryMid g) (tertiaryMid g).

(** ** Computations *)

Inductive completion (A : Type) : Type :=
| Normal (a : A)
| Throw (e : string).
Arguments Normal {A} a.
Arguments Throw {A} e.

Definition M (A : Type) : Type := World → completion A * World.

Definition ret {A} (a : A) : M A := λ w, (Normal a, w).

Definition throw {A} (e : string) : M A := λ w, (Throw e, w).

Definition bind {A B} (c : M A) (k : A → M B) : M B :=
  λ w, match c w with
       | (Normal a, w') => k a w'
       | (Throw e, w') => (Throw e, w')
       end.

Notation "'let*' x := c 'in' k" := (bind c (λ x, k))
  (at level 10, x pattern, c at level 100, k at level 200).
Notation "c ;;; k" := (bind c (λ _, k))
  (at level 100, k at level 200, right associativity).

Definition get : M World := λ w, (Normal w, w).

Definition modify (f : World → World) : M unit := λ w, (Normal tt, f w).

Definition modify_this (f : Graph → Graph) : M unit :=
  modify (λ w, set_this (f (this w)) w).

(** A [for (let a of l) body] loop over an array that the body does not
    change. *)
Fixpoint for_of {A} (l : list A) (body : A → M unit) : M unit :=
  match l with
  | [] => ret tt
  | a :: l' => body a ;;; for_of l' body
  end.

(** The values that [i] takes in [for (let i = lo; i < hi; i++)]. *)
Definition range (lo hi : nat) : list nat := seq lo (hi - lo).

(** A loop whose body changes a local variable, whose value is [s] at
    the start and the result at the end. *)
Fixpoint for_fold {A S} (l : list A) (s : S) (body : A → S → M S) : M S :=
  match l with
  | [] => ret s
  | a :: l' => let* s' := body a s in for_fold l' s' body
  end.

(** The same, with a body that may leave the loop by [break]. *)
Inductive control (S : Type) : Type :=
| Continue (s : S)
| Break (s : S).
Arguments Continue {S} s.
Arguments Break {S} s.

Fixpoint for_fold_break {A S} (l : list A) (s : S)
    (body : A → S → M (control S)) : M S :=
  match l with
  | [] => ret s
  | a :: l' =>
      let* c := body a s in
      match c with
      | Continue s' => for_fold_break l' s' body
      | Break s' => ret s'
      end
  end.

(** The results of [f] on the elements of [l], from left to right. *)
Fixpoint for_map {A B} (l : list A) (f : A → M B) : M (list B) :=
  match l with
  | [] => ret []
  | a :: l' => let* b := f a in let* bs := for_map l' f in ret (b :: bs)
  end.

(** [Math.random()]: the next result of the random source. *)
Definition Math_random : M float :=
  λ w, (Normal (random w (drawn w)), set_drawn (S (drawn w)) w).

(** [console.error(msg)]. *)
Definition console_error (msg : string) : M unit :=
  modify (λ w, set_console (console w ++ [msg]) w).

(** [new GraphNode(...)]: the object is put at a fresh address. *)
Definition alloc (n : GraphNode.t) : M ref :=
  λ w, (Normal (length (heap w)), set_heap (heap w ++ [n]) w).

(** The error of reading or writing a property of something that is not
    an object. *)
Definition TypeError : string := "TypeError".

(** Reading the object behind a value.  A reference always leads to an
    object; an address outside the heap, which no well-formed world
    holds, is treated like [undefined]. *)
Definition deref (v : value) : M GraphNode.t :=
  λ w, match v with
       | Some r =>
           match heap w !! r with
           | Some n => (Normal n, w)
           | None => (Throw TypeError, w)
           end
       | None => (Throw TypeError, w)
       end.

(** Changing the object behind a value in place. *)
Definition update (v : value) (f : GraphNode.t → GraphNode.t) : M unit :=
  let* n := deref v in
  match v with
  | Some r => modify (λ w, set_heap (<[r := f n]> (heap w)) w)
  | None => throw TypeError
  end.

(** [l.includes(a)] *)
Definition includes {A} `{EqDecision A} (l : list A) (a : A) : bool :=
  bool_decide (a ∈ l).

(** ** Properties of objects *)

(** The functions that [Object.prototype] holds. *)
Definition objectPrototypeFunctions : list string :=
  ["__defineGetter__"; "__defineSetter__"; "hasOwnProperty";
   "__lookupGetter__"; "__lookupSetter__"; "isPrototypeOf";
   "propertyIsEnumerable"; "toString"; "valueOf"; "toLocaleString"].

(** The names of all properties of [Object.prototype]. *)
Definition objectPrototypeNames : list string :=
  "__proto__" :: "constructor" :: objectPrototypeFunctions.

(** Reading the property [key] of [Object.prototype], at the end of the
    prototype chain of an object whose prototype is [receiverPrototype]:
    the getter of [__proto__] answers with the prototype of the object
    that was read. *)
Definition Object_prototype_get (receiverPrototype : jsval) (key : string)
    : jsval :=
  if decide (key = "__proto__") then receiverPrototype
  else if decide (key = "constructor") then JObject ObjectConstructor
  else if decide (key ∈ objectPrototypeFunctions)
       then JObject (ObjectPrototypeFunction key)
       else JUndefined.

(** The property [key] of the node object [n] at address [r], if it is
    one of the fields that the constructor of [GraphNode] sets. *)
Definition GraphNode_own (n : GraphNode.t) (r : ref) (key : string)
    : option jsval :=
  if decide (key = "id") then Some (JString (GraphNode.id n))
  else if decide (key = "x") then Some (JNumber (GraphNode.x n))
  else if decide (key = "y") then Some (JNumber (GraphNode.y n))
  else if decide (key = "label") then Some (JString (GraphNode.label n))
  else if decide (key = "displayLabel")
       then Some (JBoolean (GraphNode.displayLabel n))
  else if decide (key = "weight") then Some (JNumber (GraphNode.weight n))
  else if decide (key = "disp") then Some (JObject (DispOf r))
  else if decide (key = "strokeColor")
       then Some (JString (GraphNode.strokeColor n))
  else if decide (key = "fillColor")
       then Some (JString (GraphNode.fillColor n))
  else None.

(** [d[key]]: the property of [d]'s own if there is one, and otherwise
    what the prototype chain gives: [Object.prototype], or the node that
    is the prototype of [d], [GraphNode.prototype] with its
    [constructor], and [Object.prototype]. *)
Definition dictionary_get (h : list GraphNode.t) (d : Dictionary)
    (key : string) : jsval :=
  match own d !! key with
  | Some r => JNode r
  | None =>
      match prototype d with
      | None => Object_prototype_get (JObject ObjectPrototype) key
      | Some r =>
          match h !! r ≫= λ n, GraphNode_own n r key with
          | Some j => j
          | None =>
              if decide (key = "constructor") then JObject GraphNodeClass
              else Object_prototype_get (JNode r) key
          end
      end
  end.

(** [d[key] = node]: the setter of [__proto__] makes the node the
    prototype of [d]; any other key becomes a property of [d]'s own. *)
Definition dictionary_set (d : Dictionary) (key : string) (r : ref)
    : Dictionary :=
  if decide (key = "__proto__") then mkDictionary (own d) (Some r)
  else mkDictionary (<[key := r]> (own d)) (prototype d).

(** [this.nodeDictionary[key]] *)
Definition nodeDictionary_get (w : World) (key : string) : jsval :=
  dictionary_get (heap w) (nodeDictionary (this w)) key.

(** Whether a value counts as true in a condition. *)
Definition truthy (j : jsval) : bool :=
  match j with
  | JUndefined => false
  | JNode _ => true
  | JNumber z => negb (Math.isNaN z || (z =? 0)%float)
  | JString s => negb (bool_decide (s = ""))
  | JBoolean b => b
  | JObject _ => true
  end.

(** [a === b] *)
Definition strict_eq (a b : jsval) : bool :=
  match a, b with
  | JUndefined, JUndefined => true
  | JNode r, JNode r' => bool_decide (r = r')
  | JNumber z, JNumber z' => (z =? z')%float
  | JString s, JString s' => bool_decide (s = s')
  | JBoolean b, JBoolean b' => bool_decide (b = b')
  | JObject o, JObject o' => bool_decide (o = o')
  | _, _ => false
  end.

(** ** The graph store *)

(** The argument of [addNode]; [None] is an argument left out or [null]. *)
Record NodeArgs := mkNodeArgs {
  arg_id : string;
  arg_x : option float;
  arg_y : option float;
  arg_strokeColor : option string;
  arg_fillColor : option string;
  arg_label : option string;
  arg_displayLabel : option bool
}.

(** [{ id: id }] *)
Definition justId (id : string) : NodeArgs :=
  mkNodeArgs id None None None None None None.

Definition DuplicateNodeError : string := "A node already exists with that id.".

Definition addNode (a : NodeArgs) : M ref :=
  let* w := get in
  if negb (includes (nodeIds (this w)) (arg_id a)) then
    let* x :=
      match arg_x a with
      | None => let* r := Math_random in
                ret (r * (width (this w) - 20) + 10)%float
      | Some x => ret x
      end in
    let* y :=
      match arg_y a with
      | None => let* r := Math_random in
                ret (r * (height (this w) - 20) + 10)%float
      | Some y => ret y
      end in
    let* newNode :=
      alloc (GraphNode.new (arg_id a) x y
               (default (primaryDark (this w)) (arg_strokeColor a))
               (default (primaryMid (this w)) (arg_fillColor a))
               (arg_label a) (arg_displayLabel a)) in
    modify_this (λ g, set_nodes (nodes g ++ [newNode]) g) ;;;
    modify_this (λ g, set_nodeIds (nodeIds g ++ [arg_id a]) g) ;;;
    modify_this (λ g, set_nodeDictionary
                        (dictionary_set (nodeDictionary g) (arg_id a) newNode)
                        g) ;;;
    ret newNode
  else
    throw DuplicateNodeError.

Definition UnknownEndpointWarning (id : string) : string :=
  "Graph does not include a node with id " +:+ id.

Definition addEdge (source target : string) : M unit :=
  let* w := get in
  if includes (nodeIds (this w)) source then
    if includes (nodeIds (this w)) target then
      let newEdge := mkEdge (toValue (nodeDictionary_get w source))
                            (toValue (nodeDictionary_get w target)) in
      modify_this (λ g, set_edges (edges g ++ [newEdge]) g)
    else
      console_error (UnknownEndpointWarning target)
  else
    console_error (UnknownEndpointWarning source).

Definition deleteAllNodes : M unit :=
  modify_this (λ g, set_nodes [] g) ;;;
  modify_this (λ g, set_edges [] g) ;;;
  modify_this (λ g, set_nodeIds [] g) ;;;
  modify_this (λ g, set_nodeDictionary emptyDictionary g).

(** ** The graph analyser *)

Definition containsNode (edge : Edge) (node : jsval) : bool :=
  strict_eq (ofValue (source edge)) node ||
  strict_eq (ofValue (target edge)) node.

Definition degree (w : World) (nodeId : string) : nat :=
  let node := nodeDictionary_get w nodeId in
  foldl (λ degreeCounter edge,
           if containsNode edge node then S degreeCounter else degreeCounter)
        0 (edges (this w)).

Definition averageDegree (w : World) : float :=
  let runningTotal :=
    foldl (λ runningTotal nodeId, runningTotal + degree w nodeId) 0
          (nodeIds (this w)) in
  (number_of_nat runningTotal / number_of_nat (length (nodes (this w))) / 2)%float.

(** An entry of the queue of a search: [{ node, depth }]. *)
Record Entry (A : Type) := mkEntry { node : A; depth : nat }.
Arguments mkEntry {A} node depth.
Arguments node {A} e.
Arguments depth {A} e.

(** The entries of a search that starts from a node of the graph. *)
Abbreviation QueueEntry := (Entry value).

(** The nodes at the other end of the edges that leave [currNode],
    followed by those at the other end of the edges that enter it. *)
Definition nextLevelNodes (edges : list Edge) (currNode : value) : list value :=
  let nextOutNodes :=
    map target (filter (λ e, source e = currNode) edges) in
  let nextInNodes :=
    map source (filter (λ e, target e = currNode) edges) in
  nextOutNodes ++ nextInNodes.

(** The loop that [connectedComponentMapBF] runs over [nextLevelNodes]:
    a node that is not yet covered is put at the end of the queue and of
    [covered]. *)
Definition enqueue (depth : nat) (qc : list QueueEntry * list value)
    (node : value) : list QueueEntry * list value :=
  let '(queue, covered) := qc in
  if negb (includes covered node)
  then (queue ++ [mkEntry node (depth + 1)], covered ++ [node])
  else (queue, covered).

Definition PathNotFoundError : string := "Path not found.".

(** The same two filters in [breadthFirstSearch], whose [currNode] is
    what [shortestPath] read from the dictionary or an end of an edge. *)
Definition nextLevelNodesOf (edges : list Edge) (currNode : jsval)
    : list value :=
  let nextOutNodes :=
    map target
        (List.filter (λ e, strict_eq (ofValue (source e)) currNode) edges) in
  let nextInNodes :=
    map source
        (List.filter (λ e, strict_eq (ofValue (target e)) currNode) edges) in
  nextOutNodes ++ nextInNodes.

Definition enqueueOf (depth : nat) (qc : list (Entry jsval) * list value)
    (node : value) : list (Entry jsval) * list value :=
  let '(queue, covered) := qc in
  if negb (includes covered node)
  then (queue ++ [mkEntry (ofValue node) (depth + 1)], covered ++ [node])
  else (queue, covered).

(** The search calls itself once for each entry it takes from the queue;
    [fuel] bounds the number of these calls, and [None] is the answer of
    a search that needs more. *)
Fixpoint breadthFirstSearch (fuel : nat) (edges : list Edge)
    (queue : list (Entry jsval)) (endNode : jsval) (covered : list value)
    : option (completion nat) :=
  match fuel with
  | O => None
  | S fuel =>
      match queue with
      | current :: queue =>
          let currNode := node current in
          let depth := depth current in
          if strict_eq currNode endNode then Some (Normal depth)
          else
            let '(queue, covered) :=
              foldl (enqueueOf depth) (queue, covered)
                    (nextLevelNodesOf edges currNode) in
            breadthFirstSearch fuel edges queue endNode covered
      | [] => Some (Throw PathNotFoundError)
      end
  end.

(** Calls enough for every search over [edges] that starts from a queue
    of one entry. *)
Definition searchFuel (edges : list Edge) : nat := 2 * length edges + 3.

Definition NodeNotFoundError : string :=
  "Path can only be calculated between two nodes in the network.".

Definition shortestPath (w : World) (startId endId : string)
    : option (completion nat) :=
  let startNode := nodeDictionary_get w startId in
  let endNode := nodeDictionary_get w endId in
  if negb (truthy startNode) || negb (truthy endNode)
  then Some (Throw NodeNotFoundError)
  else breadthFirstSearch (searchFuel (edges (this w))) (edges (this w))
         [mkEntry startNode 0] endNode [].

Fixpoint connectedComponentMapBF (fuel : nat) (edges : list Edge)
    (queue : list QueueEntry) (covered : list value) : option (list value) :=
  match fuel with
  | O => None
  | S fuel =>
      match queue with
      | current :: queue =>
          let currNode := node current in
          let depth := depth current in
          let '(queue, covered) :=
            foldl (enqueue depth) (queue, covered)
                  (nextLevelNodes edges currNode) in
          connectedComponentMapBF fuel edges queue covered
      | [] => Some covered
      end
  end.

(** The first loop of [findLargestComponent]. *)
Fixpoint collectComponents (edges : list Edge) (nodes : list ref)
    (runningCoveredList : list value) (components : list (list value))
    : option (list (list value)) :=
  match nodes with
  | [] => Some components
  | node :: nodes =>
      if negb (includes runningCoveredList (Some node)) then
        match connectedComponentMapBF (searchFuel edges) edges
                [mkEntry (Some node) 0] [] with
        | Some connectedComponent =>
            collectComponents edges nodes
              (runningCoveredList ++ connectedComponent)
              (components ++ [connectedComponent])
        | None => None
        end
      else collectComponents edges nodes runningCoveredList components
  end.

Definition findLargestComponent (g : Graph) : option (list value) :=
  match collectComponents (edges g) (nodes g) [] [] with
  | Some components =>
      Some (foldl (λ largestComponent component,
                     if Nat.ltb (length largestComponent) (length component)
                     then component else largestComponent)
                  [] components)
  | None => None
  end.

(** ** The network generator *)

(** [`${nodePrefix}${i}`] *)
Definition nodeName (nodePrefix : string) (i : nat) : string :=
  nodePrefix +:+ pretty i.

Definition generateRandomNetwork (n : nat) (p : float) (nodePrefix : string)
    : M unit :=
  for_of (range 0 n) (λ i,
    let* _ := addNode (justId (nodeName nodePrefix i)) in ret tt) ;;;
  for_of (range 0 n) (λ i,
    for_of (range (i + 1) n) (λ j,
      let* r := Math_random in
      if (r <=? p)%float
      then addEdge (nodeName nodePrefix i) (nodeName nodePrefix j)
      else ret tt)).

(** ** Drawing *)

(** [refresh()] clears the canvas and draws every edge and every node;
    what the renderer receives is recorded as a frame. *)
Definition refresh : M unit :=
  let* w := get in
  let* es := for_map (edges (this w)) (λ e,
               let* s := deref (source e) in
               let* t := deref (target e) in
               ret (s, t)) in
  let* ns := for_map (nodes (this w)) (λ n, deref (Some n)) in
  modify (λ w, set_frames (frames w ++ [mkFrame es ns]) w).

(** ** The layout engine *)

Definition fa (z k c : float) : float := (Math.pow2 z / k * c)%float.

Definition fr (z k c : float) : float := (Math.pow2 k / z * c)%float.

Definition dist (vector : Vector) : float :=
  Math.sqrt (Math.pow2 (vec_x vector) + Math.pow2 (vec_y vector))%float.

Definition deltaF (a b : float) : float :=
  let dif := (a - b)%float in
  if (dif <? 0)%float then Math.min dif (-0.0001)%float
  else Math.max dif 0.0001%float.

(** The first loop of a pass: the displacement of every node is reset
    and then pushed away from every other node. *)
Definition repulsion (net_nodes : list ref) (k repulsionConstant : float)
    : M unit :=
  for_of net_nodes (λ node,
    update (Some node) (GraphNode.set_disp (mkVector 0 0)) ;;;
    for_of net_nodes (λ otherNode,
      if negb (bool_decide (node = otherNode)) then
        let* n := deref (Some node) in
        let* o := deref (Some otherNode) in
        let delta := mkVector (deltaF (GraphNode.x n) (GraphNode.x o))
                              (deltaF (GraphNode.y n) (GraphNode.y o)) in
        let distanceDelta := dist delta in
        let newDispX :=
          (vec_x (GraphNode.disp n) +
           vec_x delta / distanceDelta * fr distanceDelta k repulsionConstant)%float in
        let newDispY :=
          (vec_y (GraphNode.disp n) +
           vec_y delta / distanceDelta * fr distanceDelta k repulsionConstant)%float in
        update (Some node) (GraphNode.set_disp (mkVector newDispX newDispY))
      else ret tt)).

(** The second loop of a pass: the two ends of every edge are pulled
    towards each other.  The four assignments are kept apart, since the
    source and the target of an edge may be the same object. *)
Definition attraction (net_edges : list Edge) (k attractionConstant : float)
    : M unit :=
  for_of net_edges (λ edge,
    let source := source edge in
    let target := target edge in
    let* s := deref source in
    let* t := deref target in
    let delta := mkVector (deltaF (GraphNode.x s) (GraphNode.x t))
                          (deltaF (GraphNode.y s) (GraphNode.y t)) in
    let distanceDelta := dist delta in
    let pull (d : float) : float :=
      (d / distanceDelta * fa distanceDelta k attractionConstant)%float in
    update source (λ n, GraphNode.set_disp
      (mkVector (vec_x (GraphNode.disp n) - pull (vec_x delta))
                (vec_y (GraphNode.disp n))) n) ;;;
    update source (λ n, GraphNode.set_disp
      (mkVector (vec_x (GraphNode.disp n))
                (vec_y (GraphNode.disp n) - pull (vec_y delta))) n) ;;;
    update target (λ n, GraphNode.set_disp
      (mkVector (vec_x (GraphNode.disp n) + pull (vec_x delta))
                (vec_y (GraphNode.disp n))) n) ;;;
    update target (λ n, GraphNode.set_disp
      (mkVector (vec_x (GraphNode.disp n))
                (vec_y (GraphNode.disp n) + pull (vec_y delta))) n)).

(** The position that a node would move to, before it is clamped. *)
Definition tempX (t : float) (n : GraphNode.t) : float :=
  (GraphNode.x n +
   vec_x (GraphNode.disp n) / dist (GraphNode.disp n) *
   Math.min (Math.abs (vec_x (GraphNode.disp n))) t)%float.

Definition tempY (t : float) (n : GraphNode.t) : float :=
  (GraphNode.y n +
   vec_y (GraphNode.disp n) / dist (GraphNode.disp n) *
   Math.min (Math.abs (vec_y (GraphNode.disp n))) t)%float.

(** The third loop of a pass of [fruchtermanReingold]. *)
Definition updatePositions (net_nodes : list ref) (width height t : float)
    : M unit :=
  for_of net_nodes (λ node,
    let* n := deref (Some node) in
    let tempX := tempX t n in
    let tempY := tempY t n in
    update (Some node)
      (GraphNode.set_x (Math.min (width - 10) (Math.max 10 tempX))) ;;;
    update (Some node)
      (GraphNode.set_y (Math.min (height - 10) (Math.max 20 tempY)))).

(** The third loop of a pass of [fruchtermanReingoldAnimate]. *)
Definition updatePositionsAnimate (net_nodes : list ref)
    (width height t : float) : M unit :=
  for_of net_nodes (λ node,
    let* n := deref (Some node) in
    let tempX := tempX t n in
    let tempY := tempY t n in
    update (Some node)
      (GraphNode.set_x (Math.min (width - 20) (Math.max 20 tempX))) ;;;
    update (Some node)
      (GraphNode.set_y (Math.min (height - 20) (Math.max 20 tempY)))).

(** Ghost: one more pass is complete. *)
Definition pass_done : M unit :=
  modify (λ w, set_passes (S (passes w)) w).

Definition fruchtermanReingold (attractionConstant repulsionConstant : float)
    : M unit :=
  let* w := get in
  let net_nodes := nodes (this w) in
  let net_edges := edges (this w) in
  let width := clientWidth (canvas (this w)) in
  let height := clientHeight (canvas (this w)) in
  let k := Math.sqrt (width * height / number_of_nat (length net_nodes))%float in
  let* _ :=
    for_fold (range 1 80) 50%float (λ i t,
      repulsion net_nodes k repulsionConstant ;;;
      attraction net_edges k attractionConstant ;;;
      updatePositions net_nodes width height t ;;;
      pass_done ;;;
      ret (t - 10 / number_of_nat i)%float) in
  refresh.

(** [await new Promise((r) => setTimeout(r, 200))]: the solver is
    suspended and the host runs.  Of what the host may do in the
    meantime, the model has the stop signal: [stop i] tells whether
    [playing] is set to [false] during the suspension that ends pass [i]. *)
Definition suspend (stop : nat → bool) (i : nat) : M unit :=
  if stop i then modify_this (set_playing false) else ret tt.

Definition fruchtermanReingoldAnimate
    (attractionConstant repulsionConstant : float) (stop : nat → bool)
    : M unit :=
  modify_this (set_playing true) ;;;
  let* w := get in
  let net_nodes := nodes (this w) in
  let net_edges := edges (this w) in
  let width := clientWidth (canvas (this w)) in
  let height := clientHeight (canvas (this w)) in
  let k := Math.sqrt (width * height / number_of_nat (length net_nodes))%float in
  let* _ :=
    for_fold_break (range 1 80) 50%float (λ i t,
      let* w := get in
      if negb (playing (this w)) then ret (Break t)
      else
        repulsion net_nodes k repulsionConstant ;;;
        attraction net_edges k attractionConstant ;;;
        updatePositionsAnimate net_nodes width height t ;;;
        pass_done ;;;
        let t := (t - 10 / number_of_nat i)%float in
        refresh ;;;
        suspend stop i ;;;
        ret (Continue t)) in
  modify_this (set_playing false).

(** ** The constructor *)

(** An element of the [nodes] argument of the constructor: an object of
    strings, in which every key but [id] may be missing. *)
Record NodeSpec := mkNodeSpec {
  spec_id : string;
  spec_x : option string;
  spec_y : option string;
  spec_strokeColor : option string;
  spec_fillColor : option string
}.

(** An element of the [edges] argument: the ids of the two ends. *)
Record EdgeSpec := mkEdgeSpec { spec_source : string; spec_target : string }.

(** The argument of the constructor, with its defaults filled in. *)
Record GraphArgs := mkGraphArgs {
  args_canvas : Canvas;
  args_nodes : list NodeSpec;
  args_edges : list EdgeSpec;
  args_weightFactor : float;
  args_primaryDark : string;
  args_primaryMid : string;
  args_primaryLight : string;
  args_secondaryDark : string;
  args_secondaryMid : string;
  args_tertiaryMid : string
}.

(** [new Graph(...)].  The new graph takes the place of [this]; the node
    objects it creates are put in the heap after those that are there.
    [parseInt] is the function of that name of the language. *)
Definition constructor (parseInt : string → float) (a : GraphArgs) : M unit :=
  modify_this (λ _,
    mkGraph (args_canvas a) [] [] emptyDictionary []
      (clientWidth (args_canvas a)) (clientHeight (args_canvas a))
      (args_weightFactor a) false
      (args_primaryDark a) (args_primaryMid a) (args_primaryLight a)
      (args_secondaryDark a) (args_secondaryMid a) (args_tertiaryMid a)) ;;;
  for_of (args_nodes a) (λ node,
    let* w := get in
    if negb (includes (nodeIds (this w)) (spec_id node)) then
      let* x :=
        match spec_x node with
        | None => let* r := Math_random in
                  ret (r * (width (this w) - 20) + 10)%float
        | Some x => ret (parseInt x)
        end in
      let* y :=
        match spec_y node with
        | None => let* r := Math_random in
                  ret (r * (height (this w) - 20) + 10)%float
        | Some y => ret (parseInt y)
        end in
      let* newNode :=
        alloc (GraphNode.new (spec_id node) x y
                 (default (primaryDark (this w)) (spec_strokeColor node))
                 (default (primaryMid (this w)) (spec_fillColor node))
                 None None) in
      modify_this (λ g, set_nodes (nodes g ++ [newNode]) g) ;;;
      modify_this (λ g, set_nodeIds (nodeIds g ++ [spec_id node]) g) ;;;
      modify_this (λ g, set_nodeDictionary
                          (dictionary_set (nodeDictionary g) (spec_id node)
                             newNode) g)
    else ret tt) ;;;
  let* w := get in
  for_of (List.filter (λ e, includes (nodeIds (this w)) (spec_source e) &&
                            includes (nodeIds (this w)) (spec_target e))
                      (args_edges a))
    (λ e,
      let* w := get in
      let newEdge := mkEdge (toValue (nodeDictionary_get w (spec_source e)))
                            (toValue (nodeDictionary_get w (spec_target e))) in
      modify_this (λ g, set_edges (edges g ++ [newEdge]) g)).

(** ** Arranging the nodes *)

Definition Math_PI : float := 0x1.921fb54442d18p+1%float.

(** [arrangeInCircle()]; [cos] and [sin] are [Math.cos] and [Math.sin]. *)
Definition arrangeInCircle (cos sin : float → float) : M unit :=
  let* w := get in
  let centreX := (width (this w) / 2)%float in
  let centreY := (height (this w) / 2)%float in
  let radius := (Math.min centreX centreY / 2)%float in
  let nodeCount := length (nodes (this w)) in
  for_of (range 0 nodeCount) (λ i,
    update (nodes (this w) !! i)
      (GraphNode.set_x
         (centreX + radius *
            cos (2 * Math_PI / number_of_nat nodeCount * number_of_nat i))%float) ;;;
    update (nodes (this w) !! i)
      (GraphNode.set_y
         (centreY + radius *
            sin (2 * Math_PI / number_of_nat nodeCount * number_of_nat i))%float)).

Definition arrangeRandomly : M unit :=
  let* w := get in
  for_of (nodes (this w)) (λ node,
    let* r := Math_random in
    update (Some node)
      (GraphNode.set_x (r * (width (this w) - 20) + 10)%float) ;;;
    let* r := Math_random in
    update (Some node)
      (GraphNode.set_y (r * (height (this w) - 20) + 10)%float)).

(** ** Well-formed worlds *)

(** A value that is a node whose object is in the heap. *)
Definition allocated (h : list GraphNode.t) (v : value) : Prop :=
  is_Some (v ≫= λ r, h !! r).

(** The invariant of the store: the node array, the edges and the
    dictionary hold nodes that exist; the dictionary has of its own
    exactly the keys listed in [nodeIds], but for [__proto__], which is
    listed exactly when a node is the prototype of the dictionary; and
    no id is listed twice.  The methods of the store keep it, and the
    solvers rely on it. *)
Definition wf (w : World) : Prop :=
  Forall (λ r, r < length (heap w)) (nodes (this w)) ∧
  Forall (λ e, allocated (heap w) (source e) ∧ allocated (heap w) (target e))
         (edges (this w)) ∧
  dom (own (nodeDictionary (this w))) =
    list_to_set (nodeIds (this w)) ∖ {["__proto__"]} ∧
  map_Forall (λ _ r, r < length (heap w)) (own (nodeDictionary (this w))) ∧
  NoDup (nodeIds (this w)) ∧
  ("__proto__" ∈ nodeIds (this w) ↔
   is_Some (prototype (nodeDictionary (this w)))) ∧
  from_option (λ r, r < length (heap w)) True
              (prototype (nodeDictionary (this w))).

#[global] Instance allocated_dec h v : Decision (allocated h v).
Proof. unfold allocated. apply _. Defined.

#[global] Instance wf_dec w : Decision (wf w).
Proof.
  unfold wf. destruct (prototype (nodeDictionary (this w))); simpl; apply _.
Defined.

(** A graph on a canvas, before anything is added to it. *)
Definition emptyGraph (c : Canvas) : Graph :=
  mkGraph c [] [] emptyDictionary [] (clientWidth c) (clientHeight c) 1 false
    "#90a4ae" "#b0bec5" "#fce4ec" "#ffab91" "#f06292" "#9575cd".

(** The world of a new graph on a canvas of 500 by 500, in which
    [Math.random] returns [r] every time. *)
Definition newWorld (r : float) : World :=
  mkWorld [] (emptyGraph (mkCanvas 500 500)) [] (λ _, r) 0 [] 0.

(** The world after a computation. *)
Definition exec {A} (c : M A) (w : World) : World := snd (c w).

(** [{ id: id, x: x, y: y }] *)
Definition nodeAt (id : string) (x y : float) : NodeArgs :=
  mkNodeArgs id (Some x) (Some y) None None None None.

(** The worlds that the methods of the store build from a new graph. *)
Inductive built : World → Prop :=
| built_new (c : Canvas) (rnd : nat → float) :
    built (mkWorld [] (emptyGraph c) [] rnd 0 [] 0)
| built_addNode (a : NodeArgs) (w : World) :
    built w → built (exec (addNode a) w)
| built_addEdge (s t : string) (w : World) :
    built w → built (exec (addEdge s t) w)
| built_deleteAllNodes (w : World) :
    built w → built (exec deleteAllNodes w).

(** ** Example worlds *)

(** The graph with one node ["a"] and one edge from ["a"] to ["a"]. *)
Definition loopWorld : World :=
  exec (addEdge "a" "a") (exec (addNode (nodeAt "a" 100 100)) (newWorld 0.5)).

(** One node and no edge. *)
Definition singleNodeWorld : World :=
  exec (addNode (nodeAt "a" 100 100)) (newWorld 0.5).

(** Two nodes joined by an edge. *)
Definition pairWorld : World :=
  exec (addEdge "a" "b")
    (exec (addNode (nodeAt "b" 200 100)) singleNodeWorld).

(** Three nodes in a row, A - B - C, and a fourth node D apart. *)
Definition pathWorld : World :=
  exec (addEdge "B" "C")
    (exec (addEdge "A" "B")
       (exec (addNode (justId "D"))
          (exec (addNode (justId "C"))
             (exec (addNode (justId "B"))
                (exec (addNode (justId "A")) (newWorld 0.5)))))).

(** Components of sizes 1, 3 and 2: a alone, b - c - d, and e - f. *)
Definition componentsWorld : World :=
  exec (addEdge "e" "f")
    (exec (addEdge "c" "d")
       (exec (addEdge "b" "c")
          (foldl (λ w i, exec (addNode (justId i)) w) (newWorld 0.5)
                 ["a"; "b"; "c"; "d"; "e"; "f"]))).

(** Four nodes in a cycle. *)
Definition cycleWorld : World :=
  foldl (λ w '(s, t), exec (addEdge s t) w)
    (foldl (λ w i, exec (addNode (justId i)) w) (newWorld 0.5)
           ["a"; "b"; "c"; "d"])
    [("a", "b"); ("b", "c"); ("c", "d"); ("d", "a")].

(** Two nodes in the middle of a pass, near two opposite corners of a
    canvas of 500 by 500 and pushed further towards them. *)
Definition cornerWorld : World :=
  mkWorld
    [GraphNode.mk "a" 5 5 "" false 1 (mkVector (-3) (-4)) "" "";
     GraphNode.mk "b" 495 495 "" false 1 (mkVector 3 4) "" ""]
    (set_nodes [0; 1] (emptyGraph (mkCanvas 500 500))) [] (λ _, 0.5%float) 0 [] 0.

(** The coordinates of the nodes in the heap. *)
Definition positions (w : World) : list (float * float) :=
  map (λ n, (GraphNode.x n, GraphNode.y n)) (heap w).

(** The positions in the frames drawn. *)
Definition framePositions (w : World) : list (list (float * float)) :=
  map (λ f, map (λ n, (GraphNode.x n, GraphNode.y n)) (frame_nodes f)) (frames w).

(** ** The vocabulary of the properties *)

(** [breadthFirstSearch] as it runs between two values that are nodes or
    [undefined]: the queue holds ends of edges only, and [===] on them
    is equality.  [breadthFirstSearch_between] relates the two. *)
Fixpoint searchBetween (fuel : nat) (edges : list Edge)
    (queue : list QueueEntry) (endNode : value) (covered : list value)
    : option (completion nat) :=
  match fuel with
  | O => None
  | S fuel =>
      match queue with
      | current :: queue =>
          let currNode := node current in
          let depth := depth current in
          if bool_decide (currNode = endNode) then Some (Normal depth)
          else
            let '(queue, covered) :=
              foldl (enqueue depth) (queue, covered)
                    (nextLevelNodes edges currNode) in
            searchBetween fuel edges queue endNode covered
      | [] => Some (Throw PathNotFoundError)
      end
  end.

(** The entry of the queue of [breadthFirstSearch] for an end of an
    edge. *)
Definition entryOf (x : QueueEntry) : Entry jsval :=
  mkEntry (ofValue (node x)) (depth x).

(** A value that is neither a node nor [undefined]: it is no end of any
    edge. *)
Definition foreign (j : jsval) : Prop := ∀ v : value, ofValue v ≠ j.

(** The count that the specification describes: an edge is counted once
    for its source and once more for its target. *)
Definition degreeByEndpoints (w : World) (nodeId : string) : nat :=
  let node := nodeDictionary_get w nodeId in
  length (List.filter (λ e, strict_eq (ofValue (source e)) node)
                      (edges (this w))) +
  length (List.filter (λ e, strict_eq (ofValue (target e)) node)
                      (edges (this w))).

(** A coordinate is within the bounds when it is a number between them. *)
Definition within (lo hi v : float) : Prop :=
  (lo <=? v)%float = true ∧ (v <=? hi)%float = true.

(** A coordinate that is NaN or a number between the bounds. *)
Definition clamped (lo hi v : float) : Prop := v = nan ∨ within lo hi v.

(** A node whose two coordinates are so. *)
Definition boxed (xlo xhi ylo yhi : float) (n : GraphNode.t) : Prop :=
  clamped xlo xhi (GraphNode.x n) ∧ clamped ylo yhi (GraphNode.y n).

(** The frames drawn by the animated solver: one after every pass, each
    with every node in the box of the animated clamp. *)
Definition animatedFrames (W H : float) (fs : list Frame) : Prop :=
  Forall (λ f, Forall (boxed 20 (W - 20) 20 (H - 20)) (frame_nodes f)) fs.

(** The heap has [L] objects. *)
Definition sized (L : nat) (h : list GraphNode.t) : Prop := length h = L.

(** [hoare P c Q]: started in a heap that satisfies [P], the computation
    [c] ends normally, changes nothing but the heap, and its result and
    the heap it leaves satisfy [Q]. *)
Definition hoare {A} (P : list GraphNode.t → Prop) (c : M A)
    (Q : A → list GraphNode.t → Prop) : Prop :=
  ∀ w, P (heap w) → ∃ a h', c w = (Normal a, set_heap h' w) ∧ Q a h'.

(** Two values are adjacent when an edge joins them, in either
    direction. *)
Definition adjacent (edges : list Edge) (u v : value) : Prop :=
  ∃ e, e ∈ edges ∧
       ((source e = u ∧ target e = v) ∨ (target e = u ∧ source e = v)).

(** [walk edges s n v]: [v] is reached from [s] in [n] hops. *)
Inductive walk (edges : list Edge) (s : value) : nat → value → Prop :=
| walk_here : walk edges s 0 s
| walk_hop (n : nat) (u v : value) :
    walk edges s n u → adjacent edges u v → walk edges s (S n) v.

Definition reachable (edges : list Edge) (s e : value) : Prop :=
  ∃ n, walk edges s n e.

(** [d] is the hop-count distance from [s] to [e]: the least number of
    hops of a walk from [s] to [e]. *)
Definition distance (edges : list Edge) (s e : value) (d : nat) : Prop :=
  walk edges s d e ∧ ∀ n, walk edges s n e → d ≤ n.

(** The values that occur as an end of an edge, each once. *)
Definition endpoints (edges : list Edge) : list value :=
  remove_dups (map source edges ++ map target edges).

(** How many of the values of [U] are not covered. *)
Definition uncovered (U covered : list value) : nat :=
  length (filter (λ u, u ∉ covered) U).

(** The queue holds entries of depth [d] followed by entries of depth
    [d + 1], and the entries already taken from it have depth at most
    [d]. *)
Definition levels (d : nat) (P q : list QueueEntry) : Prop :=
  ∃ qa qb, q = qa ++ qb ∧
           Forall (λ y, depth y = d) qa ∧
           Forall (λ y, depth y = S d) qb ∧
           Forall (λ p, depth p ≤ d) P.

(** The state of a search from [s] for [e]: [P] are the entries taken
    from the queue so far, [q] is the queue and [c] the covered list. *)
Record search_inv (edges : list Edge) (s e : value)
    (P q : list QueueEntry) (c : list value) : Prop := {
  inv_walk : ∀ x, x ∈ q → walk edges s (depth x) (node x);
  inv_levels : ∃ d, levels d P q;
  inv_covered : ∀ v, v ∈ c → ∃ x, x ∈ P ++ q ∧ node x = v;
  inv_end : ∀ p, p ∈ P → node p ≠ e;
  inv_start : ∃ x, x ∈ P ++ q ∧ node x = s ∧ depth x = 0;
  inv_adjacent : ∀ p v, p ∈ P → adjacent edges (node p) v →
                 ∃ x, x ∈ P ++ q ∧ node x = v ∧ depth x ≤ depth p + 1
}.

(** The state of a search for the component of [s]: what is covered is
    reached from [s] in one hop or more and is in the queue or was taken
    from it, the queue holds what is reached from [s], and the
    neighbours of the entries taken from the queue are covered. *)
Record component_inv (edges : list Edge) (s : value)
    (P q : list QueueEntry) (c : list value) : Prop := {
  cinv_covered : ∀ v, v ∈ c → ∃ n, walk edges s (S n) v;
  cinv_queue : ∀ x, x ∈ P ++ q → reachable edges s (node x);
  cinv_adjacent : ∀ p v, p ∈ P → adjacent edges (node p) v → v ∈ c;
  cinv_entries : ∀ v, v ∈ c → ∃ x, x ∈ P ++ q ∧ node x = v;
  cinv_start : ∃ x, x ∈ P ++ q ∧ node x = s;
  cinv_NoDup : NoDup c
}.

(** The edges of the complete graph on the [n] nodes allocated from
    address [a] on, in the order in which the generator adds them. *)
Definition completeEdges (a n : nat) : list Edge :=
  flat_map (λ i, map (λ j, mkEdge (Some (a + i)) (Some (a + j)))
                     (range (i + 1) n))
           (range 0 n).

(** The store holds the [n] generated nodes, and every draw of the
    random source passes the test [Math.random() <= p]. *)
Definition generated (nodePrefix : string) (a n : nat) (p : float)
    (w : World) : Prop :=
  nodeIds (this w) = map (nodeName nodePrefix) (seq 0 n) ∧
  (∀ i, i < n → nodeDictionary_get w (nodeName nodePrefix i) = JNode (a + i)) ∧
  (∀ k, (random w k <=? p)%float = true).

(** Two node objects that differ at most in position and displacement. *)
Definition sameStyle (n n' : GraphNode.t) : Prop :=
  GraphNode.id n' = GraphNode.id n ∧
  GraphNode.label n' = GraphNode.label n ∧
  GraphNode.displayLabel n' = GraphNode.displayLabel n ∧
  GraphNode.weight n' = GraphNode.weight n ∧
  GraphNode.strokeColor n' = GraphNode.strokeColor n ∧
  GraphNode.fillColor n' = GraphNode.fillColor n.

(** Two graphs that differ at most in the [playing] flag. *)
Definition sameStructure (g g' : Graph) : Prop :=
  set_playing (playing g) g' = g.

(** [w'] differs from [w] only by a layout: the graph is the same but
    for the [playing] flag, the heap holds the same objects but for
    their positions and displacements, and the console is the same. *)
Definition layoutOnly (w w' : World) : Prop :=
  sameStructure (this w) (this w') ∧
  Forall2 sameStyle (heap w) (heap w') ∧
  console w' = console w.

(** A read of the dictionary under [key] sees no position of a node:
    the key is neither ["x"] nor ["y"], or the dictionary has no node as
    its prototype, or the read finds a node. *)
Definition positionFree (w : World) (key : string) : Prop :=
  (key ≠ "x" ∧ key ≠ "y") ∨
  prototype (nodeDictionary (this w)) = None ∨
  ∃ r, nodeDictionary_get w key = JNode r.

(** A store whose one node has the id [__proto__] and is at the left
    edge of the canvas. *)
Definition prototypeWorld : World :=
  exec (addNode (nodeAt "__proto__" 0 100)) (newWorld 0.5).

(** [c] keeps [I]: from a world in [I] it leads to a world in [I],
    whether it ends normally or throws. *)
Definition preserves {A} (I : World → Prop) (c : M A) : Prop :=
  ∀ w, I w → I (snd (c w)).

(** The invariant of the store in full: besides [wf], the node array has
    no node twice, the node at each index is what the dictionary gives
    for the id listed at that index and has this id itself, and every
    edge joins two nodes of the array. *)
Definition store_inv (w : World) : Prop :=
  wf w ∧
  NoDup (nodes (this w)) ∧
  Forall2 (λ i r, nodeDictionary_get w i = JNode r ∧
                  GraphNode.id <$> heap w !! r = Some i)
          (nodeIds (this w)) (nodes (this w)) ∧
  Forall (λ e, ∃ a b, source e = Some a ∧ target e = Some b ∧
                      a ∈ nodes (this w) ∧ b ∈ nodes (this w))
         (edges (this w)).

(** The worlds that the methods lead to, from the construction of a
    graph on. *)
Inductive reached : World → Prop :=
| reached_constructor (parseInt : string → float) (a : GraphArgs) (w : World) :
    reached (exec (constructor parseInt a) w)
| reached_addNode (a : NodeArgs) (w : World) :
    reached w → reached (exec (addNode a) w)
| reached_addEdge (s t : string) (w : World) :
    reached w → reached (exec (addEdge s t) w)
| reached_deleteAllNodes (w : World) :
    reached w → reached (exec deleteAllNodes w)
| reached_generateRandomNetwork (n : nat) (p : float) (nodePrefix : string)
    (w : World) :
    reached w → reached (exec (generateRandomNetwork n p nodePrefix) w)
| reached_arrangeInCircle (cos sin : float → float) (w : World) :
    reached w → reached (exec (arrangeInCircle cos sin) w)
| reached_arrangeRandomly (w : World) :
    reached w → reached (exec arrangeRandomly w)
| reached_fruchtermanReingold (c1 c2 : float) (w : World) :
    reached w → reached (exec (fruchtermanReingold c1 c2) w)
| reached_fruchtermanReingoldAnimate (c1 c2 : float) (stop : nat → bool)
    (w : World) :
    reached w → reached (exec (fruchtermanReingoldAnimate c1 c2 stop) w).

(** The node that the constructor makes of an element of its [nodes]
    argument, as an argument of [addNode]. *)
Definition nodeArgs (parseInt : string → float) (n : NodeSpec) : NodeArgs :=
  mkNodeArgs (spec_id n) (parseInt <$> spec_x n) (parseInt <$> spec_y n)
    (spec_strokeColor n) (spec_fillColor n) None None.

(** The argument of the constructor without its nodes and edges. *)
Definition withoutContent (a : GraphArgs) : GraphArgs :=
  mkGraphArgs (args_canvas a) [] [] (args_weightFactor a)
    (args_primaryDark a) (args_primaryMid a) (args_primaryLight a)
    (args_secondaryDark a) (args_secondaryMid a) (args_tertiaryMid a).

(** Adding the nodes of [l] one by one with [addNode], leaving out those
    whose id is taken. *)
Definition addNodes (l : list NodeArgs) (w : World) : World :=
  foldl (λ w a, if includes (nodeIds (this w)) (arg_id a) then w
                else exec (addNode a) w) w l.

(** Adding the edges of [l] one by one with [addEdge]. *)
Definition addEdges (l : list EdgeSpec) (w : World) : World :=
  foldl (λ w e, exec (addEdge (spec_source e) (spec_target e)) w) w l.

(** The edge specifications whose two ends are listed in [w]. *)
Definition knownEdges (w : World) (l : list EdgeSpec) : list EdgeSpec :=
  List.filter (λ e, includes (nodeIds (this w)) (spec_source e) &&
                    includes (nodeIds (this w)) (spec_target e)) l.

(** The number of results of [Math.random] that an optional coordinate
    costs: one when the coordinate is left out. *)
Definition draws {A} (o : option A) : nat :=
  match o with Some _ => 0 | None => 1 end.

(** The state of a search for the component of [s] that was started as
    the comment on [connectedComponentMapBF] asks, with [s] in the queue
    and in the covered list: what is covered is reached from [s], [s]
    itself is covered, and the rest is as in [component_inv]. *)
Record origin_inv (edges : list Edge) (s : value)
    (P q : list QueueEntry) (c : list value) : Prop := {
  oinv_covered : ∀ v, v ∈ c → reachable edges s v;
  oinv_queue : ∀ x, x ∈ P ++ q → reachable edges s (node x);
  oinv_adjacent : ∀ p v, p ∈ P → adjacent edges (node p) v → v ∈ c;
  oinv_entries : ∀ v, v ∈ c → ∃ x, x ∈ P ++ q ∧ node x = v;
  oinv_start : s ∈ c;
  oinv_NoDup : NoDup c
}.

(** The pairs [i < j] of numbers below [n], in the order in which the
    generator goes through them. *)
Definition pairsBelow (n : nat) : list (nat * nat) :=
  flat_map (λ i, map (pair i) (range (i + 1) n)) (range 0 n).

(** The edges that the generator adds for the pairs of [pairs], where
    the node numbered [i] is at address [a + i] and the draw for the
    first pair is the result number [d] of the random source [rnd]: a
    pair gets its edge when its draw is at most [p]. *)
Fixpoint drawnEdges (rnd : nat → float) (p : float) (a d : nat)
    (pairs : list (nat * nat)) : list Edge :=
  match pairs with
  | [] => []
  | (i, j) :: pairs =>
      (if (rnd d <=? p)%float then [mkEdge (Some (a + i)) (Some (a + j))]
       else []) ++ drawnEdges rnd p a (S d) pairs
  end.

(** The store lists the [n] generated names, and the dictionary holds
    for the name numbered [i] the node at address [a + i]. *)
Definition named (nodePrefix : string) (a n : nat) (w : World) : Prop :=
  ∀ i, i < n → nodeName nodePrefix i ∈ nodeIds (this w) ∧
               nodeDictionary_get w (nodeName nodePrefix i) = JNode (a + i).

(** The number of passes that the animated solver makes over the
    values [l] of its counter: it makes a pass, and goes on to the next
    unless the stop signal came during the suspension that ended the
    pass. *)
Fixpoint passesRun (stop : nat → bool) (l : list nat) : nat :=
  match l with
  | [] => 0
  | i :: l => if stop i then 1 else S (passesRun stop l)
  end.

(** * Computations *)

(** A computation that ends normally hands its result and its world
    to what follows; one that throws ends what follows. *)
Lemma bind_normal {A B} (c : M A) (k : A → M B) (w w' : World) (a : A) :
  c w = (Normal a, w') → bind c k w = k a w'.
Proof. unfold bind. by intros ->. Qed.

Lemma bind_throw {A B} (c : M A) (k : A → M B) (w w' : World) (e : string) :
  c w = (Throw e, w') → bind c k w = (Throw e, w').
Proof. unfold bind. by intros ->. Qed.

(** Running the first computation of a sequence, by an equation that
    gives its result or by evaluation. *)
Ltac step_with E := erewrite bind_normal by exact E.
Ltac step := erewrite bind_normal by reflexivity.

(** * The order on numbers *)

Lemma SFcompare_refl (f g : spec_float) (c : comparison) :
  SFcompare f g = Some c → SFcompare f f = Some Eq.
Proof.
  destruct f as [s| s| |s m e]; simpl.
  - done.
  - by destruct s.
  - by destruct g.
  - intros _. rewrite Z.compare_refl, Pos.compare_cont_refl. by destruct s.
Qed.

Lemma SFcompare_antisym (f g : spec_float) :
  SFcompare g f = option_map CompOpp (SFcompare f g).
Proof.
  destruct f as [s1|s1| |s1 m1 e1], g as [s2|s2| |s2 m2 e2]; simpl;
    try done; try (by destruct s1); try (by destruct s2);
    try (by destruct s1, s2).
  rewrite (Z.compare_antisym e1 e2).
  destruct s1, s2; try done; destruct (e1 ?= e2)%Z; simpl; try done.
  - by rewrite (Pos.compare_cont_antisym m1 m2 Eq).
  - by rewrite (Pos.compare_cont_antisym m1 m2 Eq).
Qed.

(** Two numbers that compare as equal are the same, or both are a
    zero. *)
Lemma SFcompare_Eq (f g : spec_float) :
  SFcompare f g = Some Eq →
  f = g ∨ ∃ s s', f = S754_zero s ∧ g = S754_zero s'.
Proof.
  destruct f as [s1|s1| |s1 m1 e1], g as [s2|s2| |s2 m2 e2]; simpl;
    try done; try (by destruct s1); try (by destruct s2).
  - eauto.
  - destruct s1, s2; try done; by left.
  - intros H. left.
    assert (e1 = e2 ∧ m1 = m2) as [-> ->].
    { destruct s1, s2; try done;
        destruct (e1 ?= e2)%Z eqn:He; try done;
        apply Z.compare_eq in He;
        (split; [done|]); apply Pos.compare_eq; unfold Pos.compare;
        by destruct (Pos.compare_cont Eq m1 m2). }
    by destruct s1, s2.
Qed.

Lemma float_eqb_sym (a b : float) : (a =? b)%float = (b =? a)%float.
Proof.
  rewrite !FloatAxioms.eqb_spec. unfold SFeqb.
  rewrite (SFcompare_antisym (Prim2SF a) (Prim2SF b)).
  by destruct (SFcompare (Prim2SF a) (Prim2SF b)) as [[]|].
Qed.

(** [a === b] between two numbers, of which [a] is not a zero, holds
    only if they are the same number. *)
Lemma float_eqb_eq (a b : float) :
  (a =? b)%float = true → (a =? 0)%float = false → a = b.
Proof.
  rewrite !FloatAxioms.eqb_spec. unfold SFeqb. intros Hab Ha0.
  apply Prim2SF_inj.
  destruct (SFcompare (Prim2SF a) (Prim2SF b)) as [[]|] eqn:Hc; try done.
  apply SFcompare_Eq in Hc as [?|(s & s' & Hs & _)]; [done|].
  rewrite Hs in Ha0. by vm_compute in Ha0.
Qed.

Lemma float_ltb_leb (a b : float) : (a <? b)%float = true → (a <=? b)%float = true.
Proof.
  rewrite FloatAxioms.ltb_spec, FloatAxioms.leb_spec. unfold SFltb, SFleb.
  by destruct (SFcompare _ _) as [[]|].
Qed.

Lemma float_leb_refl (a : float) : Math.isNaN a = false → (a <=? a)%float = true.
Proof.
  unfold Math.isNaN, is_nan. rewrite negb_false_iff, FloatAxioms.eqb_spec, FloatAxioms.leb_spec.
  unfold SFeqb, SFleb. by destruct (SFcompare _ _) as [[]|].
Qed.

Lemma float_leb_not_NaN (a b : float) :
  (a <=? b)%float = true → Math.isNaN a = false.
Proof.
  unfold Math.isNaN, is_nan. rewrite negb_false_iff, FloatAxioms.eqb_spec, FloatAxioms.leb_spec.
  unfold SFeqb, SFleb.
  destruct (SFcompare (Prim2SF a) (Prim2SF b)) as [c|] eqn:Hc; [|done].
  intros _. by rewrite (SFcompare_refl _ _ _ Hc).
Qed.

Lemma SFclassify_NZero (f : spec_float) :
  SFclassify prec f = NZero → f = S754_zero true.
Proof.
  destruct f as [[]|[]| |[] m e]; simpl; try done; by case_match.
Qed.

Lemma SFclassify_PZero (f : spec_float) :
  SFclassify prec f = PZero → f = S754_zero false.
Proof.
  destruct f as [[]|[]| |[] m e]; simpl; try done; by case_match.
Qed.

Lemma float_zero_leb (a b : float) :
  Math.isNegZero a = true → Math.isPosZero b = true → (a <=? b)%float = true.
Proof.
  unfold Math.isNegZero, Math.isPosZero. rewrite !FloatAxioms.classify_spec, FloatAxioms.leb_spec.
  unfold SF64classify.
  destruct (SFclassify prec (Prim2SF a)) eqn:Ha; try done.
  destruct (SFclassify prec (Prim2SF b)) eqn:Hb; try done.
  apply SFclassify_NZero in Ha. apply SFclassify_PZero in Hb.
  by rewrite Ha, Hb.
Qed.

(** [Math.max(lo, v)] is NaN or a number that is at least [lo]. *)
Lemma max_lower (lo v : float) :
  Math.max lo v = nan ∨
  (Math.isNaN (Math.max lo v) = false ∧ (lo <=? Math.max lo v)%float = true).
Proof.
  unfold Math.max.
  destruct (Math.isNaN lo) eqn:Hlo; simpl; [by left|].
  destruct (Math.isNaN v) eqn:Hv; simpl; [by left|]. right.
  destruct (lo <? v)%float eqn:Hlt; simpl.
  { split; [done|]. by apply float_ltb_leb. }
  destruct (Math.isPosZero v && Math.isNegZero lo) eqn:Hz.
  - apply andb_true_iff in Hz as [? ?]. split; [done|]. by apply float_zero_leb.
  - split; [done|]. by apply float_leb_refl.
Qed.

(** The clamp [Math.min(hi, Math.max(lo, v))] between ordered bounds:
    the result is NaN, or it is within the bounds. *)
Lemma min_max_within (lo hi v : float) :
  (lo <=? hi)%float = true →
  Math.min hi (Math.max lo v) = nan ∨ within lo hi (Math.min hi (Math.max lo v)).
Proof.
  intros Hb. destruct (max_lower lo v) as [->|[Hn Hm]].
  { left. unfold Math.min. by rewrite orb_true_r. }
  unfold Math.min. rewrite Hn.
  destruct (Math.isNaN hi) eqn:Hhi; simpl; [by left|]. right.
  destruct (Math.max lo v <? hi)%float eqn:Hlt; simpl.
  { split; [done|]. by apply float_ltb_leb. }
  destruct (Math.isNegZero (Math.max lo v) && Math.isPosZero hi) eqn:Hz.
  - apply andb_true_iff in Hz as [? ?]. split; [done|]. by apply float_zero_leb.
  - split; [done|]. by apply float_leb_refl.
Qed.

Lemma float_leb_not_NaN_r (a b : float) :
  (a <=? b)%float = true → Math.isNaN b = false.
Proof.
  unfold Math.isNaN, is_nan.
  rewrite negb_false_iff, FloatAxioms.eqb_spec, FloatAxioms.leb_spec.
  unfold SFeqb, SFleb.
  destruct (Prim2SF a) as [sa|sa| |sa ma ea], (Prim2SF b) as [sb|sb| |sb mb eb];
    simpl; try done.
  all: try (by destruct sb).
  all: intros _; rewrite Z.compare_refl, Pos.compare_cont_refl; by destruct sb.
Qed.

(** The clamp of a number between ordered bounds is a number. *)
Lemma min_max_number (lo hi v : float) :
  (lo <=? hi)%float = true → Math.isNaN v = false →
  Math.isNaN (Math.min hi (Math.max lo v)) = false.
Proof.
  intros Hb Hv.
  pose proof (float_leb_not_NaN _ _ Hb) as Hlo.
  pose proof (float_leb_not_NaN_r _ _ Hb) as Hhi.
  assert (Hm : Math.isNaN (Math.max lo v) = false).
  { unfold Math.max. rewrite Hlo, Hv. simpl. by repeat case_match. }
  unfold Math.min. rewrite Hhi, Hm. simpl. by repeat case_match.
Qed.

Lemma min_max_within_number (lo hi v : float) :
  (lo <=? hi)%float = true → Math.isNaN v = false →
  within lo hi (Math.min hi (Math.max lo v)).
Proof.
  intros Hb Hv. destruct (min_max_within lo hi v Hb) as [Hn|]; [|done].
  pose proof (min_max_number lo hi v Hb Hv) as H.
  rewrite Hn in H. vm_compute in H. discriminate H.
Qed.

(** * Values and the dictionary *)

Lemma strict_eq_ofValue (a b : value) :
  strict_eq (ofValue a) (ofValue b) = bool_decide (a = b).
Proof.
  destruct a as [r|], b as [r'|]; simpl; try done.
  apply bool_decide_ext. naive_solver.
Qed.

(** [===] between an end of an edge and a value is equality. *)
Lemma strict_eq_end (v : value) (j : jsval) :
  strict_eq (ofValue v) j = true ↔ ofValue v = j.
Proof.
  destruct v as [r|], j; simpl; rewrite ?bool_decide_eq_true;
    naive_solver.
Qed.

Lemma strict_eq_foreign (v : value) (j : jsval) :
  foreign j → strict_eq (ofValue v) j = false.
Proof.
  intros Hj. apply not_true_is_false. rewrite strict_eq_end. apply Hj.
Qed.

Lemma strict_eq_sym (a b : jsval) : strict_eq a b = strict_eq b a.
Proof.
  destruct a, b; simpl; try done;
    first [apply float_eqb_sym | apply bool_decide_ext; naive_solver].
Qed.

(** A value that counts as true is [===] to itself, and to no other
    value. *)
Lemma strict_eq_refl (j : jsval) : truthy j = true → strict_eq j j = true.
Proof.
  destruct j as [|r|z|s|b|o]; simpl; try done;
    try (intros _; by apply bool_decide_eq_true).
  unfold Math.isNaN, is_nan.
  by destruct (z =? z)%float.
Qed.

Lemma strict_eq_truthy (a b : jsval) :
  truthy a = true → strict_eq a b = true → a = b.
Proof.
  destruct a as [|r|z|s|c|o], b as [|r'|z'|s'|c'|o']; simpl; try done;
    try (intros _ ?%bool_decide_eq_true; congruence).
  intros Hz Hzz'. f_equal. apply float_eqb_eq; [done|].
  by destruct (Math.isNaN z), (z =? 0)%float.
Qed.

Lemma toValue_ofValue (v : value) : toValue (ofValue v) = v.
Proof. by destruct v. Qed.

Lemma ofValue_inj (a b : value) : ofValue a = ofValue b → a = b.
Proof. destruct a, b; simpl; congruence. Qed.

(** A field of a node object is no node. *)
Lemma GraphNode_own_foreign (n : GraphNode.t) (r : ref) (key : string)
    (j : jsval) :
  GraphNode_own n r key = Some j → foreign j.
Proof.
  unfold GraphNode_own. intros H [v|]; repeat case_decide; naive_solver.
Qed.

(** What [Object.prototype] gives is no node either, but for the
    prototype that the getter of [__proto__] answers with. *)
Lemma Object_prototype_get_foreign (p : jsval) (key : string) :
  key ≠ "__proto__" → ∀ r, Object_prototype_get p key ≠ JNode r.
Proof.
  intros Hkey r. unfold Object_prototype_get. by repeat case_decide.
Qed.

(** When a read of the dictionary finds a node: under a key of the
    dictionary's own, or as its prototype under [__proto__]. *)
Lemma dictionary_get_node (h : list GraphNode.t) (d : Dictionary)
    (key : string) (r : ref) :
  own d !! "__proto__" = None →
  dictionary_get h d key = JNode r ↔
  own d !! key = Some r ∨ (key = "__proto__" ∧ prototype d = Some r).
Proof.
  intros Hown. unfold dictionary_get.
  destruct (own d !! key) as [r'|] eqn:Hkey.
  { split; [intros [= ->]; by left|]. intros [[= ->]|[-> _]]; [done|].
    congruence. }
  destruct (prototype d) as [r'|].
  - destruct (h !! r' ≫= λ n, GraphNode_own n r' key) as [j|] eqn:Hj.
    + destruct (h !! r') as [n|]; [|done]. simpl in Hj.
      pose proof (GraphNode_own_foreign _ _ _ _ Hj (Some r)) as Hf.
      assert (key ≠ "__proto__").
      { intros ->. unfold GraphNode_own in Hj. by repeat case_decide. }
      split; [intros ->; by destruct Hf|naive_solver].
    + destruct (decide (key = "__proto__")) as [->|Hne].
      * rewrite decide_False by done. unfold Object_prototype_get.
        rewrite decide_True by done. naive_solver.
      * split; [|naive_solver]. case_decide; [done|].
        intros Hg. by apply Object_prototype_get_foreign in Hg.
  - split; [|naive_solver]. unfold Object_prototype_get.
    by repeat case_decide.
Qed.

(** A read under a key of the dictionary's own. *)
Lemma dictionary_get_own (h : list GraphNode.t) (d : Dictionary)
    (key : string) (r : ref) :
  own d !! key = Some r → dictionary_get h d key = JNode r.
Proof. intros H. unfold dictionary_get. by rewrite H. Qed.

(** A read after a write: the node written is found under its key. *)
Lemma dictionary_get_set (h : list GraphNode.t) (d : Dictionary)
    (key : string) (r : ref) :
  own d !! "__proto__" = None →
  dictionary_get h (dictionary_set d key r) key = JNode r.
Proof.
  intros Hown. unfold dictionary_set. destruct (decide (key = "__proto__")) as [->|Hne].
  - apply dictionary_get_node; [done|]. by right.
  - apply dictionary_get_own. simpl. by rewrite lookup_insert_eq.
Qed.

(** A write under a key other than [__proto__] changes no read under
    another key. *)
Lemma dictionary_get_set_ne (h : list GraphNode.t) (d : Dictionary)
    (key key' : string) (r : ref) :
  key ≠ "__proto__" → key' ≠ key →
  dictionary_get h (dictionary_set d key r) key' = dictionary_get h d key'.
Proof.
  intros Hp Hne. unfold dictionary_set. rewrite decide_False by done.
  unfold dictionary_get. simpl. by rewrite lookup_insert_ne.
Qed.

(** A write changes no read under another key of the dictionary's
    own. *)
Lemma dictionary_get_set_own (h : list GraphNode.t) (d : Dictionary)
    (key key' : string) (r r' : ref) :
  key' ≠ key → own d !! key' = Some r' →
  dictionary_get h (dictionary_set d key r) key' = JNode r'.
Proof.
  intros Hne Hown. apply dictionary_get_own. unfold dictionary_set.
  case_decide; simpl; [done|]. by rewrite lookup_insert_ne.
Qed.

(** A read finds the same when objects are added to the heap, if the
    prototype of the dictionary is in the heap. *)
Lemma dictionary_get_app (h h' : list GraphNode.t) (d : Dictionary)
    (key : string) :
  from_option (λ r, r < length h) True (prototype d) →
  dictionary_get (h ++ h') d key = dictionary_get h d key.
Proof.
  intros Hp. unfold dictionary_get. destruct (prototype d) as [r|]; [|done].
  simpl in Hp. by rewrite lookup_app_l.
Qed.

(** A write under another key leaves the node that a read finds. *)
Lemma dictionary_get_set_node (h h' : list GraphNode.t) (d : Dictionary)
    (key key' : string) (r r' : ref) :
  own d !! "__proto__" = None → key' ≠ key →
  dictionary_get h d key' = JNode r' →
  dictionary_get h' (dictionary_set d key r) key' = JNode r'.
Proof.
  intros Hown Hne. rewrite dictionary_get_node by done. intros Hd.
  unfold dictionary_set. case_decide as Hkey; subst.
  - apply dictionary_get_node; [done|]. simpl. naive_solver.
  - apply dictionary_get_node; simpl.
    + by rewrite lookup_insert_ne.
    + rewrite lookup_insert_ne by done. naive_solver.
Qed.

(** * The store *)

Lemma includes_true {A} `{EqDecision A} (l : list A) (a : A) :
  includes l a = true ↔ a ∈ l.
Proof. unfold includes. apply bool_decide_eq_true. Qed.

Lemma includes_false {A} `{EqDecision A} (l : list A) (a : A) :
  includes l a = false ↔ a ∉ l.
Proof. unfold includes. apply bool_decide_eq_false. Qed.

Lemma wf_own_proto (w : World) :
  wf w → own (nodeDictionary (this w)) !! "__proto__" = None.
Proof.
  intros (_ & _ & Hdom & _). apply not_elem_of_dom. rewrite Hdom. set_solver.
Qed.

(** In a well-formed world the ids listed are those for which the
    dictionary gives a node. *)
Lemma wf_ids_dictionary (w : World) (i : string) :
  wf w → i ∈ nodeIds (this w) ↔ ∃ r, nodeDictionary_get w i = JNode r.
Proof.
  intros Hwf. pose proof (wf_own_proto _ Hwf) as Hown.
  destruct Hwf as (_ & _ & Hdom & _ & _ & Hproto & _).
  unfold nodeDictionary_get.
  setoid_rewrite (dictionary_get_node _ _ _ _ Hown).
  destruct (decide (i = "__proto__")) as [->|Hne].
  - rewrite Hproto, Hown. unfold is_Some. naive_solver.
  - assert (Hi : i ∈ nodeIds (this w) ↔
                 i ∈ dom (own (nodeDictionary (this w)))).
    { rewrite Hdom. set_solver. }
    rewrite Hi, elem_of_dom. unfold is_Some. naive_solver.
Qed.

Lemma wf_get_allocated (w : World) (i : string) (r : ref) :
  wf w → nodeDictionary_get w i = JNode r → r < length (heap w).
Proof.
  intros Hwf. pose proof (wf_own_proto _ Hwf) as Hown.
  destruct Hwf as (_ & _ & _ & Hdict & _ & _ & Hp).
  unfold nodeDictionary_get. rewrite (dictionary_get_node _ _ _ _ Hown).
  intros [Hr|[_ Hr]]; [exact (Hdict _ _ Hr)|]. by rewrite Hr in Hp.
Qed.

Lemma wf_dictionary_allocated (w : World) (i : string) :
  wf w → i ∈ nodeIds (this w) →
  allocated (heap w) (toValue (nodeDictionary_get w i)).
Proof.
  intros Hwf Hin.
  apply (wf_ids_dictionary _ _ Hwf) in Hin as [r Hr].
  unfold allocated. rewrite Hr. simpl.
  apply lookup_lt_is_Some. by eapply wf_get_allocated.
Qed.

Lemma allocated_app (h h' : list GraphNode.t) (v : value) :
  allocated h v → allocated (h ++ h') v.
Proof.
  unfold allocated. destruct v as [r|]; simpl; [|done].
  rewrite !lookup_lt_is_Some, length_app. lia.
Qed.

Lemma wf_emptyGraph (c : Canvas) (rnd : nat → float) :
  wf (mkWorld [] (emptyGraph c) [] rnd 0 [] 0).
Proof.
  unfold wf, emptyGraph; simpl.
  split_and!; [constructor | constructor | set_solver
              | apply map_Forall_empty | constructor | | done].
  split; [by intros ?%elem_of_nil|by intros ?%is_Some_None].
Qed.

Lemma wf_newWorld (r : float) : wf (newWorld r).
Proof. apply wf_emptyGraph. Qed.

(** [addNode] keeps the invariant, whether it adds the node or throws. *)
Lemma addNode_wf (a : NodeArgs) (w : World) : wf w → wf (exec (addNode a) w).
Proof.
  intros Hwf. unfold exec, addNode, bind, get.
  destruct (includes (nodeIds (this w)) (arg_id a)) eqn:Hin; simpl; [done|].
  apply includes_false in Hin.
  destruct Hwf as (Hn & He & Hdom & Hdict & Hnd & Hproto & Hp).
  assert (Hp' : ∀ n, from_option (λ r, r < length (heap w ++ [n])) True
                       (prototype (dictionary_set (nodeDictionary (this w))
                                     (arg_id a) (length (heap w))))).
  { intros n. unfold dictionary_set. rewrite length_app. simpl.
    case_decide; simpl; [lia|].
    destruct (prototype (nodeDictionary (this w))); simpl in *; [lia|done]. }
  destruct (arg_x a), (arg_y a); simpl;
    (split_and!; simpl;
     [ rewrite Forall_app, Forall_singleton, length_app; simpl; split; [|lia];
       eapply Forall_impl; [exact Hn|]; simpl; lia
     | eapply Forall_impl; [exact He|]; simpl;
       intros e [? ?]; split; by apply allocated_app
     | unfold dictionary_set; case_decide; simpl;
       [ rewrite Hdom, list_to_set_app_L; simpl; set_solver
       | rewrite dom_insert_L, Hdom, list_to_set_app_L; simpl; set_solver ]
     | unfold dictionary_set; case_decide; simpl;
       [ eapply map_Forall_impl; [exact Hdict|]; simpl;
         intros; rewrite length_app; lia
       | apply map_Forall_insert_2;
         [ rewrite length_app; simpl; lia
         | eapply map_Forall_impl; [exact Hdict|]; simpl;
           intros; rewrite length_app; lia ] ]
     | apply NoDup_app; repeat split;
       [ done | intros x Hx ->%list_elem_of_singleton; done
       | apply NoDup_singleton ]
     | unfold dictionary_set; case_decide; simpl;
       [ split; [eauto|set_solver]
       | rewrite <- Hproto; set_solver ]
     | apply Hp' ]).
Qed.

Lemma addEdge_wf (s t : string) (w : World) : wf w → wf (exec (addEdge s t) w).
Proof.
  intros Hwf. unfold exec, addEdge, bind, get.
  destruct (includes (nodeIds (this w)) s) eqn:Hs; simpl; [|done].
  destruct (includes (nodeIds (this w)) t) eqn:Ht; simpl; [|done].
  apply includes_true in Hs, Ht.
  pose proof (wf_dictionary_allocated _ _ Hwf Hs).
  pose proof (wf_dictionary_allocated _ _ Hwf Ht).
  destruct Hwf as (Hn & He & Hdom & Hdict & Hnd & Hproto & Hp).
  split_and!; simpl; try done.
  rewrite Forall_app, Forall_singleton. done.
Qed.

Lemma deleteAllNodes_wf (w : World) : wf (exec deleteAllNodes w).
Proof.
  unfold wf, exec, deleteAllNodes; simpl.
  split_and!; [constructor | constructor | set_solver
              | apply map_Forall_empty | constructor | | done].
  split; [by intros ?%elem_of_nil|by intros ?%is_Some_None].
Qed.

(** Every world that the methods of the store build is well-formed. *)
Lemma built_wf (w : World) : built w → wf w.
Proof.
  induction 1 as [c rnd|a w _ IH|s t w _ IH|w _ _].
  - apply wf_emptyGraph.
  - by apply addNode_wf.
  - by apply addEdge_wf.
  - apply deleteAllNodes_wf.
Qed.

Lemma wf_singleNodeWorld : wf singleNodeWorld.
Proof. apply addNode_wf, wf_newWorld. Qed.

Lemma wf_pairWorld : wf pairWorld.
Proof. apply addEdge_wf, addNode_wf, wf_singleNodeWorld. Qed.

(** ** Adding a node twice, adding an edge between unknown nodes *)

(** C6.  [addNode] with an id that the store already lists throws the
    duplicate-node error and leaves the whole world as it was: the node
    array, the id list, the dictionary, the edges, and the heap, the
    console and the random source as well. *)
Theorem addNode_duplicate (a : NodeArgs) (w : World) :
  arg_id a ∈ nodeIds (this w) →
  addNode a w = (Throw DuplicateNodeError, w).
Proof.
  intros Hin%includes_true.
  unfold addNode, bind, get. rewrite Hin. reflexivity.
Qed.

Lemma addNode_duplicate_witness :
  let w := exec (addNode (justId "a")) (newWorld 0.5) in
  arg_id (justId "a") ∈ nodeIds (this w) ∧
  addNode (justId "a") w = (Throw DuplicateNodeError, w).
Proof.
  assert (H : arg_id (justId "a")
              ∈ nodeIds (this (exec (addNode (justId "a")) (newWorld 0.5)))).
  { vm_compute. apply list_elem_of_here. }
  split; [exact H | exact (addNode_duplicate _ _ H)].
Defined.

(** C7.  [addEdge] with a source or a target that the store does not
    list adds no edge and ends normally, without throwing: its only
    effect is one line written by [console.error], which names the
    source if that is unknown and the target otherwise.  The graph (node
    array, id list, dictionary, edges) and the heap are as before. *)
Theorem addEdge_unknown_endpoint (s t : string) (w : World) :
  s ∉ nodeIds (this w) ∨ t ∉ nodeIds (this w) →
  let unknown := if includes (nodeIds (this w)) s then t else s in
  addEdge s t w =
    (Normal tt, set_console (console w ++ [UnknownEndpointWarning unknown]) w) ∧
  this (exec (addEdge s t) w) = this w ∧
  edges (this (exec (addEdge s t) w)) = edges (this w) ∧
  heap (exec (addEdge s t) w) = heap w.
Proof.
  intros H. unfold exec, addEdge, bind, get.
  destruct (includes (nodeIds (this w)) s) eqn:Hs.
  - destruct (includes (nodeIds (this w)) t) eqn:Ht.
    + apply includes_true in Hs, Ht. tauto.
    + done.
  - done.
Qed.

Lemma addEdge_unknown_endpoint_witness :
  let w := exec (addNode (justId "a")) (newWorld 0.5) in
  ("a" ∉ nodeIds (this w) ∨ "zz" ∉ nodeIds (this w)) ∧
  addEdge "a" "zz" w =
    (Normal tt, set_console (console w ++ [UnknownEndpointWarning "zz"]) w) ∧
  edges (this (exec (addEdge "a" "zz") w)) = edges (this w).
Proof.
  assert (H : "a" ∉ nodeIds (this (exec (addNode (justId "a")) (newWorld 0.5)))
              ∨ "zz" ∉ nodeIds (this (exec (addNode (justId "a")) (newWorld 0.5)))).
  { right. vm_compute. intros H. apply list_elem_of_singleton in H. discriminate H. }
  split; [exact H|].
  destruct (addEdge_unknown_endpoint "a" "zz" _ H) as (E & _ & He & _).
  split; [exact E | exact He].
Defined.

(** ** Degree *)

Lemma foldl_count {A} (f : A → bool) (l : list A) (n : nat) :
  foldl (λ c a, if f a then S c else c) n l = n + length (filter (λ a, f a = true) l).
Proof.
  revert n. induction l as [|a l IH]; intros n; simpl; [lia|].
  rewrite IH. rewrite filter_cons. destruct (f a) eqn:Hf.
  - rewrite decide_True by done. simpl. lia.
  - rewrite decide_False by (by intros ?). lia.
Qed.

Lemma degree_count (w : World) (nodeId : string) :
  degree w nodeId =
  length (filter (λ e, containsNode e (nodeDictionary_get w nodeId) = true)
                 (edges (this w))).
Proof. unfold degree. by rewrite foldl_count. Qed.

Lemma containsNode_spec (e : Edge) (j : jsval) :
  containsNode e j = true ↔ ofValue (source e) = j ∨ ofValue (target e) = j.
Proof.
  unfold containsNode. by rewrite orb_true_iff, !strict_eq_end.
Qed.

(** C3, as stated, fails: on the graph that has the node ["a"] and the
    single edge from ["a"] to ["a"], [degree] is 1, while counting the
    edge once per matching endpoint gives 2. *)
Lemma degree_self_loop_counterexample :
  (∃ r, nodeDictionary_get loopWorld "a" = JNode r) ∧
  degree loopWorld "a" = 1 ∧
  degreeByEndpoints loopWorld "a" = 2 ∧
  degree loopWorld "a" ≠ degreeByEndpoints loopWorld "a".
Proof.
  split_and!.
  - vm_compute. eauto.
  - vm_compute. reflexivity.
  - vm_compute. reflexivity.
  - vm_compute. discriminate.
Qed.

(** C3, amended.  [degree(id)] is the number of edges that have the node
    as their source or as their target, each such edge counted once: an
    edge from the node to itself adds 1 to the degree, since the two
    tests of [containsNode] are joined by a single "or".  The node is
    what the dictionary gives for the id; an edge from a node to itself
    adds 1 to the degree of the ids for which the dictionary gives that
    node, and nothing to the others. *)
Theorem degree_counts_incident_edges (w : World) (nodeId : string) :
  let node := nodeDictionary_get w nodeId in
  degree w nodeId =
    length (filter (λ e, ofValue (source e) = node ∨ ofValue (target e) = node)
                   (edges (this w))) ∧
  ∀ v : value,
    degree (set_this (set_edges (edges (this w) ++ [mkEdge v v]) (this w)) w)
           nodeId =
    if bool_decide (ofValue v = node) then S (degree w nodeId)
    else degree w nodeId.
Proof.
  intros node. split.
  - rewrite degree_count. f_equal. apply list_filter_iff.
    intros e. apply containsNode_spec.
  - intros v. rewrite !degree_count.
    change (nodeDictionary_get (set_this _ w) nodeId) with node.
    change (nodeDictionary_get w nodeId) with node. simpl.
    rewrite filter_app, length_app, filter_cons. case_bool_decide as Hv.
    + rewrite decide_True; [simpl; lia|]. apply containsNode_spec. by left.
    + rewrite decide_False; [simpl; lia|]. rewrite containsNode_spec. tauto.
Qed.

(** No end of an edge of a well-formed world is what the dictionary
    gives for an id that the store does not list. *)
Lemma degree_outside_ends (w : World) (nodeId : string) :
  wf w → (∀ r, nodeDictionary_get w nodeId ≠ JNode r) →
  degree w nodeId = 0.
Proof.
  intros Hwf Hid. rewrite degree_count.
  destruct Hwf as (_ & He & _).
  induction He as [|e l [Hs Ht] He IH]; [done|].
  rewrite filter_cons, decide_False; [done|].
  rewrite containsNode_spec. unfold allocated in *.
  destruct (source e) as [rs|]; [|by destruct Hs].
  destruct (target e) as [rt|]; [|by destruct Ht].
  simpl. intros [H|H]; by eapply Hid.
Qed.

(** C10.  In a well-formed world, [degree] of an id that the store does
    not list is 0: the dictionary has no node under the id (no entry of
    its own, and what a read finds through the prototype is no node),
    and every end of an edge is a node. *)
Theorem degree_unknown_id (w : World) (nodeId : string) :
  wf w → nodeId ∉ nodeIds (this w) →
  own (nodeDictionary (this w)) !! nodeId = None ∧
  (∀ r, nodeDictionary_get w nodeId ≠ JNode r) ∧
  degree w nodeId = 0.
Proof.
  intros Hwf Hid.
  assert (Hr : ∀ r, nodeDictionary_get w nodeId ≠ JNode r).
  { intros r Hr. apply Hid, wf_ids_dictionary; eauto. }
  split_and!; [|done|by apply degree_outside_ends].
  destruct (own (nodeDictionary (this w)) !! nodeId) as [r|] eqn:Hown; [|done].
  destruct (Hr r). by apply dictionary_get_own.
Qed.

Lemma degree_unknown_id_witness :
  wf loopWorld ∧ ("zz" ∉ nodeIds (this loopWorld)) ∧
  own (nodeDictionary (this loopWorld)) !! "zz" = None ∧
  degree loopWorld "zz" = 0.
Proof.
  assert (Hwf : wf loopWorld).
  { apply addEdge_wf, addNode_wf, wf_newWorld. }
  assert (Hid : "zz" ∉ nodeIds (this loopWorld)).
  { vm_compute. intros H. apply list_elem_of_singleton in H. discriminate H. }
  split; [exact Hwf|]. split; [exact Hid|].
  destruct (degree_unknown_id _ _ Hwf Hid) as (Ho & _ & Hd).
  split; [exact Ho | exact Hd].
Defined.

(** The example of the specification: in a cycle of four nodes every
    node has degree 2 and the average degree is 1.  Without nodes the
    average is 0 / 0. *)
Example averageDegree_example :
  map (degree cycleWorld) ["a"; "b"; "c"; "d"] = [2; 2; 2; 2] ∧
  averageDegree cycleWorld = 1%float ∧
  averageDegree (newWorld 0.5) = nan.
Proof. vm_compute. split_and!; reflexivity. Qed.

(** * Breadth-first search *)

Lemma nextLevelNodes_adjacent (edges : list Edge) (u v : value) :
  v ∈ nextLevelNodes edges u ↔ adjacent edges u v.
Proof.
  unfold nextLevelNodes, adjacent.
  rewrite elem_of_app, !list_elem_of_In, !in_map_iff. split.
  - intros [(e & <- & He)|(e & <- & He)];
      apply list_elem_of_In, list_elem_of_filter in He as [Hu He];
      exists e; eauto.
  - intros (e & He & [[Hu Hv]|[Hu Hv]]); [left|right];
      exists e; (split; [done|]);
      apply list_elem_of_In, list_elem_of_filter; done.
Qed.

Lemma adjacent_endpoints (edges : list Edge) (u v : value) :
  adjacent edges u v → v ∈ endpoints edges.
Proof.
  intros (e & He & H). unfold endpoints.
  rewrite elem_of_remove_dups, elem_of_app, !list_elem_of_In, !in_map_iff.
  apply list_elem_of_In in He.
  destruct H as [[_ <-]|[_ <-]]; [right|left]; eauto.
Qed.

(** What the loop over the next level does to the queue and to the
    covered list: it appends to both the nodes of the level that were
    not covered, each once, at the next depth. *)
Lemma enqueue_fold (d : nat) (l : list value) :
  ∀ (q : list QueueEntry) (c : list value),
  ∃ news,
    foldl (enqueue d) (q, c) l = (q ++ news, c ++ map node news) ∧
    Forall (λ x, depth x = d + 1 ∧ node x ∈ l ∧ node x ∉ c) news ∧
    (∀ v, v ∈ l → v ∈ c ++ map node news) ∧
    NoDup (map node news).
Proof.
  induction l as [|v l IH]; intros q c; cbn [foldl].
  { exists []. simpl. rewrite !app_nil_r.
    split_and!; [done|constructor|set_solver|constructor]. }
  unfold enqueue at 2. destruct (includes c v) eqn:Hin; simpl.
  - apply includes_true in Hin.
    destruct (IH q c) as (news & E & Hall & Hcov & Hnd).
    exists news. split_and!; [done| | |done].
    + eapply Forall_impl; [exact Hall|]. simpl. set_solver.
    + intros v' [->|Hv']%elem_of_cons; [set_solver|by apply Hcov].
  - apply includes_false in Hin.
    destruct (IH (q ++ [mkEntry v (d + 1)]) (c ++ [v]))
      as (news & E & Hall & Hcov & Hnd).
    exists (mkEntry v (d + 1) :: news). simpl.
    rewrite E, <- !app_assoc. simpl. split_and!; [done| | |].
    + constructor; [simpl; set_solver|].
      eapply Forall_impl; [exact Hall|]. simpl. set_solver.
    + intros v' [->|Hv']%elem_of_cons; [set_solver|].
      specialize (Hcov _ Hv'). set_solver.
    + constructor; [|done]. intros Hv.
      apply list_elem_of_In, in_map_iff in Hv as (x & Hx & Hxin).
      apply list_elem_of_In in Hxin.
      rewrite Forall_forall in Hall. destruct (Hall _ Hxin) as (_ & _ & Hnc).
      rewrite Hx in Hnc. set_solver.
Qed.

Lemma filter_ext_elem_of {A} (P Q : A → Prop) `{∀ x, Decision (P x)}
    `{∀ x, Decision (Q x)} (l : list A) :
  (∀ x, x ∈ l → P x ↔ Q x) → filter P l = filter Q l.
Proof.
  induction l as [|a l IH]; intros HPQ; [done|].
  rewrite !filter_cons.
  rewrite IH by (intros; apply HPQ; set_solver).
  destruct (decide (P a)) as [HP|HP].
  - rewrite decide_True; [done|]. apply HPQ; [set_solver|done].
  - rewrite decide_False; [done|]. intros HQ. apply HP, HPQ; [set_solver|done].
Qed.

(** Covering one more value of [U] leaves one less uncovered. *)
Lemma uncovered_cover (U c : list value) (v : value) :
  NoDup U → v ∈ U → v ∉ c →
  uncovered U (c ++ [v]) + 1 = uncovered U c.
Proof.
  unfold uncovered. induction 1 as [|u U Hu Hnd IH]; intros Hv Hc.
  { by apply elem_of_nil in Hv. }
  rewrite !filter_cons.
  destruct (decide (u = v)) as [->|Hne].
  - rewrite decide_False by set_solver. rewrite decide_True by done. simpl.
    rewrite Nat.add_1_r. f_equal. f_equal.
    apply filter_ext_elem_of. intros x Hx. set_solver.
  - assert (Hv' : v ∈ U) by set_solver.
    destruct (decide (u ∉ c)) as [Huc|Huc].
    + rewrite decide_True by set_solver. simpl. rewrite <- (IH Hv' Hc). lia.
    + rewrite decide_False by set_solver. by apply IH.
Qed.

Lemma uncovered_cover_all (U : list value) (news : list QueueEntry) :
  NoDup U →
  ∀ c, Forall (λ x, node x ∈ U ∧ node x ∉ c) news → NoDup (map node news) →
  uncovered U (c ++ map node news) + length news = uncovered U c.
Proof.
  intros HU. induction news as [|x news IH]; intros c Hall Hnd; cbn [map length].
  { by rewrite app_nil_r, Nat.add_0_r. }
  apply Forall_cons in Hall as [[HxU Hxc] Hall].
  apply NoDup_cons in Hnd as [Hx Hnd].
  rewrite cons_middle, (assoc_L (++)).
  rewrite <- (uncovered_cover U c (node x)) by done.
  rewrite <- (IH (c ++ [node x])); [lia| |done].
  rewrite Forall_forall in Hall. apply Forall_forall. intros y Hy.
  destruct (Hall _ Hy) as [? ?]. split; [done|].
  intros [?|Hy']%elem_of_app; [done|].
  apply list_elem_of_singleton in Hy'. apply Hx. rewrite <- Hy'.
  apply list_elem_of_In, in_map. by apply list_elem_of_In.
Qed.

Lemma length_endpoints (edges : list Edge) :
  length (endpoints edges) ≤ 2 * length edges.
Proof.
  unfold endpoints.
  assert (H : remove_dups (map source edges ++ map target edges)
              ⊆+ map source edges ++ map target edges).
  { apply NoDup_submseteq; [apply NoDup_remove_dups|].
    intros x. by rewrite elem_of_remove_dups. }
  apply submseteq_length in H.
  rewrite length_app, !length_map in H. lia.
Qed.

(** ** The search ends *)

(** The loop over the next level moves values from the uncovered ends
    of edges to the queue. *)
Lemma enqueue_fold_measure (edges : list Edge) (d : nat) (u : value)
    (q q' : list QueueEntry) (c c' : list value) :
  foldl (enqueue d) (q, c) (nextLevelNodes edges u) = (q', c') →
  length q' + uncovered (endpoints edges) c'
  = length q + uncovered (endpoints edges) c.
Proof.
  destruct (enqueue_fold d (nextLevelNodes edges u) q c)
    as (news & -> & Hall & _ & Hnd).
  intros [= <- <-]. rewrite length_app.
  rewrite <- (uncovered_cover_all (endpoints edges) news
                (NoDup_remove_dups _) c); [lia| |done].
  eapply Forall_impl; [exact Hall|]. simpl. intros x (_ & Hx & Hc).
  split; [|done].
  apply nextLevelNodes_adjacent in Hx. by eapply adjacent_endpoints.
Qed.

(** Every call takes one entry from the queue, and what it adds to the
    queue it adds to the covered values: with more fuel than there are
    entries in the queue and uncovered ends of edges, the search gives
    an answer. *)
Lemma searchBetween_ends (edges : list Edge) (endNode : value) (fuel : nat) :
  ∀ (queue : list QueueEntry) (covered : list value),
  length queue + uncovered (endpoints edges) covered < fuel →
  is_Some (searchBetween fuel edges queue endNode covered).
Proof.
  induction fuel as [|fuel IH]; intros queue covered Hfuel; [lia|].
  simpl. destruct queue as [|current queue]; [done|].
  destruct (bool_decide (node current = endNode)); [done|].
  destruct (foldl _ _ _) as [q' c'] eqn:Hfold.
  apply enqueue_fold_measure in Hfold.
  apply IH. simpl in Hfuel. lia.
Qed.

Lemma connectedComponentMapBF_ends (edges : list Edge) (fuel : nat) :
  ∀ (queue : list QueueEntry) (covered : list value),
  length queue + uncovered (endpoints edges) covered < fuel →
  is_Some (connectedComponentMapBF fuel edges queue covered).
Proof.
  induction fuel as [|fuel IH]; intros queue covered Hfuel; [lia|].
  simpl. destruct queue as [|current queue]; [done|].
  destruct (foldl _ _ _) as [q' c'] eqn:Hfold.
  apply enqueue_fold_measure in Hfold.
  apply IH. simpl in Hfuel. lia.
Qed.

Lemma searchFuel_enough (edges : list Edge) (entry : QueueEntry) :
  length [entry] + uncovered (endpoints edges) [] < searchFuel edges.
Proof.
  unfold searchFuel, uncovered. cbn [length].
  match goal with
  | |- context [length (filter ?P ?l)] => pose proof (length_filter P l)
  end.
  pose proof (length_endpoints edges). lia.
Qed.

(** ** The search is right *)

Lemma levels_head (d : nat) (P rest : list QueueEntry) (x : QueueEntry) :
  levels d P (x :: rest) →
  (depth x = d ∨ depth x = S d) ∧
  (∀ y, y ∈ x :: rest → depth x ≤ depth y ∧ depth y ≤ S d) ∧
  (∀ p, p ∈ P → depth p ≤ d).
Proof.
  intros (qa & qb & Hq & Ha & Hb & HP).
  rewrite Forall_forall in Ha, Hb, HP.
  split_and!; [| |done].
  - destruct qa as [|a qa]; simpl in Hq.
    + right. apply Hb. rewrite <- Hq. set_solver.
    + left. injection Hq as <- _. apply Ha. set_solver.
  - intros y Hy. rewrite Hq in Hy.
    destruct qa as [|a qa]; simpl in Hq.
    + rewrite <- Hq in Hb. rewrite (Hb x), (Hb y) by set_solver. lia.
    + injection Hq as <- Hrest. rewrite (Ha x) by set_solver.
      apply elem_of_app in Hy as [Hy|Hy];
        [rewrite (Ha y Hy)|rewrite (Hb y Hy)]; lia.
Qed.

Lemma levels_step (d : nat) (P rest news : list QueueEntry) (x : QueueEntry) :
  levels d P (x :: rest) →
  Forall (λ y, depth y = depth x + 1) news →
  ∃ d', levels d' (P ++ [x]) (rest ++ news).
Proof.
  intros (qa & qb & Hq & Ha & Hb & HP) Hnews.
  destruct qa as [|a qa]; simpl in Hq.
  - subst qb. apply Forall_cons in Hb as [Hx Hb].
    exists (S d), rest, news. split_and!; [done|done| |].
    + eapply Forall_impl; [exact Hnews|]. simpl. intros y ->. lia.
    + rewrite Forall_app, Forall_singleton. split; [|lia].
      eapply Forall_impl; [exact HP|]. simpl. lia.
  - injection Hq as <- ->. apply Forall_cons in Ha as [Hx Ha].
    exists d, qa, (qb ++ news). split_and!; [by rewrite <- app_assoc|done| |].
    + rewrite Forall_app. split; [done|].
      eapply Forall_impl; [exact Hnews|]. simpl. intros y ->. lia.
    + rewrite Forall_app, Forall_singleton. split; [done|lia].
Qed.

Section Search.

Variables (edges : list Edge) (s e : value).

Lemma search_inv_start : search_inv edges s e [] [mkEntry s 0] [].
Proof.
  split.
  - intros x Hx%list_elem_of_singleton. subst x. simpl. constructor.
  - exists 0, [mkEntry s 0], []. split_and!; by repeat constructor.
  - intros v Hv. by apply elem_of_nil in Hv.
  - intros p Hp. by apply elem_of_nil in Hp.
  - exists (mkEntry s 0). set_solver.
  - intros p v Hp. by apply elem_of_nil in Hp.
Qed.

Lemma search_inv_step (P rest : list QueueEntry) (c : list value)
    (x : QueueEntry) (q' : list QueueEntry) (c' : list value) :
  search_inv edges s e P (x :: rest) c → node x ≠ e →
  foldl (enqueue (depth x)) (rest, c) (nextLevelNodes edges (node x)) = (q', c') →
  search_inv edges s e (P ++ [x]) q' c'.
Proof.
  intros [Hwalk [d Hlev] Hcov Hend Hstart Hadj] Hx Hfold.
  destruct (enqueue_fold (depth x) (nextLevelNodes edges (node x)) rest c)
    as (news & E & Hnews & Hall & _).
  rewrite E in Hfold. injection Hfold as <- <-.
  rewrite Forall_forall in Hnews.
  assert (Hsub : ∀ y, y ∈ P ++ x :: rest → y ∈ (P ++ [x]) ++ rest ++ news).
  { set_solver. }
  destruct (levels_head _ _ _ _ Hlev) as (Hdx & Hq & HP).
  split.
  - intros y [Hy|Hy]%elem_of_app; [apply Hwalk; set_solver|].
    destruct (Hnews _ Hy) as (Hd & Hn & _). rewrite Hd, Nat.add_1_r.
    eapply walk_hop; [apply Hwalk; set_solver|].
    by apply nextLevelNodes_adjacent.
  - eapply levels_step; [exact Hlev|].
    apply Forall_forall. intros y Hy. by destruct (Hnews _ Hy).
  - intros v [Hv|Hv]%elem_of_app.
    + destruct (Hcov _ Hv) as (y & Hy & <-). eauto.
    + apply list_elem_of_In, in_map_iff in Hv as (y & <- & Hy).
      apply list_elem_of_In in Hy. exists y. set_solver.
  - intros p [Hp|Hp%list_elem_of_singleton]%elem_of_app;
      [by apply Hend|by subst p].
  - destruct Hstart as (y & Hy & ?). eauto.
  - intros p v [Hp|Hp%list_elem_of_singleton]%elem_of_app Hv.
    + destruct (Hadj _ _ Hp Hv) as (y & Hy & ?). eauto.
    + subst p. apply nextLevelNodes_adjacent, Hall, elem_of_app in Hv as [Hv|Hv].
      * destruct (Hcov _ Hv) as (y & Hy & <-). exists y.
        split_and!; [by apply Hsub|done|].
        apply elem_of_app in Hy as [Hy|Hy].
        -- specialize (HP _ Hy). lia.
        -- destruct (Hq _ Hy). lia.
      * apply list_elem_of_In, in_map_iff in Hv as (y & <- & Hy).
        apply list_elem_of_In in Hy. exists y.
        destruct (Hnews _ Hy) as (Hd & _). split_and!; [set_solver|done|lia].
Qed.

(** Whatever is reached in [n] hops has an entry of depth at most [n],
    unless an entry of depth less than [n] is still in the queue. *)
Lemma search_inv_reach (P q : list QueueEntry) (c : list value) :
  search_inv edges s e P q c → ∀ n v, walk edges s n v →
  (∃ y, y ∈ P ++ q ∧ node y = v ∧ depth y ≤ n) ∨ (∃ y, y ∈ q ∧ depth y < n).
Proof.
  intros [Hwalk Hlev Hcov Hend Hstart Hadj] n v Hw.
  induction Hw as [|n u v Hw IH Huv].
  - left. destruct Hstart as (y & Hy & Hys & Hy0).
    exists y. split_and!; [done..|lia].
  - destruct IH as [(y & Hy & <- & Hd)|(y & Hy & Hd)].
    + apply elem_of_app in Hy as [Hy|Hy].
      * left. destruct (Hadj _ _ Hy Huv) as (z & Hz & ? & ?).
        exists z. split_and!; [done..|lia].
      * right. exists y. split; [done|lia].
    + right. exists y. split; [done|lia].
Qed.

Lemma search_found (P rest : list QueueEntry) (c : list value) (x : QueueEntry) :
  search_inv edges s e P (x :: rest) c → node x = e → distance edges s e (depth x).
Proof.
  intros Hinv Hx. pose proof Hinv as [Hwalk [d Hlev] _ Hend _ _].
  destruct (levels_head _ _ _ _ Hlev) as (_ & Hq & _).
  split.
  - rewrite <- Hx. apply Hwalk. set_solver.
  - intros n Hn.
    destruct (search_inv_reach _ _ _ Hinv _ _ Hn)
      as [(y & Hy & Hye & Hd)|(y & Hy & Hd)].
    + apply elem_of_app in Hy as [Hy|Hy]; [by destruct (Hend _ Hy)|].
      destruct (Hq _ Hy). lia.
    + destruct (Hq _ Hy). lia.
Qed.

Lemma search_exhausted (P : list QueueEntry) (c : list value) :
  search_inv edges s e P [] c → ¬ reachable edges s e.
Proof.
  intros Hinv [n Hn]. pose proof Hinv as [_ _ _ Hend _ _].
  destruct (search_inv_reach _ _ _ Hinv _ _ Hn)
    as [(y & Hy & Hye & Hd)|(y & Hy & Hd)].
  - rewrite app_nil_r in Hy. by destruct (Hend _ Hy).
  - by apply elem_of_nil in Hy.
Qed.

(** An answer of the search is the distance to [e], and the search
    throws only when [e] is not reachable. *)
Lemma searchBetween_sound (fuel : nat) :
  ∀ (P q : list QueueEntry) (c : list value) (r : completion nat),
  search_inv edges s e P q c →
  searchBetween fuel edges q e c = Some r →
  match r with
  | Normal d => distance edges s e d
  | Throw m => m = PathNotFoundError ∧ ¬ reachable edges s e
  end.
Proof.
  induction fuel as [|fuel IH]; intros P q c r Hinv; simpl; [done|].
  destruct q as [|x rest].
  { intros [= <-]. split; [done|]. by eapply search_exhausted. }
  case_bool_decide as Hx.
  { intros [= <-]. by eapply search_found. }
  destruct (foldl _ _ _) as [q' c'] eqn:Hfold.
  apply (IH (P ++ [x])). by eapply search_inv_step.
Qed.

End Search.

(** ** Shortest paths *)

Lemma distance_unique (edges : list Edge) (s e : value) (d d' : nat) :
  distance edges s e d → distance edges s e d' → d = d'.
Proof.
  intros [Hw Hmin] [Hw' Hmin'].
  specialize (Hmin _ Hw'). specialize (Hmin' _ Hw). lia.
Qed.

(** The search that [shortestPath] starts gives an answer, and the
    answer is right. *)
Lemma searchBetween_from_start (edges : list Edge) (s e : value) :
  ∃ r, searchBetween (searchFuel edges) edges [mkEntry s 0] e [] = Some r ∧
       match r with
       | Normal d => distance edges s e d
       | Throw m => m = PathNotFoundError ∧ ¬ reachable edges s e
       end.
Proof.
  destruct (searchBetween_ends edges e (searchFuel edges) [mkEntry s 0] [])
    as [r Hr]; [apply searchFuel_enough|].
  exists r. split; [done|].
  eapply searchBetween_sound; [apply search_inv_start|exact Hr].
Qed.

(** *** The search of [shortestPath] and the search between two nodes *)

Lemma List_filter_decide {A} (f : A → bool) (P : A → Prop)
    `{∀ x, Decision (P x)} (l : list A) :
  (∀ x, f x = true ↔ P x) → List.filter f l = filter P l.
Proof.
  intros HfP. induction l as [|a l IH]; [done|].
  simpl. rewrite filter_cons, IH. destruct (f a) eqn:Hf.
  - rewrite decide_True; [done|]. by apply HfP.
  - rewrite decide_False; [done|]. rewrite <- HfP. congruence.
Qed.

Lemma nextLevelNodesOf_ofValue (edges : list Edge) (v : value) :
  nextLevelNodesOf edges (ofValue v) = nextLevelNodes edges v.
Proof.
  unfold nextLevelNodesOf, nextLevelNodes.
  rewrite (List_filter_decide _ (λ e, source e = v)),
          (List_filter_decide _ (λ e, target e = v)); [done|..];
    intros e; rewrite strict_eq_end; split;
    [apply ofValue_inj|congruence|apply ofValue_inj|congruence].
Qed.

Lemma List_filter_none {A} (f : A → bool) (l : list A) :
  (∀ x, f x = false) → List.filter f l = [].
Proof.
  intros Hf. induction l as [|a l IH]; [done|]. simpl. by rewrite Hf.
Qed.

(** No edge ends at a value that is neither a node nor [undefined]. *)
Lemma nextLevelNodesOf_foreign (edges : list Edge) (j : jsval) :
  foreign j → nextLevelNodesOf edges j = [].
Proof.
  intros Hj. unfold nextLevelNodesOf.
  by rewrite !List_filter_none by (intros e; by apply strict_eq_foreign).
Qed.

Lemma enqueueOf_fold (d : nat) (l : list value) :
  ∀ (q : list QueueEntry) (c : list value),
  foldl (enqueueOf d) (map entryOf q, c) l =
    (map entryOf (foldl (enqueue d) (q, c) l).1,
     (foldl (enqueue d) (q, c) l).2).
Proof.
  induction l as [|v l IH]; intros q c; cbn [foldl]; [done|].
  unfold enqueueOf at 2, enqueue at 2 4. destruct (includes c v); simpl.
  - apply IH.
  - rewrite <- IH. by rewrite map_app.
Qed.

(** Between two values that are nodes or [undefined], the search of
    [shortestPath] is the search in which [===] is equality. *)
Lemma breadthFirstSearch_between (edges : list Edge) (e : value) (fuel : nat) :
  ∀ (q : list QueueEntry) (c : list value),
  breadthFirstSearch fuel edges (map entryOf q) (ofValue e) c
  = searchBetween fuel edges q e c.
Proof.
  induction fuel as [|fuel IH]; intros q c; [done|].
  destruct q as [|x q]; [done|]. cbn [map breadthFirstSearch searchBetween].
  cbn [entryOf node depth]. rewrite strict_eq_ofValue.
  case_bool_decide; [done|].
  rewrite nextLevelNodesOf_ofValue, enqueueOf_fold.
  destruct (foldl (enqueue _) _ _) as [q' c']. apply IH.
Qed.

(** A search for a value that is neither a node nor [undefined] goes
    through what can be reached from the queue and finds no path. *)
Lemma breadthFirstSearch_foreign_end (edges : list Edge) (endNode : jsval)
    (fuel : nat) :
  foreign endNode →
  ∀ (q : list QueueEntry) (c : list value),
  length q + uncovered (endpoints edges) c < fuel →
  breadthFirstSearch fuel edges (map entryOf q) endNode c
  = Some (Throw PathNotFoundError).
Proof.
  intros He. induction fuel as [|fuel IH]; intros q c Hfuel; [lia|].
  destruct q as [|x q]; [done|]. cbn [map breadthFirstSearch].
  cbn [entryOf node depth]. rewrite strict_eq_foreign by done.
  rewrite nextLevelNodesOf_ofValue, enqueueOf_fold.
  destruct (foldl (enqueue _) _ _) as [q' c'] eqn:Hfold.
  apply enqueue_fold_measure in Hfold. apply IH. simpl in *. lia.
Qed.

(** A search from a value that is neither a node nor [undefined] has
    nowhere to go. *)
Lemma breadthFirstSearch_foreign_start (edges : list Edge)
    (startNode endNode : jsval) (fuel : nat) :
  foreign startNode →
  breadthFirstSearch (S (S fuel)) edges [mkEntry startNode 0] endNode []
  = Some (if strict_eq startNode endNode then Normal 0
          else Throw PathNotFoundError).
Proof.
  intros Hs. cbn [breadthFirstSearch node depth].
  destruct (strict_eq startNode endNode); [done|].
  by rewrite nextLevelNodesOf_foreign.
Qed.

Lemma truthy_cases (j : jsval) :
  truthy j = true → (∃ r, j = JNode r) ∨ foreign j.
Proof.
  destruct j; try done; [eauto|right; by intros [?|]..].
Qed.

(** What [shortestPath] answers: the node-not-found error when one of
    the two reads of the dictionary gives a value that counts as false;
    what the search between two nodes answers, when both give a node;
    and otherwise, when a read gives another value through the prototype
    chain, 0 if the two values are the same and the path-not-found error
    if they are not. *)
Lemma shortestPath_cases (w : World) (startId endId : string) :
  let startNode := nodeDictionary_get w startId in
  let endNode := nodeDictionary_get w endId in
  shortestPath w startId endId =
    if negb (truthy startNode) || negb (truthy endNode)
    then Some (Throw NodeNotFoundError)
    else match startNode, endNode with
         | JNode a, JNode b =>
             searchBetween (searchFuel (edges (this w))) (edges (this w))
                           [mkEntry (Some a) 0] (Some b) []
         | _, _ => Some (if strict_eq startNode endNode then Normal 0
                         else Throw PathNotFoundError)
         end.
Proof.
  intros startNode endNode. unfold shortestPath.
  fold startNode endNode. clearbody startNode endNode.
  destruct (truthy startNode) eqn:Hs; [|done].
  destruct (truthy endNode) eqn:He; [|done]. cbn [negb orb].
  apply truthy_cases in Hs as [[a Ha]|Hs], He as [[b Hb]|He].
  - rewrite Ha, Hb.
    apply (breadthFirstSearch_between _ (Some b) _ [mkEntry (Some a) 0]).
  - rewrite Ha.
    rewrite (breadthFirstSearch_foreign_end _ _ _ He [mkEntry (Some a) 0])
      by apply searchFuel_enough.
    rewrite (strict_eq_foreign (Some a)) by done.
    destruct endNode as [|r| | | |]; try done. by destruct (He (Some r)).
  - replace (searchFuel (edges (this w)))
      with (S (S (2 * length (edges (this w)) + 1)))
      by (unfold searchFuel; lia).
    rewrite breadthFirstSearch_foreign_start by done.
    destruct startNode as [|r| | | |]; try done. by destruct (Hs (Some r)).
  - replace (searchFuel (edges (this w)))
      with (S (S (2 * length (edges (this w)) + 1)))
      by (unfold searchFuel; lia).
    rewrite breadthFirstSearch_foreign_start by done.
    destruct startNode as [|r| | | |]; try done. by destruct (Hs (Some r)).
Qed.

(** What [shortestPath] answers between two ids for which the
    dictionary gives a node: there is an answer, and it is the distance
    or, when there is no walk, the error. *)
Lemma shortestPath_listed (w : World) (s t : string) (a b : ref) :
  nodeDictionary_get w s = JNode a → nodeDictionary_get w t = JNode b →
  ∃ r, shortestPath w s t = Some r ∧
       match r with
       | Normal d => distance (edges (this w)) (Some a) (Some b) d
       | Throw m => m = PathNotFoundError ∧
                    ¬ reachable (edges (this w)) (Some a) (Some b)
       end.
Proof.
  intros Ha Hb. rewrite shortestPath_cases, Ha, Hb. cbn [truthy negb orb].
  apply searchBetween_from_start.
Qed.

(** C5.  The specification asks for the node-not-found error whenever
    one of the two ids is absent from the store, and the message of
    that error says the same: a path is calculated between two nodes of
    the network only.  [shortestPath] decides it by reading
    [nodeDictionary], a plain object, so an absent id that names a
    property which every object inherits passes the test.  In the store
    with the nodes A, B, C and D and the edges A - B and B - C, which
    lists neither ["toString"] nor ["constructor"], [shortestPath]
    answers 0 from ["toString"] to ["toString"] and throws the
    path-not-found error from ["A"] to ["constructor"]; for the absent
    id ["Z"] it throws the node-not-found error, as specified.
    [addEdge], which tests the id list, takes ["toString"] for the
    absent id that it is. *)
Theorem shortestPath_inherited_id :
  built pathWorld ∧
  ("toString" ∉ nodeIds (this pathWorld)) ∧
  ("constructor" ∉ nodeIds (this pathWorld)) ∧
  shortestPath pathWorld "toString" "toString" = Some (Normal 0) ∧
  shortestPath pathWorld "A" "constructor" = Some (Throw PathNotFoundError) ∧
  shortestPath pathWorld "A" "Z" = Some (Throw NodeNotFoundError) ∧
  console (exec (addEdge "toString" "toString") pathWorld)
  = [UnknownEndpointWarning "toString"].
Proof.
  split_and!.
  - repeat constructor.
  - apply includes_false. vm_compute. reflexivity.
  - apply includes_false. vm_compute. reflexivity.
  - vm_compute. reflexivity.
  - vm_compute. reflexivity.
  - vm_compute. reflexivity.
  - vm_compute. reflexivity.
Qed.

(** The examples of the specification. *)
Example shortestPath_examples :
  shortestPath pathWorld "A" "C" = Some (Normal 2) ∧
  shortestPath pathWorld "A" "A" = Some (Normal 0) ∧
  shortestPath pathWorld "A" "D" = Some (Throw PathNotFoundError) ∧
  shortestPath pathWorld "A" "Z" = Some (Throw NodeNotFoundError).
Proof. vm_compute. split_and!; reflexivity. Qed.

(** ** Connected components *)

(** One call of the search keeps the invariant. *)
Lemma component_inv_step (edges : list Edge) (s : value)
    (P rest : list QueueEntry) (c : list value) (x : QueueEntry)
    (q' : list QueueEntry) (c' : list value) :
  component_inv edges s P (x :: rest) c →
  foldl (enqueue (depth x)) (rest, c) (nextLevelNodes edges (node x)) = (q', c') →
  component_inv edges s (P ++ [x]) q' c'.
Proof.
  intros [Hcov Hq Hadj Hent Hstart Hnd] Hfold.
  destruct (enqueue_fold (depth x) (nextLevelNodes edges (node x)) rest c)
    as (news & E & Hnews & Hall & Hnd').
  rewrite E in Hfold. injection Hfold as <- <-.
  rewrite Forall_forall in Hnews.
  assert (Hsub : ∀ y, y ∈ P ++ x :: rest → y ∈ (P ++ [x]) ++ rest ++ news).
  { set_solver. }
  assert (Hx : reachable edges s (node x)) by (apply Hq; set_solver).
  assert (Hnew : ∀ y, y ∈ news → ∃ n, walk edges s (S n) (node y)).
  { intros y Hy. destruct (Hnews _ Hy) as (_ & Hy' & _).
    destruct Hx as [n Hn]. exists n.
    eapply walk_hop; [exact Hn|]. by apply nextLevelNodes_adjacent. }
  split.
  - intros v [Hv|Hv]%elem_of_app; [by apply Hcov|].
    apply list_elem_of_In, in_map_iff in Hv as (y & <- & Hy).
    apply list_elem_of_In in Hy. by apply Hnew.
  - intros y Hy.
    assert (Hy' : y ∈ P ++ x :: rest ∨ y ∈ news) by set_solver.
    destruct Hy' as [Hy'|Hy']; [by apply Hq|].
    destruct (Hnew _ Hy') as [n Hn]. by exists (S n).
  - intros p v [Hp|Hp%list_elem_of_singleton]%elem_of_app Hv.
    + apply elem_of_app. left. by eapply Hadj.
    + subst p. by apply Hall, nextLevelNodes_adjacent.
  - intros v [Hv|Hv]%elem_of_app.
    + destruct (Hent _ Hv) as (y & Hy & <-). eauto.
    + apply list_elem_of_In, in_map_iff in Hv as (y & <- & Hy).
      apply list_elem_of_In in Hy. exists y. set_solver.
  - destruct Hstart as (y & Hy & ?). eauto.
  - apply NoDup_app. split_and!; [done| |done].
    intros v Hv Hv'.
    apply list_elem_of_In, in_map_iff in Hv' as (y & <- & Hy).
    apply list_elem_of_In in Hy. by destruct (Hnews _ Hy) as (_ & _ & ?).
Qed.

Lemma connectedComponentMapBF_sound (edges : list Edge) (s : value) (fuel : nat) :
  ∀ (P q : list QueueEntry) (c r : list value),
  component_inv edges s P q c →
  connectedComponentMapBF fuel edges q c = Some r →
  NoDup r ∧ ∀ v, v ∈ r ↔ ∃ n, walk edges s (S n) v.
Proof.
  induction fuel as [|fuel IH]; intros P q c r Hinv; simpl; [done|].
  destruct q as [|x rest].
  - intros [= <-]. destruct Hinv as [Hcov _ Hadj Hent Hstart Hnd].
    rewrite app_nil_r in *. split; [done|]. intros v. split; [by apply Hcov|].
    intros [n Hn]. remember (S n) as m eqn:Hm. revert n Hm.
    induction Hn as [|m u v Hu IHu Huv]; intros n Hm; [done|].
    injection Hm as ->. destruct n as [|n].
    + inversion Hu; subst. destruct Hstart as (y & Hy & <-). by eapply Hadj.
    + destruct (Hent u) as (y & Hy & <-); [by eapply IHu|]. by eapply Hadj.
  - destruct (foldl _ _ _) as [q' c'] eqn:Hfold.
    apply (IH (P ++ [x])). by eapply component_inv_step.
Qed.

(** What [connectedComponentMapBF] returns when it is started as
    [findLargestComponent] starts it, with the origin in the queue and
    nothing covered: the nodes reached from the origin in one hop or
    more, each once.  The origin itself is among them only if it has a
    neighbour. *)
Lemma connectedComponentMapBF_from_origin (edges : list Edge) (s : value) :
  ∃ r, connectedComponentMapBF (searchFuel edges) edges [mkEntry s 0] [] = Some r ∧
       NoDup r ∧ ∀ v, v ∈ r ↔ ∃ n, walk edges s (S n) v.
Proof.
  destruct (connectedComponentMapBF_ends edges (searchFuel edges) [mkEntry s 0] [])
    as [r Hr]; [apply searchFuel_enough|].
  exists r. split; [done|].
  eapply (connectedComponentMapBF_sound edges s _ []); [|exact Hr].
  split.
  - intros v Hv. by apply elem_of_nil in Hv.
  - intros x Hx%list_elem_of_singleton. subst x. exists 0. constructor.
  - intros p v Hp. by apply elem_of_nil in Hp.
  - intros v Hv. by apply elem_of_nil in Hv.
  - exists (mkEntry s 0). set_solver.
  - constructor.
Qed.

(** C4 fails on the graph of one node and no edge.  The comment on
    [connectedComponentMapBF] asks for the origin to be passed in the
    queue and in the covered list; [findLargestComponent] passes an
    empty covered list.  The node has no neighbour that would cover it,
    so the component found for it is empty, and so is the result. *)
Theorem findLargestComponent_single_node :
  nodes (this singleNodeWorld) = [0] ∧
  edges (this singleNodeWorld) = [] ∧
  connectedComponentMapBF (searchFuel []) [] [mkEntry (Some 0) 0] [] = Some [] ∧
  findLargestComponent (this singleNodeWorld) = Some [].
Proof. vm_compute. split_and!; reflexivity. Qed.

(** Without edges every search for a component comes back empty, and so
    does [findLargestComponent], whatever the nodes are. *)
Lemma collectComponents_no_edges (nodes : list ref) :
  ∀ components,
  ∃ k, collectComponents [] nodes [] components = Some (components ++ repeat [] k).
Proof.
  induction nodes as [|r nodes IH]; intros components; simpl.
  - exists 0. by rewrite app_nil_r.
  - destruct (IH (components ++ [[]])) as [k Hk].
    exists (S k). rewrite Hk. by rewrite <- app_assoc.
Qed.

Lemma findLargestComponent_no_edges (g : Graph) :
  edges g = [] → findLargestComponent g = Some [].
Proof.
  intros He. unfold findLargestComponent. rewrite He.
  destruct (collectComponents_no_edges (nodes g) []) as [k ->]. simpl.
  f_equal. induction k as [|k IH]; [done|]. simpl. exact IH.
Qed.

(** The example of the specification: with components of sizes 1, 3
    and 2 the result is the component of three nodes. *)
Example findLargestComponent_example :
  nodeIds (this componentsWorld) = ["a"; "b"; "c"; "d"; "e"; "f"] ∧
  findLargestComponent (this componentsWorld) = Some [Some 2; Some 3; Some 1].
Proof. vm_compute. split; reflexivity. Qed.

(** * The network generator *)

Lemma nodeName_inj (nodePrefix : string) (i j : nat) :
  nodeName nodePrefix i = nodeName nodePrefix j → i = j.
Proof.
  unfold nodeName. intros H.
  apply (inj (String.app nodePrefix)) in H. by apply (inj pretty) in H.
Qed.

Lemma string_app_last (s1 s2 : string) (c c' : ascii) :
  s1 +:+ String c "" = s2 +:+ String c' "" → c = c'.
Proof.
  revert s2. induction s1 as [|a s1 IH]; intros [|b s2] H.
  - by injection H.
  - change (String c "" = String b (s2 +:+ String c' "")) in H.
    injection H as _ H. by destruct s2.
  - change (String a (s1 +:+ String c "") = String c' "") in H.
    injection H as _ H. by destruct s1.
  - change (String a (s1 +:+ String c "") = String b (s2 +:+ String c' ""))
      in H.
    injection H as _ H. by eapply IH.
Qed.

Lemma string_app_assoc (s1 s2 s3 : string) :
  s1 +:+ s2 +:+ s3 = (s1 +:+ s2) +:+ s3.
Proof.
  induction s1 as [|a s1 IH]; [done|].
  change (String a (s1 +:+ s2 +:+ s3) = String a ((s1 +:+ s2) +:+ s3)).
  by rewrite IH.
Qed.

(** The decimal numeral of a number ends in a digit. *)
Lemma pretty_N_go_last (x : N) (s : string) :
  (∃ s' c, s = s' +:+ String c "" ∧ c ≠ "_"%char) →
  ∃ s' c, pretty_N_go x s = s' +:+ String c "" ∧ c ≠ "_"%char.
Proof.
  revert s. induction (N.lt_wf_0 x) as [x _ IH]; intros s Hs.
  assert (x = 0 ∨ 0 < x)%N as [->|?] by lia.
  - by rewrite pretty_N_go_0.
  - rewrite pretty_N_go_step by done. apply IH; [by apply N.div_lt|].
    destruct Hs as (s' & c & -> & Hc).
    by exists (String (pretty_N_char (x `mod` 10)) s'), c.
Qed.

Lemma pretty_nat_last (i : nat) :
  ∃ s' c, pretty i = s' +:+ String c "" ∧ c ≠ "_"%char.
Proof.
  unfold pretty, pretty_nat, pretty, pretty_N. case_decide.
  - by exists "", "0"%char.
  - rewrite pretty_N_go_step by lia. apply pretty_N_go_last.
    exists "", (pretty_N_char (N.of_nat i `mod` 10)). split; [done|].
    unfold pretty_N_char. by repeat case_match.
Qed.

(** A generated name is not [__proto__]: it ends in a digit. *)
Lemma nodeName_not_proto (nodePrefix : string) (i : nat) :
  nodeName nodePrefix i ≠ "__proto__".
Proof.
  unfold nodeName. destruct (pretty_nat_last i) as (s' & c & -> & Hc).
  rewrite string_app_assoc. intros H. apply Hc.
  change "__proto__" with ("__proto_" +:+ String "_" "") in H.
  by apply string_app_last in H.
Qed.

Lemma length_completeEdges_from (a n m k : nat) :
  m + k = n →
  2 * length (flat_map (λ i, map (λ j, mkEdge (Some (a + i)) (Some (a + j)))
                                 (range (i + 1) n))
                       (seq m k)) = k * (k - 1).
Proof.
  revert m. induction k as [|k IH]; intros m Hn; [done|].
  cbn [seq flat_map]. rewrite length_app, length_map.
  unfold range at 1. rewrite length_seq.
  specialize (IH (S m)). nia.
Qed.

Lemma length_completeEdges (a n : nat) :
  2 * length (completeEdges a n) = n * (n - 1).
Proof.
  unfold completeEdges, range at 2. rewrite Nat.sub_0_r.
  by apply length_completeEdges_from.
Qed.

(** [addNode({ id: id })] with an id that the store does not list: two
    random numbers are drawn for the position, the node is put at a
    fresh address, and the three indexes of the store get it. *)
Lemma addNode_fresh (id : string) (w : World) :
  id ∉ nodeIds (this w) →
  ∃ n,
    addNode (justId id) w =
    (Normal (length (heap w)),
     set_this
       (set_nodeDictionary
          (dictionary_set (nodeDictionary (this w)) id (length (heap w)))
          (set_nodeIds (nodeIds (this w) ++ [id])
             (set_nodes (nodes (this w) ++ [length (heap w)]) (this w))))
       (set_heap (heap w ++ [n]) (set_drawn (S (S (drawn w))) w))).
Proof.
  intros Hid%includes_false. eexists.
  unfold addNode. rewrite (bind_normal get _ w w w) by done.
  cbn [justId arg_id arg_x arg_y]. rewrite Hid. cbn [negb]. reflexivity.
Qed.

(** The first loop of the generator, from the node numbered [m] on. *)
Lemma generateRandomNetwork_nodes (nodePrefix : string) (a k : nat) :
  ∀ (m : nat) (w : World),
  nodeIds (this w) = map (nodeName nodePrefix) (seq 0 m) →
  (∀ i, i < m →
        own (nodeDictionary (this w)) !! nodeName nodePrefix i = Some (a + i)) →
  length (heap w) = a + m →
  ∃ w',
    for_of (seq m k) (λ i,
      let* _ := addNode (justId (nodeName nodePrefix i)) in ret tt) w
    = (Normal tt, w') ∧
    nodeIds (this w') = map (nodeName nodePrefix) (seq 0 (m + k)) ∧
    (∀ i, i < m + k →
          own (nodeDictionary (this w')) !! nodeName nodePrefix i
          = Some (a + i)) ∧
    edges (this w') = edges (this w) ∧
    random w' = random w.
Proof.
  induction k as [|k IH]; intros m w Hids Hdict Hheap; cbn [seq for_of].
  { exists w. rewrite Nat.add_0_r. done. }
  assert (Hnew : nodeName nodePrefix m ∉ nodeIds (this w)).
  { rewrite Hids. intros Hin.
    apply list_elem_of_In, in_map_iff in Hin as (i & Hi & Hin).
    apply nodeName_inj in Hi. subst i. apply in_seq in Hin. lia. }
  destruct (addNode_fresh _ _ Hnew) as (n & E1).
  erewrite bind_normal; [|erewrite bind_normal by exact E1; reflexivity].
  match goal with
  | |- context [for_of (seq (S m) k) _ ?w0] =>
      destruct (IH (S m) w0) as (w' & E & Hids' & Hdict' & Hedges & Hrandom)
  end.
  - cbn [this set_this nodeIds set_nodeDictionary set_nodeIds].
    rewrite Hids, seq_S, map_app. done.
  - cbn [this set_this nodeDictionary set_nodeDictionary].
    unfold dictionary_set.
    rewrite decide_False by apply nodeName_not_proto. cbn [own].
    intros i Hi. destruct (decide (i = m)) as [->|Hne].
    + rewrite lookup_insert_eq. f_equal. lia.
    + rewrite lookup_insert_ne by (intros ?%nodeName_inj; done).
      apply Hdict. lia.
  - simpl. rewrite length_app. simpl. lia.
  - exists w'. rewrite <- Nat.add_succ_comm. split_and!; [|done..].
    exact E.
Qed.

Lemma addEdge_known (s t : string) (w : World) :
  s ∈ nodeIds (this w) → t ∈ nodeIds (this w) →
  addEdge s t w =
  (Normal tt,
   set_this (set_edges (edges (this w) ++
                        [mkEdge (toValue (nodeDictionary_get w s))
                                (toValue (nodeDictionary_get w t))]) (this w)) w).
Proof.
  intros Hs%includes_true Ht%includes_true.
  unfold addEdge. rewrite (bind_normal get _ w w w) by done.
  by rewrite Hs, Ht.
Qed.

Section Complete.

Variables (nodePrefix : string) (a n : nat) (p : float).

Lemma generated_known (w : World) (i : nat) :
  generated nodePrefix a n p w → i < n → nodeName nodePrefix i ∈ nodeIds (this w).
Proof.
  intros (-> & _) Hi. apply list_elem_of_In, in_map, in_seq. lia.
Qed.

(** The inner loop of the generator adds the edges from [i] to the
    nodes of [js]. *)
Lemma generateRandomNetwork_edges_from (i : nat) (js : list nat) :
  i < n → Forall (λ j, j < n) js →
  ∀ w, generated nodePrefix a n p w →
  ∃ w',
    for_of js (λ j,
      let* r := Math_random in
      if (r <=? p)%float
      then addEdge (nodeName nodePrefix i) (nodeName nodePrefix j)
      else ret tt) w
    = (Normal tt, w') ∧
    generated nodePrefix a n p w' ∧
    edges (this w') =
      edges (this w) ++ map (λ j, mkEdge (Some (a + i)) (Some (a + j))) js.
Proof.
  intros Hi. induction 1 as [|j js Hj _ IH]; intros w Hw; cbn [for_of map].
  { exists w. by rewrite app_nil_r. }
  pose proof Hw as (Hids & Hdict & Hrandom).
  pose (w1 := set_drawn (S (drawn w)) w).
  assert (Hw1 : generated nodePrefix a n p w1) by done.
  pose proof (addEdge_known _ _ w1 (generated_known _ _ Hw1 Hi)
                (generated_known _ _ Hw1 Hj)) as E1.
  match type of E1 with _ = (_, ?w0) =>
    destruct (IH w0) as (w' & E & Hw' & Hedges); [done|]
  end.
  exists w'. split_and!; [|done|].
  - erewrite bind_normal; [exact E|].
    step.
    rewrite Hrandom. exact E1.
  - rewrite Hedges. cbn [this set_this edges set_edges].
    rewrite <- app_assoc. do 2 f_equal. simpl.
    destruct Hw1 as (_ & Hdict1 & _). by rewrite !Hdict1.
Qed.

(** The outer loop adds them for every [i] of [rows]. *)
Lemma generateRandomNetwork_edges (rows : list nat) :
  Forall (λ i, i < n) rows →
  ∀ w, generated nodePrefix a n p w →
  ∃ w',
    for_of rows (λ i,
      for_of (range (i + 1) n) (λ j,
        let* r := Math_random in
        if (r <=? p)%float
        then addEdge (nodeName nodePrefix i) (nodeName nodePrefix j)
        else ret tt)) w
    = (Normal tt, w') ∧
    generated nodePrefix a n p w' ∧
    edges (this w') =
      edges (this w) ++
      flat_map (λ i, map (λ j, mkEdge (Some (a + i)) (Some (a + j)))
                         (range (i + 1) n)) rows.
Proof.
  induction 1 as [|i rows Hi _ IH]; intros w Hw; cbn [for_of flat_map].
  { exists w. by rewrite app_nil_r. }
  destruct (generateRandomNetwork_edges_from i (range (i + 1) n) Hi) with (w := w)
    as (w1 & E1 & Hw1 & Hedges1); [|done|].
  { apply Forall_forall. intros j Hj%list_elem_of_In%in_seq. lia. }
  destruct (IH w1 Hw1) as (w' & E & Hw' & Hedges).
  exists w'. split_and!; [|done|].
  - erewrite bind_normal; [exact E|exact E1].
  - by rewrite Hedges, Hedges1, <- app_assoc.
Qed.

End Complete.

(** With probability 1 the generator, started on a store without nodes
    and edges, ends normally with the [n] nodes named after their
    numbers and with the edges of the complete graph on them, one for
    every pair [i < j]: [n (n - 1) / 2] edges.  This holds whatever
    numbers below 1 the random source returns. *)
Lemma generateRandomNetwork_complete (n : nat) (nodePrefix : string) (w : World) :
  nodeIds (this w) = [] → edges (this w) = [] →
  (∀ k, (random w k <? 1)%float = true) →
  ∃ w',
    generateRandomNetwork n 1 nodePrefix w = (Normal tt, w') ∧
    nodeIds (this w') = map (nodeName nodePrefix) (seq 0 n) ∧
    edges (this w') = completeEdges (length (heap w)) n ∧
    2 * length (edges (this w')) = n * (n - 1).
Proof.
  intros Hids Hedges Hrandom. unfold generateRandomNetwork.
  destruct (generateRandomNetwork_nodes nodePrefix (length (heap w)) n 0 w)
    as (w1 & E1 & Hids1 & Hdict1 & Hedges1 & Hrandom1); [done|lia|lia|].
  assert (Hw1 : generated nodePrefix (length (heap w)) n 1 w1).
  { split_and!; [done| |].
    - intros i Hi. apply dictionary_get_own, Hdict1. lia.
    - intros k. rewrite Hrandom1. apply float_ltb_leb, Hrandom. }
  destruct (generateRandomNetwork_edges nodePrefix (length (heap w)) n 1
              (range 0 n)) with (w := w1) as (w' & E & Hw' & Hedges'); [|done|].
  { apply Forall_forall. intros i Hi%list_elem_of_In%in_seq. lia. }
  exists w'. split_and!.
  - unfold range at 1. rewrite Nat.sub_0_r.
    erewrite bind_normal; [exact E|exact E1].
  - apply Hw'.
  - rewrite Hedges', Hedges1, Hedges. done.
  - rewrite Hedges', Hedges1, Hedges. cbn [app].
    apply length_completeEdges.
Qed.

(** With a probability that no draw reaches, no edge is added. *)
Lemma generateRandomNetwork_no_edges (n : nat) (p : float) (nodePrefix : string)
    (w : World) :
  nodeIds (this w) = [] → edges (this w) = [] →
  (∀ k, (random w k <=? p)%float = false) →
  ∃ w', generateRandomNetwork n p nodePrefix w = (Normal tt, w') ∧
        edges (this w') = [].
Proof.
  intros Hids Hedges Hrandom. unfold generateRandomNetwork.
  destruct (generateRandomNetwork_nodes nodePrefix (length (heap w)) n 0 w)
    as (w1 & E1 & Hids1 & Hdict1 & Hedges1 & Hrandom1); [done|lia|lia|].
  rewrite <- Hrandom1 in Hrandom. rewrite Hedges in Hedges1.
  assert (Hinner : ∀ i js w2, random w2 = random w1 →
            ∃ w3, for_of js (λ j,
                    let* r := Math_random in
                    if (r <=? p)%float
                    then addEdge (nodeName nodePrefix i) (nodeName nodePrefix j)
                    else ret tt) w2 = (Normal tt, w3) ∧
                  random w3 = random w1 ∧ edges (this w3) = edges (this w2)).
  { intros i js. induction js as [|j js IH]; intros w2 Hr; cbn [for_of].
    { by exists w2. }
    destruct (IH (set_drawn (S (drawn w2)) w2)) as (w3 & E & ? & ?); [done|].
    exists w3. split_and!; [|done..].
    erewrite bind_normal; [exact E|].
    step. by rewrite Hr, Hrandom. }
  assert (Houter : ∀ rows w2, random w2 = random w1 →
            ∃ w3, for_of rows (λ i,
                    for_of (range (i + 1) n) (λ j,
                      let* r := Math_random in
                      if (r <=? p)%float
                      then addEdge (nodeName nodePrefix i) (nodeName nodePrefix j)
                      else ret tt)) w2 = (Normal tt, w3) ∧
                  random w3 = random w1 ∧ edges (this w3) = edges (this w2)).
  { intros rows. induction rows as [|i rows IH]; intros w2 Hr; cbn [for_of].
    { by exists w2. }
    destruct (Hinner i (range (i + 1) n) w2 Hr) as (w3 & E3 & Hr3 & He3).
    destruct (IH w3 Hr3) as (w4 & E4 & Hr4 & He4).
    exists w4. split_and!; [|done|congruence].
    erewrite bind_normal; [exact E4|exact E3]. }
  destruct (Houter (range 0 n) w1 eq_refl) as (w' & E & _ & He).
  exists w'. split; [|congruence].
  unfold range at 1. rewrite Nat.sub_0_r.
  erewrite bind_normal; [exact E|exact E1].
Qed.

(** C8 fails for [p = 0] when [Math.random] returns 0: the test is
    [Math.random() <= p], so the edge between the two nodes is added. *)
Theorem generateRandomNetwork_zero_probability :
  let w := exec (generateRandomNetwork 2 0 "n") (newWorld 0) in
  fst (generateRandomNetwork 2 0 "n" (newWorld 0)) = Normal tt ∧
  nodeIds (this w) = ["n0"; "n1"] ∧
  edges (this w) = [mkEdge (Some 0) (Some 1)] ∧
  length (edges (this w)) ≠ 0.
Proof. vm_compute. split_and!; [reflexivity..|discriminate]. Qed.

(** * The layout engine *)

(** ** Computations that only change the heap *)

Lemma set_heap_id (w : World) : set_heap (heap w) w = w.
Proof. by destruct w. Qed.

Lemma hoare_ret {A} (P : list GraphNode.t → Prop) (a : A)
    (Q : A → list GraphNode.t → Prop) :
  (∀ h, P h → Q a h) → hoare P (ret a) Q.
Proof.
  intros H w Hw. exists a, (heap w). rewrite set_heap_id. split; [done|eauto].
Qed.

Lemma hoare_bind {A B} (P : list GraphNode.t → Prop) (c : M A) (k : A → M B)
    (R : A → list GraphNode.t → Prop) (Q : B → list GraphNode.t → Prop) :
  hoare P c R → (∀ a, hoare (R a) (k a) Q) → hoare P (bind c k) Q.
Proof.
  intros Hc Hk w Hw. destruct (Hc w Hw) as (a & h1 & Hce & Hr).
  destruct (Hk a (set_heap h1 w) Hr) as (b & h2 & Hke & Hq).
  exists b, h2. unfold bind. rewrite Hce, Hke. done.
Qed.

Lemma hoare_conseq {A} (P P' : list GraphNode.t → Prop) (c : M A)
    (Q Q' : A → list GraphNode.t → Prop) :
  hoare P' c Q' → (∀ h, P h → P' h) → (∀ a h, Q' a h → Q a h) → hoare P c Q.
Proof.
  intros Hc HP HQ w Hw. destruct (Hc w (HP _ Hw)) as (a & h1 & ? & ?). eauto.
Qed.

Lemma hoare_for_of {A} (I : list A → list GraphNode.t → Prop) (l : list A)
    (body : A → M unit) :
  (∀ l1 a l2, l = l1 ++ a :: l2 →
     hoare (I l1) (body a) (λ _, I (l1 ++ [a]))) →
  hoare (I []) (for_of l body) (λ _, I l).
Proof.
  intros Hbody.
  enough (H : ∀ l2 l1, l = l1 ++ l2 → hoare (I l1) (for_of l2 body) (λ _, I l)).
  { by apply (H l []). }
  induction l2 as [|a l2 IH]; intros l1 Hl; simpl.
  - apply hoare_ret. intros h. rewrite app_nil_r in Hl. by subst l1.
  - eapply hoare_bind; [by apply (Hbody l1 a l2)|]. intros [].
    apply IH. by rewrite <- app_assoc.
Qed.

Lemma hoare_deref (P : list GraphNode.t → Prop) (v : value)
    (Q : GraphNode.t → list GraphNode.t → Prop) :
  (∀ h, P h → ∃ r n, v = Some r ∧ h !! r = Some n ∧ Q n h) →
  hoare P (deref v) Q.
Proof.
  intros H w Hw. destruct (H _ Hw) as (r & n & -> & Hn & Hq).
  exists n, (heap w). unfold deref. rewrite Hn, set_heap_id. done.
Qed.

Lemma hoare_update (P : list GraphNode.t → Prop) (v : value)
    (f : GraphNode.t → GraphNode.t) (Q : unit → list GraphNode.t → Prop) :
  (∀ h, P h → ∃ r n, v = Some r ∧ h !! r = Some n ∧ Q tt (<[r := f n]> h)) →
  hoare P (update v f) Q.
Proof.
  intros H w Hw. destruct (H _ Hw) as (r & n & -> & Hn & Hq).
  exists tt, (<[r := f n]> (heap w)).
  unfold update, bind, deref, modify. rewrite Hn. done.
Qed.

(** An invariant of a loop that does not depend on the part of the
    array already visited. *)
Lemma hoare_for_of_inv {A} (I : list GraphNode.t → Prop) (l : list A)
    (body : A → M unit) :
  (∀ a, a ∈ l → hoare I (body a) (λ _, I)) →
  hoare I (for_of l body) (λ _, I).
Proof.
  intros Hbody. apply (hoare_for_of (λ _, I)).
  intros l1 a l2 ->. apply Hbody. set_solver.
Qed.

(** ** The three loops of a pass keep the heap in shape *)

Lemma allocated_lookup (h : list GraphNode.t) (v : value) :
  allocated h v → ∃ r n, v = Some r ∧ h !! r = Some n.
Proof.
  unfold allocated. destruct v as [r|]; simpl; [|by intros []].
  intros [n Hn]. eauto.
Qed.

Lemma allocated_length (h h' : list GraphNode.t) (v : value) :
  length h' = length h → allocated h v → allocated h' v.
Proof.
  unfold allocated. destruct v as [r|]; simpl; [|done].
  rewrite !lookup_lt_is_Some. by intros ->.
Qed.

Lemma sized_lookup (L : nat) (h : list GraphNode.t) (r : ref) :
  sized L h → r < L → ∃ n, h !! r = Some n.
Proof. intros <- Hr. by apply lookup_lt_is_Some. Qed.

Lemma sized_insert (L : nat) (h : list GraphNode.t) (r : ref) (n : GraphNode.t) :
  sized L h → sized L (<[r := n]> h).
Proof. unfold sized. by rewrite length_insert. Qed.

Lemma hoare_update_sized (L : nat) (r : ref) (f : GraphNode.t → GraphNode.t) :
  r < L → hoare (sized L) (update (Some r) f) (λ _, sized L).
Proof.
  intros Hr. apply hoare_update. intros h Hh.
  destruct (sized_lookup _ _ _ Hh Hr) as [n Hn].
  exists r, n. split_and!; [done..|]. by apply sized_insert.
Qed.

Lemma hoare_deref_sized (L : nat) (r : ref) :
  r < L → hoare (sized L) (deref (Some r)) (λ _, sized L).
Proof.
  intros Hr. apply hoare_deref. intros h Hh.
  destruct (sized_lookup _ _ _ Hh Hr) as [n Hn]. eauto.
Qed.

Lemma repulsion_sized (L : nat) (net_nodes : list ref) (k c : float) :
  Forall (λ r, r < L) net_nodes →
  hoare (sized L) (repulsion net_nodes k c) (λ _, sized L).
Proof.
  intros Hn. rewrite Forall_forall in Hn. unfold repulsion.
  apply hoare_for_of_inv. intros node Hnode.
  eapply hoare_bind; [apply hoare_update_sized; auto|]. intros [].
  apply hoare_for_of_inv. intros otherNode Hother.
  destruct (negb _); [|by apply hoare_ret].
  eapply hoare_bind; [apply hoare_deref_sized; auto|]. intros n.
  eapply hoare_bind; [apply hoare_deref_sized; auto|]. intros o.
  apply hoare_update_sized; auto.
Qed.

Lemma hoare_deref_allocated (L : nat) (v : value) :
  (∃ r, v = Some r ∧ r < L) → hoare (sized L) (deref v) (λ _, sized L).
Proof. intros (r & -> & Hr). by apply hoare_deref_sized. Qed.

Lemma hoare_update_allocated (L : nat) (v : value) (f : GraphNode.t → GraphNode.t) :
  (∃ r, v = Some r ∧ r < L) → hoare (sized L) (update v f) (λ _, sized L).
Proof. intros (r & -> & Hr). by apply hoare_update_sized. Qed.

Lemma attraction_sized (L : nat) (net_edges : list Edge) (k c : float) :
  Forall (λ e, (∃ r, source e = Some r ∧ r < L) ∧
               (∃ r, target e = Some r ∧ r < L)) net_edges →
  hoare (sized L) (attraction net_edges k c) (λ _, sized L).
Proof.
  intros He. rewrite Forall_forall in He. unfold attraction.
  apply hoare_for_of_inv. intros edge [Hs Ht]%He.
  eapply hoare_bind; [by apply hoare_deref_allocated|]. intros s.
  eapply hoare_bind; [by apply hoare_deref_allocated|]. intros t.
  eapply hoare_bind; [by apply hoare_update_allocated|]. intros [].
  eapply hoare_bind; [by apply hoare_update_allocated|]. intros [].
  eapply hoare_bind; [by apply hoare_update_allocated|]. intros [].
  by apply hoare_update_allocated.
Qed.

Lemma updatePositions_sized (L : nat) (net_nodes : list ref) (width height t : float) :
  Forall (λ r, r < L) net_nodes →
  hoare (sized L) (updatePositions net_nodes width height t) (λ _, sized L).
Proof.
  intros Hn. rewrite Forall_forall in Hn. unfold updatePositions.
  apply hoare_for_of_inv. intros node Hnode.
  eapply hoare_bind; [apply hoare_deref_sized; auto|]. intros n.
  eapply hoare_bind; [apply hoare_update_sized; auto|]. intros [].
  apply hoare_update_sized; auto.
Qed.

(** ** The position update puts the nodes in the box *)

(** A loop that gives every node of an array a new [x] and a new [y],
    computed from the node as it is when its turn comes: afterwards
    every node of the array is as the loop leaves a node. *)
Lemma placement_loop (L : nat) (net_nodes : list ref)
    (fx fy : GraphNode.t → float) (good : GraphNode.t → Prop) :
  (∀ n, good (GraphNode.set_y (fy n) (GraphNode.set_x (fx n) n))) →
  Forall (λ r, r < L) net_nodes →
  hoare (sized L)
    (for_of net_nodes (λ node,
       let* n := deref (Some node) in
       update (Some node) (GraphNode.set_x (fx n)) ;;;
       update (Some node) (GraphNode.set_y (fy n))))
    (λ _ h, sized L h ∧
            Forall (λ r, ∃ n, h !! r = Some n ∧ good n) net_nodes).
Proof.
  intros Hgood Hn. rewrite Forall_forall in Hn.
  eapply hoare_conseq.
  - apply (hoare_for_of
             (λ l1 h, sized L h ∧ Forall (λ r, ∃ n, h !! r = Some n ∧ good n) l1)).
    intros l1 r l2 Hl.
    assert (Hr : r < L) by (apply Hn; rewrite Hl; set_solver).
    eapply hoare_bind with
      (R := λ n h, (sized L h ∧ Forall (λ r, ∃ n, h !! r = Some n ∧ good n) l1)
                   ∧ h !! r = Some n).
    { apply hoare_deref. intros h [Hs Hall].
      destruct (sized_lookup _ _ _ Hs Hr) as [n Hn']. eauto 10. }
    intros n.
    eapply hoare_bind with
      (R := λ _ h, ∃ h0, (sized L h0 ∧
                          Forall (λ r, ∃ n, h0 !! r = Some n ∧ good n) l1)
                         ∧ h = <[r := GraphNode.set_x (fx n) n]> h0).
    { apply hoare_update. intros h [HI Hl']. exists r, n. eauto 10. }
    intros []. apply hoare_update. intros h (h0 & [Hs Hall] & ->).
    assert (Hr0 : r < length h0) by (by rewrite Hs).
    exists r, (GraphNode.set_x (fx n) n).
    split; [done|]. split; [by apply list_lookup_insert_eq|].
    rewrite list_insert_insert_eq. split; [by apply sized_insert|].
    rewrite Forall_app, Forall_singleton. split.
    + eapply Forall_impl; [exact Hall|]. simpl. intros r' (n' & Hn' & Hg').
      destruct (decide (r' = r)) as [->|Hne].
      * eexists. split; [by apply list_lookup_insert_eq|]. apply Hgood.
      * exists n'. split; [|done]. by rewrite list_lookup_insert_ne.
    + eexists. split; [by apply list_lookup_insert_eq|]. apply Hgood.
  - intros h Hs. split; [done|constructor].
  - intros [] h H. exact H.
Qed.

(** After the position update of a pass of the animated solver every
    node is within [20, width-20] x [20, height-20], or has a coordinate
    that is NaN. *)
Lemma updatePositionsAnimate_boxed (L : nat) (net_nodes : list ref)
    (width height t : float) :
  (20 <=? width - 20)%float = true → (20 <=? height - 20)%float = true →
  Forall (λ r, r < L) net_nodes →
  hoare (sized L) (updatePositionsAnimate net_nodes width height t)
    (λ _ h, sized L h ∧
            Forall (λ r, ∃ n, h !! r = Some n ∧
                              boxed 20 (width - 20) 20 (height - 20) n)
                   net_nodes).
Proof.
  intros Hw Hh Hn.
  apply (placement_loop L net_nodes
           (λ n, Math.min (width - 20) (Math.max 20 (tempX t n)))
           (λ n, Math.min (height - 20) (Math.max 20 (tempY t n)))); [|done].
  intros n. split; simpl; by apply min_max_within.
Qed.

(** The same for the static solver, with its own bounds. *)
Lemma updatePositions_boxed (L : nat) (net_nodes : list ref)
    (width height t : float) :
  (10 <=? width - 10)%float = true → (20 <=? height - 10)%float = true →
  Forall (λ r, r < L) net_nodes →
  hoare (sized L) (updatePositions net_nodes width height t)
    (λ _ h, sized L h ∧
            Forall (λ r, ∃ n, h !! r = Some n ∧
                              boxed 10 (width - 10) 20 (height - 10) n)
                   net_nodes).
Proof.
  intros Hw Hh Hn.
  apply (placement_loop L net_nodes
           (λ n, Math.min (width - 10) (Math.max 10 (tempX t n)))
           (λ n, Math.min (height - 10) (Math.max 20 (tempY t n)))); [|done].
  intros n. split; simpl; by apply min_max_within.
Qed.

(** ** Drawing a well-formed graph *)

Lemma for_map_deref_nodes (w : World) (l : list ref) :
  Forall (λ r, r < length (heap w)) l →
  ∃ ns, for_map l (λ n, deref (Some n)) w = (Normal ns, w) ∧
        Forall2 (λ r n, heap w !! r = Some n) l ns.
Proof.
  induction 1 as [|r l Hr _ (ns & Hns & Hall)]; simpl.
  - by exists [].
  - apply lookup_lt_is_Some in Hr as [n Hn].
    exists (n :: ns). unfold bind, deref at 1. rewrite Hn, Hns.
    split; [done|]. by constructor.
Qed.

Lemma for_map_deref_edges (w : World) (l : list Edge) :
  Forall (λ e, allocated (heap w) (source e) ∧ allocated (heap w) (target e)) l →
  ∃ es, for_map l (λ e, let* s := deref (source e) in
                        let* t := deref (target e) in ret (s, t)) w
        = (Normal es, w).
Proof.
  induction 1 as [|e l [Hs Ht] _ (es & Hes)]; simpl.
  - by exists [].
  - apply allocated_lookup in Hs as (rs & s & Hrs & Hs).
    apply allocated_lookup in Ht as (rt & t & Hrt & Ht).
    exists ((s, t) :: es). unfold bind, deref, ret in *.
    rewrite Hrs, Hrt, Hs, Ht, Hes. done.
Qed.

(** [refresh] hands one frame to the renderer: the nodes of the graph as
    they are in the heap. *)
Lemma refresh_frame (w : World) :
  Forall (λ r, r < length (heap w)) (nodes (this w)) →
  Forall (λ e, allocated (heap w) (source e) ∧ allocated (heap w) (target e))
         (edges (this w)) →
  ∃ f, refresh w = (Normal tt, set_frames (frames w ++ [f]) w) ∧
       Forall2 (λ r n, heap w !! r = Some n) (nodes (this w)) (frame_nodes f).
Proof.
  intros Hn He.
  destruct (for_map_deref_edges _ _ He) as (es & Hes).
  destruct (for_map_deref_nodes _ _ Hn) as (ns & Hns & Hall).
  exists (mkFrame es ns). unfold refresh.
  rewrite (bind_normal get _ w w w) by done.
  rewrite (bind_normal _ _ _ _ _ Hes), (bind_normal _ _ _ _ _ Hns). done.
Qed.

(** ** The number of passes of the static solver *)

Lemma wf_nodes_sized (w : World) :
  wf w → Forall (λ r, r < length (heap w)) (nodes (this w)).
Proof. by intros (? & _). Qed.

Lemma wf_edges_sized (w : World) :
  wf w →
  Forall (λ e, (∃ r, source e = Some r ∧ r < length (heap w)) ∧
               (∃ r, target e = Some r ∧ r < length (heap w))) (edges (this w)).
Proof.
  intros (_ & He & _). eapply Forall_impl; [exact He|]. simpl.
  intros e [Hs Ht].
  apply allocated_lookup in Hs as (rs & s & Hrs & Hs).
  apply allocated_lookup in Ht as (rt & t & Hrt & Ht).
  apply lookup_lt_Some in Hs, Ht. split; eauto.
Qed.

(** The loop of [fruchtermanReingold] runs its body once for every
    element of the range, and every run is a complete pass. *)
Lemma fruchtermanReingold_loop (L : nat) (net_nodes : list ref)
    (net_edges : list Edge) (width height k c1 c2 : float) (l : list nat) :
  Forall (λ r, r < L) net_nodes →
  Forall (λ e, (∃ r, source e = Some r ∧ r < L) ∧
               (∃ r, target e = Some r ∧ r < L)) net_edges →
  ∀ (t : float) (w : World), sized L (heap w) →
  ∃ t' h',
    for_fold l t (λ i t,
      repulsion net_nodes k c2 ;;;
      attraction net_edges k c1 ;;;
      updatePositions net_nodes width height t ;;;
      pass_done ;;;
      ret (t - 10 / number_of_nat i)%float) w
    = (Normal t', set_passes (passes w + length l) (set_heap h' w)) ∧
    sized L h'.
Proof.
  intros Hn He. induction l as [|i l IH]; intros t w Hw; simpl.
  - exists t, (heap w). rewrite Nat.add_0_r. by destruct w.
  - destruct (repulsion_sized L net_nodes k c2 Hn w Hw) as ([] & h1 & E1 & H1).
    destruct (attraction_sized L net_edges k c1 He (set_heap h1 w) H1)
      as ([] & h2 & E2 & H2).
    destruct (updatePositions_sized L net_nodes width height t Hn
                (set_heap h2 (set_heap h1 w)) H2) as ([] & h3 & E3 & H3).
    erewrite bind_normal; [|].
    2: { step_with E1.
         step_with E2.
         step_with E3.
         reflexivity. }
    match goal with
    | |- context [for_fold l ?t0 _ ?w0] =>
        destruct (IH t0 w0) as (t' & h' & E & H'); [exact H3|]
    end.
    exists t', h'. split; [|done].
    rewrite E. f_equal. unfold set_passes, set_heap; simpl. f_equal. lia.
Qed.

(** C1, as stated, fails: on the graph of two nodes joined by an edge
    the static solver ends normally after 79 passes, not 80. *)
Lemma fruchtermanReingold_passes_counterexample :
  fst (fruchtermanReingold 1 1 pairWorld) = Normal tt ∧
  passes (exec (fruchtermanReingold 1 1) pairWorld) = passes pairWorld + 79 ∧
  passes (exec (fruchtermanReingold 1 1) pairWorld) ≠ passes pairWorld + 80.
Proof. vm_compute. split_and!; [reflexivity | reflexivity | discriminate]. Qed.

(** C1, amended.  On every well-formed graph the static solver ends
    normally after exactly 79 passes: its loop runs for [i] from 1 while
    [i < 80].  Each pass is a repulsion, an attraction, a position
    update and a cooling step; the graph is then drawn once. *)
Theorem fruchtermanReingold_passes (c1 c2 : float) (w : World) :
  wf w →
  range 1 80 = seq 1 79 ∧
  ∃ w', fruchtermanReingold c1 c2 w = (Normal tt, w') ∧
        passes w' = passes w + 79 ∧
        this w' = this w ∧
        length (frames w') = S (length (frames w)).
Proof.
  intros Hwf. split; [reflexivity|].
  pose proof (wf_nodes_sized _ Hwf) as Hn.
  pose proof (wf_edges_sized _ Hwf) as He.
  unfold fruchtermanReingold.
  rewrite (bind_normal get _ w w w) by done.
  edestruct (fruchtermanReingold_loop (length (heap w)) (nodes (this w))
               (edges (this w)) (clientWidth (canvas (this w)))
               (clientHeight (canvas (this w)))) as (t' & h' & E & Hh');
    [exact Hn|exact He| |].
  2: rewrite (bind_normal _ _ _ _ _ E).
  { reflexivity. }
  destruct Hwf as (Hn' & He' & _).
  edestruct (refresh_frame (set_passes (passes w + length (range 1 80))
                              (set_heap h' w))) as (f & Ef & _).
  { simpl. by rewrite Hh'. }
  { simpl. eapply Forall_impl; [exact He'|]. simpl.
    intros e [? ?]. split; eapply allocated_length; eauto. }
  rewrite Ef. eexists. split; [reflexivity|]. simpl.
  split_and!; [done..|]. rewrite length_app. simpl. lia.
Qed.

Lemma fruchtermanReingold_passes_witness :
  wf pairWorld ∧
  ∃ w', fruchtermanReingold 1 1 pairWorld = (Normal tt, w') ∧
        passes w' = passes pairWorld + 79.
Proof.
  split; [exact wf_pairWorld|].
  destruct (fruchtermanReingold_passes 1 1 pairWorld wf_pairWorld)
    as (_ & w' & E & Hp & _).
  exists w'. split; [exact E | exact Hp].
Defined.

(** ** What the static solver guarantees about the positions *)

Lemma fruchtermanReingold_loop_boxed (L : nat) (net_nodes : list ref)
    (net_edges : list Edge) (width height k c1 c2 : float) (l : list nat) :
  (10 <=? width - 10)%float = true → (20 <=? height - 10)%float = true →
  Forall (λ r, r < L) net_nodes →
  Forall (λ e, (∃ r, source e = Some r ∧ r < L) ∧
               (∃ r, target e = Some r ∧ r < L)) net_edges →
  ∀ (t : float) (w : World), sized L (heap w) →
  ∃ t' h',
    for_fold l t (λ i t,
      repulsion net_nodes k c2 ;;;
      attraction net_edges k c1 ;;;
      updatePositions net_nodes width height t ;;;
      pass_done ;;;
      ret (t - 10 / number_of_nat i)%float) w
    = (Normal t', set_passes (passes w + length l) (set_heap h' w)) ∧
    sized L h' ∧
    (l = [] ∨
     Forall (λ r, ∃ n, h' !! r = Some n ∧
                       boxed 10 (width - 10) 20 (height - 10) n) net_nodes).
Proof.
  intros Hbw Hbh Hn He. induction l as [|i l IH]; intros t w Hw; cbn [for_fold].
  - exists t, (heap w). rewrite Nat.add_0_r.
    split_and!; [by destruct w|done|by left].
  - destruct (repulsion_sized L net_nodes k c2 Hn w Hw) as ([] & h1 & E1 & H1).
    destruct (attraction_sized L net_edges k c1 He (set_heap h1 w) H1)
      as ([] & h2 & E2 & H2).
    destruct (updatePositions_boxed L net_nodes width height t Hbw Hbh Hn
                (set_heap h2 (set_heap h1 w)) H2) as ([] & h3 & E3 & H3 & Hbox).
    erewrite bind_normal; [|].
    2: { step_with E1.
         step_with E2.
         step_with E3.
         reflexivity. }
    match goal with
    | |- context [for_fold l ?t0 _ ?w0] =>
        destruct (IH t0 w0) as (t' & h' & E & H' & Hpost); [exact H3|]
    end.
    exists t', h'. split_and!; [|done|].
    + rewrite E. f_equal. unfold set_passes, set_heap; simpl. f_equal. lia.
    + right. destruct Hpost as [->|Hpost]; [|done].
      cbn [for_fold] in E. injection E as _ Hh. by rewrite <- Hh.
Qed.

(** On a well-formed graph whose canvas has [10 <= width - 10] and
    [20 <= height - 10], the static solver ends normally and the graph
    it draws has every node within [10, width-10] x [20, height-10],
    except for the coordinates that are NaN. *)
Lemma fruchtermanReingold_boxed (c1 c2 : float) (w : World) :
  wf w →
  (10 <=? clientWidth (canvas (this w)) - 10)%float = true →
  (20 <=? clientHeight (canvas (this w)) - 10)%float = true →
  ∃ w' f,
    fruchtermanReingold c1 c2 w = (Normal tt, w') ∧
    frames w' = frames w ++ [f] ∧
    Forall (boxed 10 (clientWidth (canvas (this w)) - 10)
                  20 (clientHeight (canvas (this w)) - 10)) (frame_nodes f).
Proof.
  intros Hwf Hbw Hbh.
  pose proof (wf_nodes_sized _ Hwf) as Hn.
  pose proof (wf_edges_sized _ Hwf) as He.
  unfold fruchtermanReingold.
  rewrite (bind_normal get _ w w w) by done.
  edestruct (fruchtermanReingold_loop_boxed (length (heap w)) (nodes (this w))
               (edges (this w)) (clientWidth (canvas (this w)))
               (clientHeight (canvas (this w)))) as (t' & h' & E & Hh' & Hbox);
    [exact Hbw|exact Hbh|exact Hn|exact He| |].
  2: rewrite (bind_normal _ _ _ _ _ E).
  { reflexivity. }
  destruct Hbox as [Hnil|Hbox]; [discriminate Hnil|].
  destruct Hwf as (Hn' & He' & _).
  edestruct (refresh_frame (set_passes (passes w + length (range 1 80))
                              (set_heap h' w))) as (f & Ef & Hf).
  { simpl. by rewrite Hh'. }
  { simpl. eapply Forall_impl; [exact He'|]. simpl.
    intros e [? ?]. split; eapply allocated_length; eauto. }
  rewrite Ef. eexists _, f. split; [reflexivity|]. simpl. split; [done|].
  simpl in Hf. clear -Hf Hbox. revert Hbox.
  induction Hf as [|r n rs ns Hr _ IHf]; intros Hbox; [constructor|].
  apply Forall_cons in Hbox as [(n' & Hn' & Hb) Hbox].
  constructor; [|by apply IHf].
  rewrite Hr in Hn'. by injection Hn' as ->.
Qed.

(** C2 fails on the graph of one node at (100, 100) on a canvas of 500
    by 500, with both constants 1: the displacement of the only node
    stays (0, 0), its length is 0, and the division of 0 by 0 makes both
    coordinates NaN, which the clamp lets through. *)
Theorem fruchtermanReingold_single_node_NaN :
  wf singleNodeWorld ∧
  length (nodes (this singleNodeWorld)) = 1 ∧
  positions singleNodeWorld = [(100, 100)%float] ∧
  fst (fruchtermanReingold 1 1 singleNodeWorld) = Normal tt ∧
  positions (exec (fruchtermanReingold 1 1) singleNodeWorld) = [(nan, nan)].
Proof.
  split; [exact wf_singleNodeWorld|].
  vm_compute. split_and!; reflexivity.
Qed.

(** ** The clamp of the animated solver *)

Lemma suspend_world (stop : nat → bool) (i : nat) (w : World) :
  ∃ g, suspend stop i w = (Normal tt, set_this g w) ∧
       nodes g = nodes (this w) ∧ edges g = edges (this w).
Proof.
  unfold suspend. destruct (stop i).
  - by exists (set_playing false (this w)).
  - exists (this w). by destruct w.
Qed.

Lemma fruchtermanReingoldAnimate_loop (L : nat) (net_nodes : list ref)
    (net_edges : list Edge) (width height k c1 c2 : float)
    (stop : nat → bool) (l : list nat) :
  (20 <=? width - 20)%float = true → (20 <=? height - 20)%float = true →
  Forall (λ r, r < L) net_nodes →
  Forall (λ e, (∃ r, source e = Some r ∧ r < L) ∧
               (∃ r, target e = Some r ∧ r < L)) net_edges →
  ∀ (t : float) (w : World),
  sized L (heap w) → nodes (this w) = net_nodes → edges (this w) = net_edges →
  ∃ t' w' fs,
    for_fold_break l t (λ i t,
      let* w := get in
      if negb (playing (this w)) then ret (Break t)
      else
        repulsion net_nodes k c2 ;;;
        attraction net_edges k c1 ;;;
        updatePositionsAnimate net_nodes width height t ;;;
        pass_done ;;;
        let t := (t - 10 / number_of_nat i)%float in
        refresh ;;;
        suspend stop i ;;;
        ret (Continue t)) w
    = (Normal t', w') ∧
    frames w' = frames w ++ fs ∧
    passes w' = passes w + length fs ∧
    length fs ≤ length l ∧
    animatedFrames width height fs.
Proof.
  intros Hbw Hbh Hn He.
  induction l as [|i l IH]; intros t w Hw HN HE; cbn [for_fold_break].
  { exists t, w, []. rewrite app_nil_r, Nat.add_0_r.
    split_and!; [done..|constructor]. }
  destruct (playing (this w)) eqn:Hplay.
  2: { exists t, w, []. rewrite app_nil_r, Nat.add_0_r.
       split_and!; [|done|done|simpl; lia|constructor].
       match goal with
       | |- bind ?c _ w = _ => assert (Hb : c w = (Normal (Break t), w))
       end.
       { rewrite (bind_normal get _ w w w) by done. by rewrite Hplay. }
       by rewrite (bind_normal _ _ _ _ _ Hb). }
  destruct (repulsion_sized L net_nodes k c2 Hn w Hw) as ([] & h1 & E1 & H1).
  destruct (attraction_sized L net_edges k c1 He (set_heap h1 w) H1)
    as ([] & h2 & E2 & H2).
  destruct (updatePositionsAnimate_boxed L net_nodes width height t Hbw Hbh Hn
              (set_heap h2 (set_heap h1 w)) H2) as ([] & h3 & E3 & H3 & Hbox).
  pose (w4 := set_passes (S (passes w)) (set_heap h3 w)).
  destruct (refresh_frame w4) as (f & Ef & Hf).
  { simpl. rewrite HN, H3. done. }
  { simpl. rewrite HE. eapply Forall_impl; [exact He|]. simpl.
    intros e [(rs & Hrs & ?) (rt & Hrt & ?)]. unfold allocated.
    rewrite Hrs, Hrt. simpl. rewrite !lookup_lt_is_Some, H3. done. }
  destruct (suspend_world stop i (set_frames (frames w4 ++ [f]) w4))
    as (g & Es & Hgn & Hge).
  destruct (IH (t - 10 / number_of_nat i)%float
              (set_this g (set_frames (frames w4 ++ [f]) w4)))
    as (t' & w' & fs & E & Hfr & Hp & Hlen & Hfs).
  { exact H3. } { simpl. by rewrite Hgn. } { simpl. by rewrite Hge. }
  exists t', w', (f :: fs).
  split_and!.
  - match goal with
    | |- bind ?c _ w = _ =>
        assert (Hb : c w = (Normal (Continue (t - 10 / number_of_nat i)%float),
                            set_this g (set_frames (frames w4 ++ [f]) w4)))
    end.
    { rewrite (bind_normal get _ w w w) by done. rewrite Hplay. cbn [negb].
      step_with E1.
      step_with E2.
      step_with E3.
      step.
      step_with Ef.
      step_with Es.
      reflexivity. }
    rewrite (bind_normal _ _ _ _ _ Hb). exact E.
  - rewrite Hfr. simpl. by rewrite <- app_assoc.
  - rewrite Hp. simpl. lia.
  - simpl. lia.
  - constructor; [|exact Hfs].
    simpl in Hf. rewrite HN in Hf.
    clear -Hf Hbox. revert Hbox.
    induction Hf as [|r n rs ns Hr _ IHf]; intros Hbox; [constructor|].
    apply Forall_cons in Hbox as [(n' & Hn' & Hb) Hbox].
    constructor; [|by apply IHf].
    rewrite Hr in Hn'. by injection Hn' as ->.
Qed.

(** C9, as stated, fails in three respects.  On the graph of one node the
    position drawn after the first pass of the animated solver is
    (NaN, NaN), which is not in [20, 480] x [20, 480].  On a canvas of
    30 by 30 the clamp puts a node at (10, 10), below the lower bound
    20, since [Math.min] is applied last.  And the lower bound of the
    vertical clamp is the same in the two solvers: on a canvas of 500 by
    500 a node pushed above the top is put at [y = 20] by both. *)
Lemma fruchtermanReingoldAnimate_counterexample :
  (head (framePositions
           (exec (fruchtermanReingoldAnimate 1 1 (λ _, false)) singleNodeWorld))
   = Some [(nan, nan)] ∧
   ¬ within 20 (500 - 20) nan) ∧
  (head (positions (exec (updatePositionsAnimate [0; 1] 30 30 50) cornerWorld))
   = Some (10, 10)%float ∧
   ¬ within 20 (30 - 20) 10) ∧
  (snd <$> head (positions (exec (updatePositions [0; 1] 500 500 50) cornerWorld))
   = Some 20%float ∧
   snd <$> head (positions (exec (updatePositionsAnimate [0; 1] 500 500 50) cornerWorld))
   = Some 20%float).
Proof.
  split_and!.
  - vm_compute. reflexivity.
  - intros [H _]. vm_compute in H. discriminate H.
  - vm_compute. reflexivity.
  - intros [H _]. vm_compute in H. discriminate H.
  - vm_compute. reflexivity.
  - vm_compute. reflexivity.
Qed.

(** C9, amended.  On a well-formed graph whose canvas has
    [20 <= width - 20] and [20 <= height - 20], the animated solver ends
    normally and draws one frame after every pass, and in every frame
    each node has an [x] that is NaN or within [20, width-20] and a [y]
    that is NaN or within [20, height-20]: the results of
    [Math.min(width - 20, Math.max(20, tempX))] and of
    [Math.min(height - 20, Math.max(20, tempY))].  The static solver
    clamps into [10, width-10] x [20, height-10]: on a canvas of 500 by
    500 a node pushed out at the top left is put at (10, 20) by the
    static update and at (20, 20) by the animated one, and a node pushed
    out at the bottom right at (490, 490) and at (480, 480).  So the
    lower and the upper horizontal bound and the upper vertical bound
    differ, and the lower vertical bound does not. *)
Theorem fruchtermanReingoldAnimate_clamp (c1 c2 : float) (stop : nat → bool)
    (w : World) :
  wf w →
  (20 <=? clientWidth (canvas (this w)) - 20)%float = true →
  (20 <=? clientHeight (canvas (this w)) - 20)%float = true →
  (∃ w' fs,
     fruchtermanReingoldAnimate c1 c2 stop w = (Normal tt, w') ∧
     frames w' = frames w ++ fs ∧
     passes w' = passes w + length fs ∧
     length fs ≤ 79 ∧
     animatedFrames (clientWidth (canvas (this w)))
                    (clientHeight (canvas (this w))) fs) ∧
  positions (exec (updatePositions [0; 1] 500 500 50) cornerWorld)
    = [(10, 20); (490, 490)]%float ∧
  positions (exec (updatePositionsAnimate [0; 1] 500 500 50) cornerWorld)
    = [(20, 20); (480, 480)]%float.
Proof.
  intros Hwf Hbw Hbh. split; [|by vm_compute].
  pose proof (wf_nodes_sized _ Hwf) as Hn.
  pose proof (wf_edges_sized _ Hwf) as He.
  unfold fruchtermanReingoldAnimate.
  step.
  step.
  cbn [this set_this heap nodes edges canvas set_playing].
  edestruct (fruchtermanReingoldAnimate_loop (length (heap w)) (nodes (this w))
               (edges (this w)) (clientWidth (canvas (this w)))
               (clientHeight (canvas (this w))))
    as (t' & w' & fs & E & Hfr & Hp & Hlen & Hfs);
    [exact Hbw | exact Hbh | exact Hn | exact He | | | |].
  4: step_with E.
  1-3: reflexivity.
  eexists _, fs. split; [reflexivity|]. simpl.
  split_and!; [exact Hfr | exact Hp | exact Hlen | exact Hfs].
Qed.

Lemma fruchtermanReingoldAnimate_clamp_witness :
  wf pairWorld ∧
  ∃ w' fs,
    fruchtermanReingoldAnimate 1 1 (λ i, bool_decide (i = 3)) pairWorld
    = (Normal tt, w') ∧
    frames w' = frames pairWorld ++ fs ∧
    animatedFrames 500 500 fs.
Proof.
  split; [exact wf_pairWorld|].
  destruct (fruchtermanReingoldAnimate_clamp 1 1 (λ i, bool_decide (i = 3))
              pairWorld wf_pairWorld) as [(w' & fs & E & Hfr & _ & _ & Hfs) _].
  { vm_compute. reflexivity. }
  { vm_compute. reflexivity. }
  exists w', fs. split; [exact E|]. split; [exact Hfr | exact Hfs].
Defined.

(** * Further properties: what the methods keep *)

(** ** Computations that keep an invariant *)

Lemma preserves_ret {A} (I : World → Prop) (a : A) : preserves I (ret a).
Proof. by intros w Hw. Qed.

Lemma preserves_throw {A} (I : World → Prop) (e : string) :
  preserves I (@throw A e).
Proof. by intros w Hw. Qed.

Lemma preserves_get (I : World → Prop) : preserves I get.
Proof. by intros w Hw. Qed.

Lemma preserves_bind {A B} (I : World → Prop) (c : M A) (k : A → M B) :
  preserves I c → (∀ a, preserves I (k a)) → preserves I (bind c k).
Proof.
  intros Hc Hk w Hw. specialize (Hc w Hw). unfold bind.
  destruct (c w) as [[a|e] w1]; simpl in *; [by apply Hk|done].
Qed.

Lemma preserves_for_of {A} (I : World → Prop) (l : list A) (body : A → M unit) :
  (∀ a, preserves I (body a)) → preserves I (for_of l body).
Proof.
  intros Hbody. induction l as [|a l IH]; simpl.
  - apply preserves_ret.
  - apply preserves_bind; [apply Hbody|by intros].
Qed.

Lemma preserves_for_fold {A S} (I : World → Prop) (l : list A) (s : S)
    (body : A → S → M S) :
  (∀ a s, preserves I (body a s)) → preserves I (for_fold l s body).
Proof.
  intros Hbody. revert s. induction l as [|a l IH]; intros s; simpl.
  - apply preserves_ret.
  - apply preserves_bind; [apply Hbody|by intros].
Qed.

Lemma preserves_for_fold_break {A S} (I : World → Prop) (l : list A) (s : S)
    (body : A → S → M (control S)) :
  (∀ a s, preserves I (body a s)) → preserves I (for_fold_break l s body).
Proof.
  intros Hbody. revert s. induction l as [|a l IH]; intros s; simpl.
  - apply preserves_ret.
  - apply preserves_bind; [apply Hbody|].
    intros [s'|s']; [apply IH|apply preserves_ret].
Qed.

Lemma preserves_for_map {A B} (I : World → Prop) (l : list A) (f : A → M B) :
  (∀ a, preserves I (f a)) → preserves I (for_map l f).
Proof.
  intros Hf. induction l as [|a l IH]; simpl.
  - apply preserves_ret.
  - apply preserves_bind; [apply Hf|]. intros b.
    apply preserves_bind; [apply IH|]. intros bs. apply preserves_ret.
Qed.

Lemma preserves_deref (I : World → Prop) (v : value) : preserves I (deref v).
Proof.
  intros w Hw. unfold deref. destruct v as [r|]; [|done].
  by destruct (heap w !! r).
Qed.

Lemma preserves_modify (I : World → Prop) (f : World → World) :
  (∀ w, I w → I (f w)) → preserves I (modify f).
Proof. intros Hf w Hw. by apply Hf. Qed.

(** Taking a computation apart into the steps that the lemmas above are
    about. *)
Ltac preserves_steps_with tac :=
  repeat first
    [ tac
    | apply preserves_ret
    | apply preserves_throw
    | apply preserves_get
    | apply preserves_deref
    | apply preserves_for_of; intros ?
    | apply preserves_for_fold; intros ? ?
    | apply preserves_for_fold_break; intros ? ?
    | apply preserves_for_map; intros ?
    | apply preserves_bind; [|intros ?]
    | match goal with
      | |- preserves _ (if ?b then _ else _) => destruct b
      | |- preserves _ (match ?o with Some _ => _ | None => _ end) => destruct o
      end ].

Ltac preserves_steps := preserves_steps_with fail.

(** ** A layout changes positions only *)

Lemma sameStyle_refl (n : GraphNode.t) : sameStyle n n.
Proof. by repeat split. Qed.

Lemma sameStyle_trans (a b c : GraphNode.t) :
  sameStyle a b → sameStyle b c → sameStyle a c.
Proof.
  unfold sameStyle. intros (?&?&?&?&?&?) (?&?&?&?&?&?).
  repeat split; congruence.
Qed.

Lemma sameStyle_heap_insert (h0 h : list GraphNode.t) (r : ref)
    (n n' : GraphNode.t) :
  Forall2 sameStyle h0 h → h !! r = Some n → sameStyle n n' →
  Forall2 sameStyle h0 (<[r := n']> h).
Proof.
  intros Hh Hr Hn. apply Forall2_lookup. intros i.
  pose proof (proj1 (Forall2_lookup _ _ _) Hh i) as Hi.
  destruct (decide (i = r)) as [->|Hne].
  - rewrite list_lookup_insert_eq by by eapply lookup_lt_Some.
    rewrite Hr in Hi. inversion Hi as [a b Hab|]; subst.
    constructor. by eapply sameStyle_trans.
  - by rewrite list_lookup_insert_ne.
Qed.

Lemma layoutOnly_refl (w : World) : layoutOnly w w.
Proof.
  split; [|split; [|done]].
  - unfold sameStructure. by destruct (this w).
  - apply Forall2_lookup. intros i. destruct (heap w !! i); constructor.
    apply sameStyle_refl.
Qed.

Lemma layoutOnly_update (w0 : World) (v : value) (f : GraphNode.t → GraphNode.t) :
  (∀ n, sameStyle n (f n)) → preserves (layoutOnly w0) (update v f).
Proof.
  intros Hf w (Hg & Hh & Hc). unfold update, bind, deref.
  destruct v as [r|]; [|done].
  destruct (heap w !! r) as [n|] eqn:Hr; [|done].
  repeat split; try done. simpl.
  by eapply sameStyle_heap_insert.
Qed.

Lemma layoutOnly_Math_random (w0 : World) : preserves (layoutOnly w0) Math_random.
Proof. by intros w (Hg & Hh & Hc). Qed.

Lemma layoutOnly_pass_done (w0 : World) : preserves (layoutOnly w0) pass_done.
Proof. by intros w (Hg & Hh & Hc). Qed.

Lemma layoutOnly_set_playing (w0 : World) (b : bool) :
  preserves (layoutOnly w0) (modify_this (set_playing b)).
Proof.
  intros w (Hg & Hh & Hc). split; [|done].
  unfold sameStructure in *. simpl. rewrite <- Hg. by destruct (this w).
Qed.

Lemma layoutOnly_refresh (w0 : World) : preserves (layoutOnly w0) refresh.
Proof.
  unfold refresh. preserves_steps.
Qed.

(** The steps of a layout, taken apart and settled one by one. *)
Ltac layout_step :=
  first [ apply layoutOnly_Math_random
        | apply layoutOnly_pass_done
        | apply layoutOnly_set_playing
        | apply layoutOnly_refresh
        | apply layoutOnly_update; intros ?; by repeat split ].

Ltac layout_steps := preserves_steps_with layout_step.

Lemma layoutOnly_fruchtermanReingold (c1 c2 : float) (w : World) :
  layoutOnly w (exec (fruchtermanReingold c1 c2) w).
Proof.
  enough (H : preserves (layoutOnly w) (fruchtermanReingold c1 c2))
    by apply H, layoutOnly_refl.
  unfold fruchtermanReingold, repulsion, attraction, updatePositions.
  layout_steps.
Qed.

Lemma layoutOnly_fruchtermanReingoldAnimate (c1 c2 : float) (stop : nat → bool)
    (w : World) :
  layoutOnly w (exec (fruchtermanReingoldAnimate c1 c2 stop) w).
Proof.
  enough (H : preserves (layoutOnly w) (fruchtermanReingoldAnimate c1 c2 stop))
    by apply H, layoutOnly_refl.
  unfold fruchtermanReingoldAnimate, repulsion, attraction,
    updatePositionsAnimate, suspend.
  layout_steps.
Qed.

Lemma layoutOnly_arrangeRandomly (w : World) :
  layoutOnly w (exec arrangeRandomly w).
Proof.
  enough (H : preserves (layoutOnly w) arrangeRandomly)
    by apply H, layoutOnly_refl.
  unfold arrangeRandomly. layout_steps.
Qed.

Lemma layoutOnly_arrangeInCircle (cos sin : float → float) (w : World) :
  layoutOnly w (exec (arrangeInCircle cos sin) w).
Proof.
  enough (H : preserves (layoutOnly w) (arrangeInCircle cos sin))
    by apply H, layoutOnly_refl.
  unfold arrangeInCircle. layout_steps.
Qed.

(** * Further properties: the store *)

(** ** What [addNode] does with a new id *)

Lemma addNode_new (a : NodeArgs) (w : World) :
  arg_id a ∉ nodeIds (this w) →
  addNode a w =
  (Normal (length (heap w)),
   set_this
     (set_nodeDictionary
        (dictionary_set (nodeDictionary (this w)) (arg_id a) (length (heap w)))
        (set_nodeIds (nodeIds (this w) ++ [arg_id a])
           (set_nodes (nodes (this w) ++ [length (heap w)]) (this w))))
     (set_heap
        (heap w ++
         [GraphNode.new (arg_id a)
            (match arg_x a with
             | Some x => x
             | None => random w (drawn w) * (width (this w) - 20) + 10
             end)%float
            (match arg_y a with
             | Some y => y
             | None =>
                 random w (drawn w + draws (arg_x a)) *
                 (height (this w) - 20) + 10
             end)%float
            (default (primaryDark (this w)) (arg_strokeColor a))
            (default (primaryMid (this w)) (arg_fillColor a))
            (arg_label a) (arg_displayLabel a)])
        (set_drawn (drawn w + (draws (arg_x a) + draws (arg_y a))) w))).
Proof.
  intros Hin%includes_false. unfold addNode, bind, get. rewrite Hin. simpl.
  destruct w as [h g c rnd d fs ps]. simpl in *.
  destruct (arg_x a), (arg_y a); simpl;
    rewrite ?Nat.add_0_r, ?Nat.add_1_r; try reflexivity.
  all: by replace (d + 2) with (S (S d)) by lia.
Qed.

(** ** The invariant of the store in full *)

Lemma store_inv_wf (w : World) : store_inv w → wf w.
Proof. by intros [? _]. Qed.

(** A listed id leads, through the dictionary, to a node of the array
    that carries this id. *)
Lemma store_inv_lookup (w : World) (i : string) :
  store_inv w → i ∈ nodeIds (this w) →
  ∃ r, nodeDictionary_get w i = JNode r ∧ r ∈ nodes (this w) ∧
       GraphNode.id <$> heap w !! r = Some i.
Proof.
  intros (_ & _ & Hf & _) [k Hk]%list_elem_of_lookup.
  destruct (Forall2_lookup_l _ _ _ _ _ Hf Hk) as (r & Hr & Hd & Hh).
  exists r. split_and!; [done| |done]. by eapply list_elem_of_lookup_2.
Qed.

Lemma store_inv_addNode (a : NodeArgs) (w : World) :
  store_inv w → store_inv (exec (addNode a) w).
Proof.
  intros Hinv. pose proof (addNode_wf a w (store_inv_wf _ Hinv)) as Hwf'.
  destruct (decide (arg_id a ∈ nodeIds (this w))) as [Hin|Hin].
  { apply includes_true in Hin. unfold exec, addNode, bind, get.
    by rewrite Hin. }
  unfold exec in *. rewrite (addNode_new _ _ Hin) in *.
  pose proof (wf_own_proto _ (store_inv_wf _ Hinv)) as Hown.
  destruct Hinv as ((Hn & _) & Hnd & Hf & He).
  split; [exact Hwf'|]. unfold nodeDictionary_get.
  cbn [snd this heap set_this set_heap set_drawn nodes
    nodeIds nodeDictionary edges set_nodes set_nodeIds set_nodeDictionary].
  split_and!.
  - apply NoDup_app. split_and!; [done| |apply NoDup_singleton].
    intros r Hr ->%list_elem_of_singleton.
    rewrite Forall_forall in Hn. specialize (Hn _ Hr). lia.
  - apply Forall2_app.
    + apply Forall2_same_length_lookup. split; [by eapply Forall2_length|].
      intros k i r Hi Hr.
      destruct (Forall2_lookup_l _ _ _ _ _ Hf Hi) as (r' & Hr' & Hd & Hh).
      assert (r' = r) as -> by congruence.
      split.
      * eapply dictionary_get_set_node; [done| |exact Hd]. intros ->.
        apply Hin. by eapply list_elem_of_lookup_2.
      * destruct (heap w !! r) as [n|] eqn:Hn'; [|done].
        by rewrite (lookup_app_l_Some _ _ _ _ Hn').
    + constructor; [|constructor]. split; [by apply dictionary_get_set|].
      by rewrite list_lookup_middle.
  - eapply Forall_impl; [exact He|]. intros e (x & y & ? & ? & ? & ?).
    exists x, y. rewrite !elem_of_app. tauto.
Qed.

Lemma store_inv_addEdge (s t : string) (w : World) :
  store_inv w → store_inv (exec (addEdge s t) w).
Proof.
  intros Hinv. pose proof (addEdge_wf s t w (store_inv_wf _ Hinv)) as Hwf'.
  destruct (decide (s ∈ nodeIds (this w))) as [Hs|Hs].
  2: { apply includes_false in Hs. unfold exec, addEdge, bind, get.
       rewrite Hs. simpl. destruct Hinv as (_ & ? & ? & ?).
       split; [|done]. unfold exec, addEdge, bind, get in Hwf'.
       by rewrite Hs in Hwf'. }
  destruct (decide (t ∈ nodeIds (this w))) as [Ht|Ht].
  2: { apply includes_true in Hs. apply includes_false in Ht.
       unfold exec, addEdge, bind, get.
       rewrite Hs, Ht. simpl. destruct Hinv as (_ & ? & ? & ?).
       split; [|done]. unfold exec, addEdge, bind, get in Hwf'.
       by rewrite Hs, Ht in Hwf'. }
  destruct (store_inv_lookup _ _ Hinv Hs) as (a & Ha & Han & _).
  destruct (store_inv_lookup _ _ Hinv Ht) as (b & Hb & Hbn & _).
  unfold exec in *. rewrite (addEdge_known _ _ _ Hs Ht) in *.
  destruct Hinv as (_ & Hnd & Hf & He).
  split; [exact Hwf'|]. split_and!; [done|done|].
  simpl. rewrite Forall_app, Forall_singleton. split; [done|].
  exists a, b. by rewrite Ha, Hb.
Qed.

Lemma store_inv_deleteAllNodes (w : World) : store_inv (exec deleteAllNodes w).
Proof.
  split; [apply deleteAllNodes_wf|].
  unfold exec, deleteAllNodes. simpl.
  split_and!; constructor.
Qed.

(** ** The constructor as a sequence of additions *)

Lemma constructor_nodes (parseInt : string → float) (l : list NodeSpec) :
  ∀ w,
  for_of l (λ node,
    let* w := get in
    if negb (includes (nodeIds (this w)) (spec_id node)) then
      let* x :=
        match spec_x node with
        | None => let* r := Math_random in
                  ret (r * (width (this w) - 20) + 10)%float
        | Some x => ret (parseInt x)
        end in
      let* y :=
        match spec_y node with
        | None => let* r := Math_random in
                  ret (r * (height (this w) - 20) + 10)%float
        | Some y => ret (parseInt y)
        end in
      let* newNode :=
        alloc (GraphNode.new (spec_id node) x y
                 (default (primaryDark (this w)) (spec_strokeColor node))
                 (default (primaryMid (this w)) (spec_fillColor node))
                 None None) in
      modify_this (λ g, set_nodes (nodes g ++ [newNode]) g) ;;;
      modify_this (λ g, set_nodeIds (nodeIds g ++ [spec_id node]) g) ;;;
      modify_this (λ g, set_nodeDictionary
                          (dictionary_set (nodeDictionary g) (spec_id node)
                             newNode) g)
    else ret tt) w
  = (Normal tt, addNodes (map (nodeArgs parseInt) l) w).
Proof.
  induction l as [|node l IH]; intros w; [done|].
  cbn [for_of map addNodes foldl]. fold (addNodes (map (nodeArgs parseInt) l)).
  cbn [nodeArgs arg_id].
  destruct (includes (nodeIds (this w)) (spec_id node)) eqn:Hin.
  - erewrite bind_normal; [apply IH|].
    unfold bind, get. by rewrite Hin.
  - erewrite bind_normal; [apply IH|].
    unfold exec, addNode, bind, get.
    cbn [nodeArgs arg_id arg_x arg_y arg_strokeColor arg_fillColor arg_label
         arg_displayLabel].
    rewrite Hin. by destruct (spec_x node), (spec_y node).
Qed.

Lemma addEdge_nodeIds (s t : string) (w : World) :
  nodeIds (this (exec (addEdge s t) w)) = nodeIds (this w).
Proof.
  unfold exec, addEdge, bind, get.
  by destruct (includes (nodeIds (this w)) s), (includes (nodeIds (this w)) t).
Qed.

Lemma constructor_edges (l : list EdgeSpec) :
  ∀ w,
  Forall (λ e, spec_source e ∈ nodeIds (this w) ∧
               spec_target e ∈ nodeIds (this w)) l →
  for_of l (λ e,
    let* w := get in
    let newEdge := mkEdge (toValue (nodeDictionary_get w (spec_source e)))
                          (toValue (nodeDictionary_get w (spec_target e))) in
    modify_this (λ g, set_edges (edges g ++ [newEdge]) g)) w
  = (Normal tt, addEdges l w).
Proof.
  induction l as [|e l IH]; intros w Hl; [done|].
  apply Forall_cons in Hl as [[Hs Ht] Hl].
  cbn [for_of addEdges foldl]. fold (addEdges l).
  erewrite bind_normal; [apply IH|].
  - by rewrite addEdge_nodeIds.
  - unfold exec. by rewrite (addEdge_known _ _ _ Hs Ht).
Qed.

Lemma knownEdges_known (w : World) (l : list EdgeSpec) :
  Forall (λ e, spec_source e ∈ nodeIds (this w) ∧
               spec_target e ∈ nodeIds (this w)) (knownEdges w l).
Proof.
  apply Forall_forall. intros e He%list_elem_of_In.
  apply filter_In in He as [_ [Hs Ht]%andb_prop].
  by apply includes_true in Hs, Ht.
Qed.

Lemma constructor_additions (parseInt : string → float) (a : GraphArgs)
    (w : World) :
  let w1 := addNodes (map (nodeArgs parseInt) (args_nodes a))
              (exec (constructor parseInt (withoutContent a)) w) in
  constructor parseInt a w
  = (Normal tt, addEdges (knownEdges w1 (args_edges a)) w1).
Proof.
  intros w1. unfold constructor.
  erewrite bind_normal by reflexivity.
  erewrite bind_normal by apply constructor_nodes.
  erewrite bind_normal by reflexivity.
  rewrite constructor_edges; [done|]. apply knownEdges_known.
Qed.

(** ** Every method keeps the invariant *)

Lemma store_inv_withoutContent (parseInt : string → float) (a : GraphArgs)
    (w : World) :
  store_inv (exec (constructor parseInt (withoutContent a)) w).
Proof.
  unfold exec, constructor, store_inv, wf. simpl.
  split_and!;
    [ constructor | constructor | set_solver | apply map_Forall_empty
    | constructor
    | split; [by intros ?%elem_of_nil|by intros ?%is_Some_None]
    | done | constructor | constructor | constructor ].
Qed.

Lemma store_inv_addNodes (l : list NodeArgs) :
  ∀ w, store_inv w → store_inv (addNodes l w).
Proof.
  induction l as [|a l IH]; intros w Hw; [done|].
  cbn [addNodes foldl]. fold (addNodes l). apply IH.
  destruct (includes (nodeIds (this w)) (arg_id a)); [done|].
  by apply store_inv_addNode.
Qed.

Lemma store_inv_addEdges (l : list EdgeSpec) :
  ∀ w, store_inv w → store_inv (addEdges l w).
Proof.
  induction l as [|e l IH]; intros w Hw; [done|].
  cbn [addEdges foldl]. fold (addEdges l). by apply IH, store_inv_addEdge.
Qed.

Lemma store_inv_constructor (parseInt : string → float) (a : GraphArgs)
    (w : World) :
  store_inv (exec (constructor parseInt a) w).
Proof.
  unfold exec. rewrite constructor_additions. cbn [snd].
  apply store_inv_addEdges, store_inv_addNodes, store_inv_withoutContent.
Qed.

Lemma store_inv_Math_random : preserves store_inv Math_random.
Proof. by intros w Hw. Qed.

Lemma store_inv_generateRandomNetwork (n : nat) (p : float)
    (nodePrefix : string) :
  preserves store_inv (generateRandomNetwork n p nodePrefix).
Proof.
  unfold generateRandomNetwork.
  preserves_steps_with
    ltac:(first [ apply store_inv_Math_random
                | intros ? ?; by apply store_inv_addNode
                | intros ? ?; by apply store_inv_addEdge ]).
Qed.

Lemma sameStructure_fields (g g' : Graph) :
  sameStructure g g' →
  nodes g' = nodes g ∧ nodeIds g' = nodeIds g ∧
  nodeDictionary g' = nodeDictionary g ∧ edges g' = edges g ∧
  canvas g' = canvas g ∧ width g' = width g ∧ height g' = height g.
Proof. intros <-. by destruct g'. Qed.

Lemma store_inv_layoutOnly (w w' : World) :
  layoutOnly w w' → store_inv w → store_inv w'.
Proof.
  intros (Hg & Hh & _) (Hwf & Hnd & Hf & Hes).
  pose proof (wf_own_proto _ Hwf) as Hown.
  destruct Hwf as (Hn & He & Hdom & Hdict & Hids & Hproto & Hp).
  apply sameStructure_fields in Hg as (En & Ei & Ed & Ee & _).
  pose proof (Forall2_length _ _ _ Hh) as Hlen.
  unfold store_inv, wf, nodeDictionary_get. rewrite En, Ei, Ed, Ee, <- Hlen.
  split_and!; try done.
  - eapply Forall_impl; [exact He|]. intros e [? ?].
    split; by eapply allocated_length.
  - eapply Forall2_impl; [exact Hf|]. intros i r [Hd Hi]. split.
    { apply dictionary_get_node; [done|].
      by apply (dictionary_get_node (heap w)). }
    destruct (heap w !! r) as [n|] eqn:Hr; [|done].
    destruct (Forall2_lookup_l _ _ _ _ _ Hh Hr) as (n' & -> & Hs).
    injection Hi as <-. simpl. f_equal. apply Hs.
Qed.

(** X1.  Whatever sequence of calls of the constructor, [addNode],
    [addEdge], [deleteAllNodes], [generateRandomNetwork], the two
    arrangements and the two solvers leads to a world, whether the calls
    return or throw, the store of that world is consistent: the node
    array has no node twice and no id twice; the id at each index of the
    id list is the id of the node at that index of the node array, and a
    read of the dictionary under this id finds that node; the
    dictionary has a property of its own for every listed id other than
    [__proto__] and for no other key, and it has a node as its
    prototype exactly when [__proto__] is listed; and every edge joins
    two nodes of the array. *)
Theorem reached_store_inv (w : World) : reached w → store_inv w.
Proof.
  induction 1 as [parseInt a w|a w _ IH|s t w _ IH|w _ _|n p pre w _ IH
                 |cos sin w _ IH|w _ IH|c1 c2 w _ IH|c1 c2 stop w _ IH].
  - apply store_inv_constructor.
  - by apply store_inv_addNode.
  - by apply store_inv_addEdge.
  - apply store_inv_deleteAllNodes.
  - by apply store_inv_generateRandomNetwork.
  - eapply store_inv_layoutOnly; [apply layoutOnly_arrangeInCircle|done].
  - eapply store_inv_layoutOnly; [apply layoutOnly_arrangeRandomly|done].
  - eapply store_inv_layoutOnly; [apply layoutOnly_fruchtermanReingold|done].
  - eapply store_inv_layoutOnly;
      [apply layoutOnly_fruchtermanReingoldAnimate|done].
Qed.

Lemma reached_store_inv_witness :
  store_inv
    (exec (fruchtermanReingold 1 1)
       (exec (addEdge "a" "b")
          (exec (constructor (λ _, 0%float)
                   (mkGraphArgs (mkCanvas 500 500)
                      [mkNodeSpec "a" None None None None;
                       mkNodeSpec "b" None None None None] [] 1
                      "#90a4ae" "#b0bec5" "#fce4ec" "#ffab91" "#f06292"
                      "#9575cd"))
             (newWorld 0.5)))).
Proof.
  apply reached_store_inv.
  apply reached_fruchtermanReingold, reached_addEdge, reached_constructor.
Defined.

(** X2.  The constructor builds the store by additions: the graph it
    leaves is the one obtained from a graph constructed without nodes
    and edges by [addNode] for every node of the argument whose id is
    not taken yet, and then [addEdge] for every edge of the argument
    whose two ends are listed.  It always returns: where [addNode]
    throws for an id that is taken, the constructor goes on to the next
    node. *)
Theorem constructor_as_additions (parseInt : string → float) (a : GraphArgs)
    (w : World) :
  constructor parseInt a w =
  (Normal tt,
   addEdges
     (knownEdges
        (addNodes (map (nodeArgs parseInt) (args_nodes a))
           (exec (constructor parseInt (withoutContent a)) w))
        (args_edges a))
     (addNodes (map (nodeArgs parseInt) (args_nodes a))
        (exec (constructor parseInt (withoutContent a)) w))).
Proof. apply constructor_additions. Qed.

(** ** What the constructor leaves *)

Lemma addNodes_cons (a : NodeArgs) (l : list NodeArgs) (w : World) :
  addNodes (a :: l) w =
  addNodes l (if includes (nodeIds (this w)) (arg_id a) then w
              else exec (addNode a) w).
Proof. done. Qed.

Lemma addEdges_cons (e : EdgeSpec) (l : list EdgeSpec) (w : World) :
  addEdges (e :: l) w =
  addEdges l (exec (addEdge (spec_source e) (spec_target e)) w).
Proof. done. Qed.

Lemma addNodes_content (l : list NodeArgs) :
  ∀ w,
  (∀ i, i ∈ nodeIds (this (addNodes l w)) ↔
        i ∈ nodeIds (this w) ∨ i ∈ map arg_id l) ∧
  edges (this (addNodes l w)) = edges (this w) ∧
  console (addNodes l w) = console w ∧
  ∃ h, heap (addNodes l w) = heap w ++ h.
Proof.
  induction l as [|a l IH]; intros w.
  { split_and!; try done; [set_solver|]. exists []. by rewrite app_nil_r. }
  rewrite addNodes_cons.
  destruct (includes (nodeIds (this w)) (arg_id a)) eqn:Hin.
  - apply includes_true in Hin.
    destruct (IH w) as (Hi & He & Hc & Hh). split_and!; try done.
    intros i. rewrite Hi. cbn [map]. set_solver.
  - apply includes_false in Hin.
    destruct (IH (exec (addNode a) w)) as (Hi & He & Hc & [h Hh]).
    assert (exec (addNode a) w = snd (addNode a w)) as E by done.
    rewrite (addNode_new _ _ Hin) in E. cbn [snd] in E.
    rewrite E in Hi, He, Hc, Hh |- *.
    split_and!; try done.
    + intros i. rewrite Hi. cbn [map]. simpl. set_solver.
    + eexists. rewrite Hh. simpl. by rewrite <- (assoc_L (++)).
Qed.

Lemma addEdges_content (l : list EdgeSpec) :
  ∀ w,
  Forall (λ e, spec_source e ∈ nodeIds (this w) ∧
               spec_target e ∈ nodeIds (this w)) l →
  addEdges l w =
  set_this
    (set_edges
       (edges (this w) ++
        map (λ e, mkEdge (toValue (nodeDictionary_get w (spec_source e)))
                         (toValue (nodeDictionary_get w (spec_target e)))) l)
       (this w)) w.
Proof.
  induction l as [|e l IH]; intros w Hl.
  { simpl. rewrite app_nil_r. by destruct w as [h []]. }
  apply Forall_cons in Hl as [[Hs Ht] Hl].
  rewrite addEdges_cons. unfold exec.
  rewrite (addEdge_known _ _ _ Hs Ht). cbn [snd]. rewrite IH by done.
  simpl. by rewrite <- (assoc_L (++)).
Qed.

(** X3.  What a new graph holds.  The constructor never throws and
    writes nothing to the console.  The ids listed are those of the
    [nodes] argument, each once, however often the argument names it.
    The edges are those of the [edges] argument both of whose ends are
    listed, in the order of the argument, each joining the two nodes
    that the dictionary holds for its ends; the others are left out
    without a message.  For every listed id the dictionary holds a
    node.  No edge is kept from before, and the node objects that were
    in the heap are still there. *)
Theorem constructor_content (parseInt : string → float) (a : GraphArgs)
    (w : World) :
  ∃ w',
    constructor parseInt a w = (Normal tt, w') ∧
    NoDup (nodeIds (this w')) ∧
    (∀ i, i ∈ nodeIds (this w') ↔ i ∈ map spec_id (args_nodes a)) ∧
    edges (this w') =
      map (λ e, mkEdge (toValue (nodeDictionary_get w' (spec_source e)))
                       (toValue (nodeDictionary_get w' (spec_target e))))
          (knownEdges w' (args_edges a)) ∧
    (∀ i, i ∈ nodeIds (this w') → ∃ r, nodeDictionary_get w' i = JNode r) ∧
    console w' = console w ∧
    ∃ h, heap w' = heap w ++ h.
Proof.
  eexists. split; [apply constructor_additions|].
  set (w0 := exec (constructor parseInt (withoutContent a)) w).
  set (w1 := addNodes (map (nodeArgs parseInt) (args_nodes a)) w0).
  pose proof (store_inv_addNodes (map (nodeArgs parseInt) (args_nodes a)) w0
                (store_inv_withoutContent parseInt a w)) as Hinv.
  fold w1 in Hinv.
  destruct (addNodes_content (map (nodeArgs parseInt) (args_nodes a)) w0)
    as (Hi & He & Hc & Hh). fold w1 in Hi, He, Hc, Hh.
  rewrite (addEdges_content _ _ (knownEdges_known w1 (args_edges a))).
  split_and!.
  - apply Hinv.
  - intros i. simpl. rewrite Hi. rewrite <- list_fmap_compose.
    unfold w0, exec, constructor. simpl. set_solver.
  - simpl. rewrite He. by unfold w0, exec, constructor.
  - intros i Hi'. by apply (wf_ids_dictionary w1 i (store_inv_wf _ Hinv)).
  - simpl. rewrite Hc. by unfold w0, exec, constructor.
  - exact Hh.
Qed.

(** ** Adding a node, adding an edge, deleting everything *)

(** No edge of a graph whose edges join objects of the heap [h] counts
    for an id that does not lead to an object of [h]. *)
Lemma degree_outside (w : World) (h : list GraphNode.t) (i : string) :
  Forall (λ e, allocated h (source e) ∧ allocated h (target e))
         (edges (this w)) →
  (∀ r, nodeDictionary_get w i = JNode r → ¬ r < length h) →
  degree w i = 0.
Proof.
  intros He Hi. rewrite degree_count.
  induction He as [|e es [Hs Ht] _ IH]; [done|].
  rewrite filter_cons, decide_False; [exact IH|].
  rewrite containsNode_spec. unfold allocated in *.
  destruct (source e) as [rs|]; [|by destruct Hs].
  destruct (target e) as [rt|]; [|by destruct Ht].
  apply lookup_lt_is_Some in Hs, Ht.
  simpl. intros [E|E]; symmetry in E; by apply Hi in E.
Qed.

(** X4.  [addNode] with an id that is not listed, in a well-formed
    world: the call returns a new node, which a read of the dictionary
    then finds under this id and which is the last of the node array;
    the object has the id, the coordinates, colours and label that were
    given (the palette colours and the empty label where they were
    not), weight 1 and no displacement; a coordinate is drawn from the
    random source exactly when it was left out.  Of the rest of the
    store nothing changes: a read of the dictionary under an id that
    was listed finds what it found before; unless the new id is
    [__proto__], which makes the new node the prototype of the
    dictionary, so does a read under any other key; the objects that
    were in the heap, the edges and the console are as before, and so
    is the degree of every id; the new node has degree 0. *)
Theorem addNode_round_trip (a : NodeArgs) (w : World) :
  wf w → arg_id a ∉ nodeIds (this w) →
  ∃ r n w',
    addNode a w = (Normal r, w') ∧
    nodeDictionary_get w' (arg_id a) = JNode r ∧
    heap w' !! r = Some n ∧
    nodes (this w') = nodes (this w) ++ [r] ∧
    nodeIds (this w') = nodeIds (this w) ++ [arg_id a] ∧
    GraphNode.id n = arg_id a ∧
    (∀ x, arg_x a = Some x → GraphNode.x n = x) ∧
    (∀ y, arg_y a = Some y → GraphNode.y n = y) ∧
    GraphNode.strokeColor n = default (primaryDark (this w)) (arg_strokeColor a) ∧
    GraphNode.fillColor n = default (primaryMid (this w)) (arg_fillColor a) ∧
    GraphNode.label n = default "" (arg_label a) ∧
    GraphNode.displayLabel n = default false (arg_displayLabel a) ∧
    GraphNode.weight n = 1%float ∧
    GraphNode.disp n = mkVector 0 0 ∧
    drawn w' = drawn w + (draws (arg_x a) + draws (arg_y a)) ∧
    (∀ i, i ∈ nodeIds (this w) →
          nodeDictionary_get w' i = nodeDictionary_get w i) ∧
    (arg_id a ≠ "__proto__" →
     ∀ i, i ≠ arg_id a →
          nodeDictionary_get w' i = nodeDictionary_get w i) ∧
    (∀ k, k < length (heap w) → heap w' !! k = heap w !! k) ∧
    edges (this w') = edges (this w) ∧
    console w' = console w ∧
    (∀ i, degree w' i = degree w i) ∧
    degree w' (arg_id a) = 0.
Proof.
  intros Hwf Hin.
  pose proof (addNode_new _ _ Hin) as E.
  match type of E with _ = (_, ?w0) => set (w' := w0) in * end.
  assert (Hwf' : wf w').
  { pose proof (addNode_wf a w Hwf) as H'. unfold exec in H'.
    by rewrite E in H'. }
  pose proof (wf_own_proto _ Hwf) as Hown.
  pose proof Hwf as (_ & He & _ & _ & _ & _ & Hp).
  assert (Hget : nodeDictionary_get w' (arg_id a) = JNode (length (heap w))).
  { by apply dictionary_get_set. }
  assert (Hlisted : ∀ i, i ∈ nodeIds (this w) →
            nodeDictionary_get w' i = nodeDictionary_get w i).
  { intros i Hi.
    pose proof Hi as [r Hr]%(wf_ids_dictionary _ _ Hwf). rewrite Hr.
    eapply dictionary_get_set_node; [done| |exact Hr]. by intros ->. }
  assert (Hnew : degree w' (arg_id a) = 0).
  { apply (degree_outside w' (heap w)); [exact He|].
    intros r. rewrite Hget. intros [= <-]. lia. }
  assert (Hold : ∀ i, i ∉ nodeIds (this w) → degree w i = 0).
  { intros i Hi. apply degree_outside_ends; [done|].
    intros r Hr. apply Hi, (wf_ids_dictionary _ _ Hwf). eauto. }
  eexists _, _, w'. split; [exact E|].
  split_and!; [exact Hget|by apply list_lookup_middle|try done..|exact Hnew].
  - by intros x ->.
  - by intros y ->.
  - intros Hproto i Hi. unfold nodeDictionary_get, w'.
    cbn [this heap set_this set_heap nodeDictionary set_nodeDictionary].
    rewrite dictionary_get_set_ne by done. by apply dictionary_get_app.
  - intros k Hk. unfold w'. simpl. by rewrite lookup_app_l.
  - intros i. destruct (decide (i ∈ nodeIds (this w))) as [Hi|Hi].
    + unfold degree. by rewrite (Hlisted i Hi).
    + rewrite (Hold i Hi).
      destruct (decide (i = arg_id a)) as [->|Hne]; [done|].
      apply degree_outside_ends; [done|].
      intros r Hr. apply Hi.
      assert (Hi' : i ∈ nodeIds (this w'))
        by (apply (wf_ids_dictionary _ _ Hwf'); eauto).
      unfold w' in Hi'. simpl in Hi'. set_solver.
Qed.

Lemma addNode_round_trip_witness :
  ∃ r n w',
    addNode (nodeAt "a" 100 100) (newWorld 0.5) = (Normal r, w') ∧
    nodeDictionary_get w' "a" = JNode r ∧
    heap w' !! r = Some n ∧
    GraphNode.id n = "a".
Proof.
  destruct (addNode_round_trip (nodeAt "a" 100 100) (newWorld 0.5))
    as (r & n & w' & E & Hd & Hh & _ & _ & Hi & _).
  - apply wf_newWorld.
  - simpl. apply not_elem_of_nil.
  - by exists r, n, w'.
Defined.

(** In a consistent store, two ids that lead to the same node are the
    same id. *)
Lemma store_inv_dictionary_inj (w : World) (i j : string) (r : ref) :
  store_inv w →
  nodeDictionary_get w i = JNode r →
  nodeDictionary_get w j = JNode r → i = j.
Proof.
  intros Hinv Hi Hj.
  assert (Hin : ∀ k, nodeDictionary_get w k = JNode r →
                     GraphNode.id <$> heap w !! r = Some k).
  { intros k Hk.
    assert (Hkin : k ∈ nodeIds (this w)).
    { apply (wf_ids_dictionary _ _ (store_inv_wf _ Hinv)). by exists r. }
    destruct (store_inv_lookup _ _ Hinv Hkin) as (r' & Hr' & _ & Hid).
    by assert (r' = r) as -> by congruence. }
  pose proof (Hin _ Hi). pose proof (Hin _ Hj). congruence.
Qed.

(** X5.  [addEdge] between two listed ids, in a consistent store: the
    call returns, writes nothing to the console and leaves the heap as it
    was; there is one more edge; the degree of each of the two ids is
    one more than before, also where the two are the same id, and the
    degree of every other id is as before; and [shortestPath] between
    the two is then 1 hop, or 0 where they are the same id. *)
Theorem addEdge_degree (s t : string) (w : World) :
  store_inv w → s ∈ nodeIds (this w) → t ∈ nodeIds (this w) →
  ∃ w',
    addEdge s t w = (Normal tt, w') ∧
    length (edges (this w')) = S (length (edges (this w))) ∧
    console w' = console w ∧
    heap w' = heap w ∧
    (∀ i, degree w' i =
          degree w i + (if bool_decide (i = s ∨ i = t) then 1 else 0)) ∧
    shortestPath w' s t =
      Some (Normal (if bool_decide (s = t) then 0 else 1)).
Proof.
  intros Hinv Hs Ht. eexists. split; [by apply addEdge_known|].
  destruct (store_inv_lookup _ _ Hinv Hs) as (a & Ha & _ & _).
  destruct (store_inv_lookup _ _ Hinv Ht) as (b & Hb & _ & _).
  rewrite Ha, Hb. cbn [toValue].
  set (es := edges (this w) ++ [mkEdge (Some a) (Some b)]).
  set (w' := set_this (set_edges es (this w)) w).
  assert (Hget : ∀ i, nodeDictionary_get w' i = nodeDictionary_get w i) by done.
  split_and!; try done.
  - unfold w', es. simpl. rewrite length_app. simpl. lia.
  - intros i. rewrite !degree_count, Hget.
    unfold w', es. cbn [this set_this edges set_edges].
    rewrite filter_app, length_app. f_equal.
    rewrite filter_cons, filter_nil.
    destruct (bool_decide (i = s ∨ i = t)) eqn:Hi.
    + apply bool_decide_eq_true in Hi. rewrite decide_True; [done|].
      apply containsNode_spec. simpl.
      destruct Hi as [->| ->]; rewrite ?Ha, ?Hb; eauto.
    + apply bool_decide_eq_false in Hi. rewrite decide_False; [done|].
      rewrite containsNode_spec. simpl. intros [E|E]; apply Hi;
        [left|right]; symmetry in E;
        eapply store_inv_dictionary_inj; eauto.
  - destruct (shortestPath_listed w' s t a b) as (r & -> & Hr);
      [by rewrite Hget..|].
    change (edges (this w')) with es in Hr.
    assert (Hd : distance es (Some a) (Some b)
                   (if bool_decide (s = t) then 0 else 1)).
    { destruct (bool_decide (s = t)) eqn:Hst.
      - apply bool_decide_eq_true in Hst. subst t.
        assert (b = a) as -> by congruence.
        split; [constructor|lia].
      - apply bool_decide_eq_false in Hst.
        assert (Hab : a ≠ b).
        { intros <-. apply Hst. by eapply store_inv_dictionary_inj. }
        split.
        + eapply walk_hop; [constructor|].
          exists (mkEdge (Some a) (Some b)). split; [|by left].
          unfold es. set_solver.
        + intros n Hn. destruct n; [|lia].
          inversion Hn. congruence. }
    destruct r as [d|m].
    + do 2 f_equal. by eapply distance_unique.
    + destruct Hr as [_ Hr]. exfalso. apply Hr. eexists. apply Hd.
Qed.

Lemma addEdge_degree_witness :
  degree (exec (addEdge "a" "a") singleNodeWorld) "a" = 1.
Proof.
  destruct (addEdge_degree "a" "a" singleNodeWorld)
    as (w' & E & _ & _ & _ & Hd & _).
  - apply store_inv_addNode.
    apply (store_inv_withoutContent (λ _, 0%float)
             (mkGraphArgs (mkCanvas 500 500) [] [] 1
                "#90a4ae" "#b0bec5" "#fce4ec" "#ffab91" "#f06292" "#9575cd")
             (newWorld 0.5)).
  - by apply includes_true.
  - by apply includes_true.
  - unfold exec. rewrite E. cbn [snd]. rewrite Hd. reflexivity.
Defined.

(** What a read of a dictionary without entries finds: the property of
    that name of [Object.prototype], if there is one. *)
Lemma emptyDictionary_get (h : list GraphNode.t) (key : string) :
  dictionary_get h emptyDictionary key =
  Object_prototype_get (JObject ObjectPrototype) key.
Proof. done. Qed.

Lemma Object_prototype_get_truthy (key : string) :
  truthy (Object_prototype_get (JObject ObjectPrototype) key)
  = bool_decide (key ∈ objectPrototypeNames).
Proof.
  unfold Object_prototype_get, objectPrototypeNames.
  repeat case_decide; subst; simpl; try done; exfalso; set_solver.
Qed.

Lemma Object_prototype_get_inj (s t : string) :
  s ∈ objectPrototypeNames → t ∈ objectPrototypeNames →
  strict_eq (Object_prototype_get (JObject ObjectPrototype) s)
            (Object_prototype_get (JObject ObjectPrototype) t)
  = bool_decide (s = t).
Proof.
  intros Hs Ht. unfold Object_prototype_get, objectPrototypeNames in *.
  destruct (decide (s = t)) as [->|Hne].
  - rewrite bool_decide_eq_true_2 by done.
    repeat case_decide; simpl; try done;
      try (by apply bool_decide_eq_true); exfalso; set_solver.
  - rewrite (bool_decide_eq_false_2 (s = t)) by done.
    repeat case_decide; subst; simpl; try done;
      try (apply bool_decide_eq_false; congruence); exfalso; set_solver.
Qed.

(** X6.  After [deleteAllNodes] the store is empty, whatever it held:
    the dictionary is a new object without entries, every id has
    degree 0, [findLargestComponent] returns the empty component,
    [averageDegree] is NaN, and every id is free again: [addNode]
    returns a node for any argument.  [shortestPath] throws the
    node-not-found error for every pair of ids of which one is not the
    name of a property of [Object.prototype]; between two such names,
    which the new dictionary inherits, it answers 0 if they are the
    same name and throws the path-not-found error if they are not.  The
    canvas, the palette and the console are as before. *)
Theorem deleteAllNodes_resets (w : World) :
  ∃ w',
    deleteAllNodes w = (Normal tt, w') ∧
    nodes (this w') = [] ∧ nodeIds (this w') = [] ∧
    edges (this w') = [] ∧ nodeDictionary (this w') = emptyDictionary ∧
    canvas (this w') = canvas (this w) ∧
    primaryDark (this w') = primaryDark (this w) ∧
    primaryMid (this w') = primaryMid (this w) ∧
    console w' = console w ∧
    (∀ i, degree w' i = 0) ∧
    (∀ s t, shortestPath w' s t =
            Some (if bool_decide (s ∈ objectPrototypeNames ∧
                                  t ∈ objectPrototypeNames)
                  then if bool_decide (s = t) then Normal 0
                       else Throw PathNotFoundError
                  else Throw NodeNotFoundError)) ∧
    findLargestComponent (this w') = Some [] ∧
    Math.isNaN (averageDegree w') = true ∧
    (∀ a, ∃ r w'', addNode a w' = (Normal r, w'')).
Proof.
  eexists. split; [reflexivity|].
  cbn [this set_this nodes nodeIds edges nodeDictionary canvas primaryDark
       primaryMid console set_nodes set_edges set_nodeIds set_nodeDictionary].
  split_and!; try done.
  - intros s t. rewrite shortestPath_cases. unfold nodeDictionary_get.
    cbn [this set_this nodeDictionary set_nodes set_edges set_nodeIds
         set_nodeDictionary edges].
    rewrite !emptyDictionary_get, !Object_prototype_get_truthy.
    destruct (decide (s ∈ objectPrototypeNames)) as [Hs|Hs];
      [rewrite (bool_decide_eq_true_2 _ Hs)
      |rewrite (bool_decide_eq_false_2 _ Hs)]; cbn [negb orb].
    2: { rewrite bool_decide_eq_false_2; [done|tauto]. }
    destruct (decide (t ∈ objectPrototypeNames)) as [Ht|Ht];
      [rewrite (bool_decide_eq_true_2 _ Ht)
      |rewrite (bool_decide_eq_false_2 _ Ht)]; cbn [negb orb].
    2: { rewrite bool_decide_eq_false_2; [done|tauto]. }
    rewrite bool_decide_eq_true_2 by done.
    rewrite <- (Object_prototype_get_inj s t) by done.
    destruct (Object_prototype_get (JObject ObjectPrototype) s)
      as [|r| | | |] eqn:Hg; try done.
    destruct (decide (s = "__proto__")) as [->|Hne]; [by vm_compute in Hg|].
    by apply Object_prototype_get_foreign in Hg.
  - intros a. do 2 eexists. apply addNode_new. simpl. apply not_elem_of_nil.
Qed.

(** * Further properties: the analyser *)

(** ** The sum of the degrees *)

Lemma foldl_add_ext {A} (f g : A → nat) (l : list A) (n : nat) :
  (∀ a, f a = g a) →
  foldl (λ t i, t + f i) n l = foldl (λ t i, t + g i) n l.
Proof.
  intros Hfg. revert n. induction l as [|a l IH]; intros n; [done|].
  simpl. by rewrite Hfg, IH.
Qed.

Lemma foldl_add_split {A} (f g : A → nat) (l : list A) :
  ∀ n m,
  foldl (λ t i, t + (f i + g i)) (n + m) l =
  foldl (λ t i, t + f i) n l + foldl (λ t i, t + g i) m l.
Proof.
  induction l as [|a l IH]; intros n m; [done|].
  simpl. rewrite <- IH. f_equal. lia.
Qed.

Lemma foldl_add_indicator {A} (P : A → Prop) `{∀ a, Decision (P a)}
    (l : list A) :
  ∀ n, foldl (λ t i, t + (if decide (P i) then 1 else 0)) n l =
       n + length (filter P l).
Proof.
  induction l as [|a l IH]; intros n; [simpl; lia|].
  simpl. rewrite IH, filter_cons. destruct (decide (P a)); simpl; lia.
Qed.

(** Counting, for every id, the edges that contain its node is counting,
    for every edge, the ids whose node it contains. *)
Lemma degree_sum_edges (D : string → jsval) (ids : list string)
    (es : list Edge) :
  foldl (λ t i, t + length (filter (λ e, containsNode e (D i) = true) es))
        0 ids =
  foldl (λ t e, t + length (filter (λ i, containsNode e (D i) = true) ids))
        0 es.
Proof.
  induction es as [|e es IH].
  { simpl. induction ids as [|i ids IHi]; [done|]. simpl. exact IHi. }
  simpl.
  rewrite (foldl_add_ext _
    (λ i, (if decide (containsNode e (D i) = true) then 1 else 0) +
          length (filter (λ e, containsNode e (D i) = true) es))).
  2: { intros i. rewrite filter_cons.
       by destruct (decide (containsNode e (D i) = true)). }
  rewrite (foldl_add_split _ _ ids 0 0), IH, foldl_add_indicator. simpl.
  set (k := length (filter (λ i, containsNode e (D i) = true) ids)).
  clearbody k. clear. revert k.
  assert (Hshift : ∀ (l : list Edge) (f : Edge → nat) n k,
            n + foldl (λ t e, t + f e) k l = foldl (λ t e, t + f e) (n + k) l).
  { induction l as [|a l IHl]; intros f n k; [done|].
    simpl. rewrite IHl. f_equal. lia. }
  intros k. rewrite Hshift. f_equal. lia.
Qed.

(** In a list without duplicates, two of its elements are found once
    each, or once in all where they are the same. *)
Lemma count_two (l : list ref) (a b : ref) :
  NoDup l → a ∈ l → b ∈ l →
  length (filter (λ r, r = a ∨ r = b) l) + (if decide (a = b) then 1 else 0) = 2.
Proof.
  intros Hnd Ha Hb.
  assert (Hp : filter (λ r, r = a ∨ r = b) l ≡ₚ remove_dups [a; b]).
  { apply NoDup_Permutation.
    - by apply NoDup_filter.
    - apply NoDup_remove_dups.
    - intros r. rewrite list_elem_of_filter, elem_of_remove_dups.
      set_solver. }
  rewrite Hp. cbn [remove_dups].
  destruct (decide_rel (∈) a [b]) as [Hin|Hin],
           (decide_rel (∈) b []) as [Hin'|Hin'], (decide (a = b)) as [E|E];
    simpl; first [done | set_solver].
Qed.

Lemma count_ids_nodes (w : World) (e : Edge) (a b : ref) :
  store_inv w → source e = Some a → target e = Some b →
  length (filter (λ i, containsNode e (nodeDictionary_get w i) = true)
                 (nodeIds (this w))) =
  length (filter (λ r, r = a ∨ r = b) (nodes (this w))).
Proof.
  intros (_ & _ & Hf & _) Ha Hb.
  induction Hf as [|i r ids rs [Hd _] _ IH]; [done|].
  rewrite !filter_cons, Hd.
  destruct (decide (r = a ∨ r = b)) as [Hr|Hr].
  - rewrite decide_True; [simpl; by rewrite IH|].
    apply containsNode_spec. rewrite Ha, Hb. simpl.
    destruct Hr as [->| ->]; eauto.
  - rewrite decide_False; [done|].
    rewrite containsNode_spec, Ha, Hb. simpl.
    intros [E|E]; apply Hr; naive_solver.
Qed.

Lemma store_inv_built (w : World) : built w → store_inv w.
Proof.
  induction 1 as [c rnd|a w _ IH|s t w _ IH|w _ _].
  - split; [apply wf_emptyGraph|]. simpl. split_and!; constructor.
  - by apply store_inv_addNode.
  - by apply store_inv_addEdge.
  - apply store_inv_deleteAllNodes.
Qed.

Lemma store_inv_loopWorld : store_inv loopWorld.
Proof. apply store_inv_built. do 2 constructor. apply built_new. Qed.

Lemma store_inv_pairWorld : store_inv pairWorld.
Proof. apply store_inv_built. do 3 constructor. apply built_new. Qed.

(** X7.  The degrees add up to twice the number of edges, less the
    number of edges from a node to itself, in every consistent store:
    an edge counts for each of its two ends, and once only where the two
    are the same node.  [averageDegree] is therefore that number divided
    by the number of nodes and by 2. *)
Theorem degree_sum (w : World) :
  store_inv w →
  foldl (λ runningTotal nodeId, runningTotal + degree w nodeId) 0
        (nodeIds (this w)) +
  length (filter (λ e, source e = target e) (edges (this w))) =
  2 * length (edges (this w)) ∧
  averageDegree w =
  (number_of_nat (2 * length (edges (this w)) -
                  length (filter (λ e, source e = target e) (edges (this w)))) /
   number_of_nat (length (nodeIds (this w))) / 2)%float.
Proof.
  intros Hinv.
  assert (Hsum :
    foldl (λ runningTotal nodeId, runningTotal + degree w nodeId) 0
          (nodeIds (this w)) +
    length (filter (λ e, source e = target e) (edges (this w))) =
    2 * length (edges (this w))).
  { rewrite (foldl_add_ext _ _ _ _ (degree_count w)).
    rewrite (degree_sum_edges (nodeDictionary_get w)).
    pose proof Hinv as (_ & Hnd & _ & He).
    assert (Hshift : ∀ (l : list Edge) (f : Edge → nat) n k,
              n + foldl (λ t e, t + f e) k l = foldl (λ t e, t + f e) (n + k) l).
    { induction l as [|a l IHl]; intros f n k; [done|].
      simpl. rewrite IHl. f_equal. lia. }
    induction He as [|e es (a & b & Ha & Hb & Hain & Hbin) _ IH]; [done|].
    cbn [foldl length]. rewrite filter_cons.
    rewrite (count_ids_nodes _ _ _ _ Hinv Ha Hb).
    pose proof (count_two _ _ _ Hnd Hain Hbin) as Hc.
    rewrite (Nat.add_comm 0), <- Hshift.
    destruct (decide (source e = target e)) as [E|E].
    - rewrite decide_True in Hc by congruence. cbn [length]. lia.
    - rewrite decide_False in Hc by congruence. lia. }
  split; [exact Hsum|].
  unfold averageDegree.
  destruct Hinv as (_ & _ & Hf & _).
  rewrite <- (Forall2_length _ _ _ Hf). do 3 f_equal. lia.
Qed.

Lemma degree_sum_witness :
  foldl (λ runningTotal nodeId, runningTotal + degree loopWorld nodeId) 0
        (nodeIds (this loopWorld)) + 1 = 2.
Proof.
  destruct (degree_sum loopWorld store_inv_loopWorld) as [H _].
  exact H.
Defined.

(** ** Shortest paths are a metric *)

Lemma adjacent_sym (es : list Edge) (u v : value) :
  adjacent es u v → adjacent es v u.
Proof. intros (e & He & H). exists e. split; [done|]. tauto. Qed.

Lemma walk_trans (es : list Edge) (a b c : value) (n m : nat) :
  walk es a n b → walk es b m c → walk es a (n + m) c.
Proof.
  intros Hab Hbc. induction Hbc as [|m u v _ IH Huv].
  - by rewrite Nat.add_0_r.
  - rewrite Nat.add_succ_r. by eapply walk_hop.
Qed.

Lemma walk_sym (es : list Edge) (a b : value) (n : nat) :
  walk es a n b → walk es b n a.
Proof.
  induction 1 as [|n u v _ IH Huv]; [constructor|].
  change (S n) with (1 + n). eapply walk_trans; [|exact IH].
  eapply walk_hop; [constructor|by apply adjacent_sym].
Qed.

Lemma distance_sym (es : list Edge) (a b : value) (d : nat) :
  distance es a b d → distance es b a d.
Proof.
  intros [Hw Hmin]. split; [by apply walk_sym|].
  intros n Hn. by apply Hmin, walk_sym.
Qed.

(** [shortestPath] answers by what the two reads of the dictionary
    give. *)
Lemma shortestPath_by_reads (w w' : World) (s t s' t' : string) :
  edges (this w') = edges (this w) →
  nodeDictionary_get w' s' = nodeDictionary_get w s →
  nodeDictionary_get w' t' = nodeDictionary_get w t →
  shortestPath w' s' t' = shortestPath w s t.
Proof. intros He Hs Ht. unfold shortestPath. by rewrite He, Hs, Ht. Qed.

(** Between two reads that give the same value, one that counts as
    true, the answer is 0. *)
Lemma shortestPath_same (w : World) (s t : string) :
  truthy (nodeDictionary_get w s) = true →
  nodeDictionary_get w t = nodeDictionary_get w s →
  shortestPath w s t = Some (Normal 0).
Proof.
  intros Hs Ht. unfold shortestPath. rewrite Ht, Hs. cbn [negb orb].
  replace (searchFuel (edges (this w)))
    with (S (2 * length (edges (this w)) + 2)) by (unfold searchFuel; lia).
  cbn [breadthFirstSearch node depth]. by rewrite strict_eq_refl.
Qed.

(** An answer that is a number of hops is an answer between two ids for
    which the dictionary gives a node, or the answer 0 between two reads
    that give the same value through the prototype chain. *)
Lemma shortestPath_Normal (w : World) (s t : string) (d : nat) :
  shortestPath w s t = Some (Normal d) →
  (∃ a b, nodeDictionary_get w s = JNode a ∧ nodeDictionary_get w t = JNode b ∧
          distance (edges (this w)) (Some a) (Some b) d) ∨
  (foreign (nodeDictionary_get w s) ∧ truthy (nodeDictionary_get w s) = true ∧
   nodeDictionary_get w t = nodeDictionary_get w s ∧ d = 0).
Proof.
  intros H. pose proof H as H'. rewrite shortestPath_cases in H'.
  cbv zeta in H'.
  destruct (truthy (nodeDictionary_get w s)) eqn:Hs; [|done].
  destruct (truthy (nodeDictionary_get w t)) eqn:Ht;
    [|by rewrite orb_true_r in H'].
  cbn [negb orb] in H'.
  destruct (truthy_cases _ Hs) as [[a Ha]|Hfs].
  - destruct (truthy_cases _ Ht) as [[b Hb]|Hft].
    + left. exists a, b. split_and!; [done..|].
      destruct (shortestPath_listed w s t a b Ha Hb) as (r & Hr & Hspec).
      rewrite H in Hr. by injection Hr as <-.
    + rewrite Ha in H'.
      destruct (nodeDictionary_get w t) as [|r| | | |]; try done.
      by destruct (Hft (Some r)).
  - right.
    assert (Hst : strict_eq (nodeDictionary_get w s) (nodeDictionary_get w t)
                  = true ∧ d = 0).
    { destruct (nodeDictionary_get w s) as [|r| | | |];
        [by destruct (Hfs None)|by destruct (Hfs (Some r))|..];
        destruct (strict_eq _ _); try done; by injection H' as <-. }
    destruct Hst as [Hst ->]. apply strict_eq_truthy in Hst; [|done].
    by rewrite <- Hst.
Qed.

(** X25.  [shortestPath] between listed ids, in a well-formed world.
    For two listed ids the dictionary gives two nodes, and
    [shortestPath] gives an answer; the answer is [d] exactly when [d]
    is the least number of hops of a walk from the start node to the
    end node along edges taken in either direction, so it is 0 from an
    id to itself; and it is the path-not-found error exactly when no
    walk leads from the start node to the end node.  Where the store
    lists no id [__proto__], and one of the two ids is neither listed
    nor the name of a property of [Object.prototype], the answer is the
    node-not-found error. *)
Theorem shortestPath_between_listed (w : World) (startId endId : string) :
  wf w →
  (startId ∈ nodeIds (this w) → endId ∈ nodeIds (this w) →
   ∃ a b,
     nodeDictionary_get w startId = JNode a ∧
     nodeDictionary_get w endId = JNode b ∧
     (∃ r, shortestPath w startId endId = Some r) ∧
     (∀ d, shortestPath w startId endId = Some (Normal d) ↔
           distance (edges (this w)) (Some a) (Some b) d) ∧
     (shortestPath w startId endId = Some (Throw PathNotFoundError) ↔
      ¬ reachable (edges (this w)) (Some a) (Some b)) ∧
     (startId = endId → shortestPath w startId endId = Some (Normal 0))) ∧
  ("__proto__" ∉ nodeIds (this w) →
   ((startId ∉ nodeIds (this w)) ∧ (startId ∉ objectPrototypeNames)) ∨
   ((endId ∉ nodeIds (this w)) ∧ (endId ∉ objectPrototypeNames)) →
   shortestPath w startId endId = Some (Throw NodeNotFoundError)).
Proof.
  intros Hwf. split.
  - intros [a Ha]%(wf_ids_dictionary _ _ Hwf) [b Hb]%(wf_ids_dictionary _ _ Hwf).
    exists a, b. split; [done|]. split; [done|].
    destruct (shortestPath_listed w startId endId a b Ha Hb)
      as (r & Hr & Hspec).
    rewrite Hr.
    assert (Hd : ∀ d, Some r = Some (Normal d) ↔
                      distance (edges (this w)) (Some a) (Some b) d).
    { intros d. split.
      - intros [= ->]. exact Hspec.
      - intros Hdist. destruct r as [d'|m].
        + by rewrite (distance_unique _ _ _ _ _ Hspec Hdist).
        + destruct Hspec as [_ Hno]. destruct Hno. exists d. apply Hdist. }
    split_and!; [by exists r|exact Hd| |].
    + split.
      * intros [= ->]. apply Hspec.
      * intros Hno. destruct r as [d'|m].
        -- destruct Hno. exists d'. apply Hspec.
        -- destruct Hspec as [-> _]. done.
    + intros ->. apply Hd. assert (b = a) as -> by congruence.
      split; [constructor|lia].
  - intros Hproto Hids.
    assert (Hp : prototype (nodeDictionary (this w)) = None).
    { destruct Hwf as (_ & _ & _ & _ & _ & Hp & _).
      destruct (prototype (nodeDictionary (this w))); [|done].
      destruct Hproto. apply Hp. eauto. }
    assert (Hfalse : ∀ i, i ∉ nodeIds (this w) → i ∉ objectPrototypeNames →
              truthy (nodeDictionary_get w i) = false).
    { intros i Hi Hn. unfold nodeDictionary_get, dictionary_get.
      destruct (own (nodeDictionary (this w)) !! i) as [r|] eqn:Hown.
      - destruct Hi. apply (wf_ids_dictionary _ _ Hwf). exists r.
        by apply dictionary_get_own.
      - rewrite Hp, Object_prototype_get_truthy.
        by apply bool_decide_eq_false. }
    unfold shortestPath.
    destruct Hids as [[Hi Hn]|[Hi Hn]]; rewrite (Hfalse _ Hi Hn); [done|].
    by rewrite orb_true_r.
Qed.

Lemma shortestPath_between_listed_witness :
  ∃ a b,
    nodeDictionary_get pathWorld "A" = JNode a ∧
    nodeDictionary_get pathWorld "C" = JNode b ∧
    shortestPath pathWorld "A" "C" = Some (Normal 2) ∧
    distance (edges (this pathWorld)) (Some a) (Some b) 2.
Proof.
  assert (Hwf : wf pathWorld) by (apply built_wf; repeat constructor).
  assert (Ha : "A" ∈ nodeIds (this pathWorld)) by by apply includes_true.
  assert (Hc : "C" ∈ nodeIds (this pathWorld)) by by apply includes_true.
  assert (Hsp : shortestPath pathWorld "A" "C" = Some (Normal 2))
    by (vm_compute; reflexivity).
  destruct (shortestPath_between_listed pathWorld "A" "C" Hwf) as [H _].
  destruct (H Ha Hc) as (a & b & Ea & Eb & _ & Hd & _).
  exists a, b. split; [exact Ea|]. split; [exact Eb|]. split; [exact Hsp|].
  apply Hd. exact Hsp.
Defined.

(** X8.  [shortestPath] is symmetric: from [endId] to [startId] it gives
    what it gives from [startId] to [endId], the same number of hops or
    the same error, whatever the direction of the edges. *)
Theorem shortestPath_symmetric (w : World) (startId endId : string) :
  shortestPath w startId endId = shortestPath w endId startId.
Proof.
  rewrite (shortestPath_cases w startId endId),
          (shortestPath_cases w endId startId). cbv zeta.
  generalize (nodeDictionary_get w startId) (nodeDictionary_get w endId).
  intros A B. rewrite (orb_comm (negb (truthy B))).
  destruct (negb (truthy A) || negb (truthy B)); [done|].
  rewrite (strict_eq_sym B A).
  destruct A as [|x|?|?|?|?], B as [|y|?|?|?|?]; try done.
  destruct (searchBetween_from_start (edges (this w)) (Some x) (Some y))
    as (r1 & -> & H1).
  destruct (searchBetween_from_start (edges (this w)) (Some y) (Some x))
    as (r2 & -> & H2).
  f_equal. destruct r1 as [d1|m1], r2 as [d2|m2].
  - f_equal. eapply distance_unique; [by apply distance_sym|done].
  - destruct H2 as [_ H2]. exfalso. apply H2. exists d1.
    apply walk_sym, H1.
  - destruct H1 as [_ H1]. exfalso. apply H1. exists d2.
    apply walk_sym, H2.
  - destruct H1 as [-> _], H2 as [-> _]. done.
Qed.

(** X9.  The triangle inequality: where [shortestPath] answers [d1] from
    [a] to [b] and [d2] from [b] to [c], it answers a number of hops from
    [a] to [c], and at most [d1 + d2]. *)
Theorem shortestPath_triangle (w : World) (a b c : string) (d1 d2 : nat) :
  shortestPath w a b = Some (Normal d1) →
  shortestPath w b c = Some (Normal d2) →
  ∃ d, shortestPath w a c = Some (Normal d) ∧ d ≤ d1 + d2.
Proof.
  intros [(x & y & Hx & Hy & [Hxy _])|(Hfa & Hta & Hb & ->)]%shortestPath_Normal
         [(y' & z & Hy' & Hz & [Hyz _])|(Hfb & Htb & Hc & ->)]%shortestPath_Normal.
  - assert (y' = y) as -> by congruence.
    pose proof (walk_trans _ _ _ _ _ _ Hxy Hyz) as Hxz.
    destruct (shortestPath_listed w a c x z Hx Hz) as (r & -> & Hr).
    destruct r as [d|m].
    + exists d. split; [done|]. by apply Hr.
    + destruct Hr as [_ Hr]. exfalso. apply Hr. by eexists.
  - rewrite Hy in Hfb. by destruct (Hfb (Some y)).
  - rewrite <- Hb, Hy' in Hfa. by destruct (Hfa (Some y')).
  - exists 0. split; [|lia]. apply shortestPath_same; [done|congruence].
Qed.

Lemma shortestPath_triangle_witness :
  ∃ d, shortestPath pathWorld "A" "C" = Some (Normal d) ∧ d ≤ 1 + 1.
Proof.
  apply (shortestPath_triangle pathWorld "A" "B" "C" 1 1);
    vm_compute; reflexivity.
Defined.

(** The answers 0 and 1 of [shortestPath] in a consistent store. *)
Lemma shortestPath_zero_one (w : World) (s t : string) :
  store_inv w →
  (shortestPath w s t = Some (Normal 0) ↔
   truthy (nodeDictionary_get w s) = true ∧
   nodeDictionary_get w t = nodeDictionary_get w s) ∧
  (s ∈ nodeIds (this w) ∨ t ∈ nodeIds (this w) →
   (shortestPath w s t = Some (Normal 0) ↔ s = t)) ∧
  (shortestPath w s t = Some (Normal 1) ↔
   s ≠ t ∧ ∃ a b, nodeDictionary_get w s = JNode a ∧
                  nodeDictionary_get w t = JNode b ∧
                  adjacent (edges (this w)) (Some a) (Some b)) ∧
  (∀ d, shortestPath w s t = Some (Normal d) → 0 < d →
        s ∈ nodeIds (this w) ∧ t ∈ nodeIds (this w)).
Proof.
  intros Hinv.
  assert (Hzero : shortestPath w s t = Some (Normal 0) ↔
            truthy (nodeDictionary_get w s) = true ∧
            nodeDictionary_get w t = nodeDictionary_get w s).
  { split.
    - intros [(a & b & Ha & Hb & [Hw _])|(_ & Ht & Hst & _)]%shortestPath_Normal;
        [|done].
      inversion Hw as [E|]. rewrite Ha, Hb. split; [done|congruence].
    - intros [Hs Ht]. by apply shortestPath_same. }
  split_and!; [exact Hzero| | |].
  - intros Hlisted. rewrite Hzero. split.
    + intros [_ Hst].
      destruct Hlisted
        as [[r Hr]%(wf_ids_dictionary _ _ (store_inv_wf _ Hinv))
           |[r Hr]%(wf_ids_dictionary _ _ (store_inv_wf _ Hinv))].
      * eapply store_inv_dictionary_inj; [done|exact Hr|congruence].
      * eapply store_inv_dictionary_inj; [done|by rewrite <- Hst, Hr|exact Hr].
    + intros <-. split; [|done].
      destruct Hlisted
        as [[r Hr]%(wf_ids_dictionary _ _ (store_inv_wf _ Hinv))
           |[r Hr]%(wf_ids_dictionary _ _ (store_inv_wf _ Hinv))];
        by rewrite Hr.
  - split.
    + intros [(a & b & Ha & Hb & [Hw Hmin])|(_ & _ & _ & ?)]%shortestPath_Normal;
        [|done].
      inversion Hw as [|n u v Hu Huv]; subst. inversion Hu; subst.
      split; [|by exists a, b].
      intros <-. assert (a = b) as -> by congruence.
      specialize (Hmin 0 (walk_here _ _)). lia.
    + intros (Hne & a & b & Ha & Hb & Hadj).
      destruct (shortestPath_listed _ _ _ _ _ Ha Hb) as (r & -> & Hr).
      assert (Hd : distance (edges (this w)) (Some a) (Some b) 1).
      { split; [eapply walk_hop; [constructor|done]|].
        intros [|n] Hn; [|lia].
        assert (a = b) as -> by (inversion Hn; congruence).
        exfalso. apply Hne. by eapply store_inv_dictionary_inj. }
      destruct r as [d|m].
      * do 2 f_equal. by eapply distance_unique.
      * destruct Hr as [_ Hr]. exfalso. apply Hr. exists 1. apply Hd.
  - intros d [(a & b & Ha & Hb & _)|(_ & _ & _ & ->)]%shortestPath_Normal Hd;
      [|lia].
    split; apply (wf_ids_dictionary _ _ (store_inv_wf _ Hinv)); eauto.
Qed.

(** X10.  The shortest paths of 0 and of 1 hop, in a consistent store.
    [shortestPath] answers 0 exactly when the two reads of the
    dictionary give the same value and that value counts as true; where
    one of the two ids is listed, that is exactly from the id to
    itself.  It answers 1 exactly between two different ids for which
    the dictionary gives nodes that an edge joins, in either direction.
    A positive number of hops is only ever answered between two listed
    ids. *)
Theorem shortestPath_near (w : World) (s t : string) :
  store_inv w →
  (shortestPath w s t = Some (Normal 0) ↔
   truthy (nodeDictionary_get w s) = true ∧
   nodeDictionary_get w t = nodeDictionary_get w s) ∧
  (s ∈ nodeIds (this w) ∨ t ∈ nodeIds (this w) →
   (shortestPath w s t = Some (Normal 0) ↔ s = t)) ∧
  (shortestPath w s t = Some (Normal 1) ↔
   s ≠ t ∧ ∃ a b, nodeDictionary_get w s = JNode a ∧
                  nodeDictionary_get w t = JNode b ∧
                  adjacent (edges (this w)) (Some a) (Some b)) ∧
  (∀ d, shortestPath w s t = Some (Normal d) → 0 < d →
        s ∈ nodeIds (this w) ∧ t ∈ nodeIds (this w)).
Proof. apply shortestPath_zero_one. Qed.

Lemma shortestPath_near_witness :
  shortestPath pairWorld "a" "a" = Some (Normal 0).
Proof.
  destruct (shortestPath_near pairWorld "a" "a" store_inv_pairWorld)
    as (_ & H & _).
  apply H; [left; by apply includes_true|reflexivity].
Defined.

Lemma adjacent_mono (es es' : list Edge) (u v : value) :
  (∀ e, e ∈ es → e ∈ es') → adjacent es u v → adjacent es' u v.
Proof. intros Hsub (e & He & H). exists e. split; [by apply Hsub|done]. Qed.

Lemma walk_mono (es es' : list Edge) (s v : value) (n : nat) :
  (∀ e, e ∈ es → e ∈ es') → walk es s n v → walk es' s n v.
Proof.
  intros Hsub. induction 1 as [|n u v _ IH Huv]; [constructor|].
  eapply walk_hop; [exact IH|by eapply adjacent_mono].
Qed.

(** X11.  A call of [addEdge] never lengthens a shortest path and never
    cuts one: where [shortestPath] answered [d] between two ids before
    the call, it answers a number that is at most [d] after it, whatever
    the two ids given to [addEdge] are, listed or not. *)
Theorem addEdge_shortestPath (a b s t : string) (d : nat) (w : World) :
  shortestPath w s t = Some (Normal d) →
  ∃ d', shortestPath (exec (addEdge a b) w) s t = Some (Normal d') ∧
        d' ≤ d.
Proof.
  assert (Hdict : ∀ i, nodeDictionary_get (exec (addEdge a b) w) i =
                       nodeDictionary_get w i).
  { intros i. unfold exec, addEdge, bind, get.
    by destruct (includes (nodeIds (this w)) a),
                (includes (nodeIds (this w)) b). }
  assert (Hsub : ∀ e, e ∈ edges (this w) →
                      e ∈ edges (this (exec (addEdge a b) w))).
  { intros e He. unfold exec, addEdge, bind, get.
    destruct (includes (nodeIds (this w)) a),
             (includes (nodeIds (this w)) b); simpl; set_solver. }
  intros [(x & y & Hx & Hy & [Hw _])|(_ & Hs & Ht & _)]%shortestPath_Normal.
  - destruct (shortestPath_listed (exec (addEdge a b) w) s t x y)
      as (r & -> & Hr); [by rewrite Hdict..|].
    pose proof (walk_mono _ _ _ _ _ Hsub Hw) as Hw'.
    destruct r as [d'|m].
    + exists d'. split; [done|]. by apply Hr.
    + destruct Hr as [_ Hr]. exfalso. apply Hr. by exists d.
  - exists 0. split; [|lia]. apply shortestPath_same; by rewrite !Hdict.
Qed.

Lemma addEdge_shortestPath_witness :
  ∃ d', shortestPath (exec (addEdge "A" "C") pathWorld) "A" "C"
        = Some (Normal d') ∧ d' ≤ 2.
Proof.
  apply (addEdge_shortestPath "A" "C" "A" "C" 2 pathWorld).
  vm_compute. reflexivity.
Defined.

(** ** The component of a node *)

Lemma origin_inv_step (edges : list Edge) (s : value)
    (P rest : list QueueEntry) (c : list value) (x : QueueEntry)
    (q' : list QueueEntry) (c' : list value) :
  origin_inv edges s P (x :: rest) c →
  foldl (enqueue (depth x)) (rest, c) (nextLevelNodes edges (node x)) = (q', c') →
  origin_inv edges s (P ++ [x]) q' c'.
Proof.
  intros [Hcov Hq Hadj Hent Hstart Hnd] Hfold.
  destruct (enqueue_fold (depth x) (nextLevelNodes edges (node x)) rest c)
    as (news & E & Hnews & Hall & Hnd').
  rewrite E in Hfold. injection Hfold as <- <-.
  rewrite Forall_forall in Hnews.
  assert (Hx : reachable edges s (node x)) by (apply Hq; set_solver).
  assert (Hnew : ∀ y, y ∈ news → reachable edges s (node y)).
  { intros y Hy. destruct (Hnews _ Hy) as (_ & Hy' & _).
    destruct Hx as [n Hn]. exists (S n).
    eapply walk_hop; [exact Hn|]. by apply nextLevelNodes_adjacent. }
  split.
  - intros v [Hv|Hv]%elem_of_app; [by apply Hcov|].
    apply list_elem_of_In, in_map_iff in Hv as (y & <- & Hy).
    apply list_elem_of_In in Hy. by apply Hnew.
  - intros y Hy.
    assert (Hy' : y ∈ P ++ x :: rest ∨ y ∈ news) by set_solver.
    destruct Hy' as [Hy'|Hy']; [by apply Hq|by apply Hnew].
  - intros p v [Hp|Hp%list_elem_of_singleton]%elem_of_app Hv.
    + apply elem_of_app. left. by eapply Hadj.
    + subst p. by apply Hall, nextLevelNodes_adjacent.
  - intros v [Hv|Hv]%elem_of_app.
    + destruct (Hent _ Hv) as (y & Hy & <-). exists y. set_solver.
    + apply list_elem_of_In, in_map_iff in Hv as (y & <- & Hy).
      apply list_elem_of_In in Hy. exists y. set_solver.
  - set_solver.
  - apply NoDup_app. split_and!; [done| |done].
    intros v Hv Hv'.
    apply list_elem_of_In, in_map_iff in Hv' as (y & <- & Hy).
    apply list_elem_of_In in Hy. by destruct (Hnews _ Hy) as (_ & _ & ?).
Qed.

Lemma origin_inv_sound (edges : list Edge) (s : value) (fuel : nat) :
  ∀ (P q : list QueueEntry) (c r : list value),
  origin_inv edges s P q c →
  connectedComponentMapBF fuel edges q c = Some r →
  NoDup r ∧ ∀ v, v ∈ r ↔ reachable edges s v.
Proof.
  induction fuel as [|fuel IH]; intros P q c r Hinv; simpl; [done|].
  destruct q as [|x rest].
  - intros [= <-]. destruct Hinv as [Hcov _ Hadj Hent Hstart Hnd].
    rewrite app_nil_r in *. split; [done|]. intros v. split; [by apply Hcov|].
    intros [n Hn].
    induction Hn as [|m u v Hu IHu Huv]; [done|].
    destruct (Hent u IHu) as (y & Hy & <-). by eapply Hadj.
  - destruct (foldl _ _ _) as [q' c'] eqn:Hfold.
    apply (IH (P ++ [x])). by eapply origin_inv_step.
Qed.

(** X12.  [connectedComponentMapBF] used as its comment asks, with the
    origin in the queue and in the covered list, returns the connected
    component of the origin: every node joined to the origin by a chain
    of edges, in whatever direction, and the origin itself, each once
    and the origin first.  The search ends within the number of calls
    that [searchFuel] allows, also where edges form cycles. *)
Theorem connectedComponentMapBF_component (edges : list Edge) (s : value) :
  ∃ r, connectedComponentMapBF (searchFuel edges) edges [mkEntry s 0] [s]
       = Some r ∧
       NoDup r ∧ head r = Some s ∧ ∀ v, v ∈ r ↔ reachable edges s v.
Proof.
  destruct (connectedComponentMapBF_ends edges (searchFuel edges)
              [mkEntry s 0] [s]) as [r Hr].
  { pose proof (searchFuel_enough edges (mkEntry s 0)) as Hfuel.
    unfold uncovered in *. cbn [length] in *.
    match goal with
    | |- context [length (filter ?P ?l)] => pose proof (length_filter P l)
    end.
    pose proof (length_endpoints edges). unfold searchFuel. lia. }
  exists r. split; [done|].
  assert (Hsound : NoDup r ∧ ∀ v, v ∈ r ↔ reachable edges s v).
  { eapply (origin_inv_sound edges s _ []); [|exact Hr].
    split.
    - intros v Hv%list_elem_of_singleton. subst v. exists 0. constructor.
    - intros x Hx%list_elem_of_singleton. subst x. exists 0. constructor.
    - intros p v Hp. by apply elem_of_nil in Hp.
    - intros v Hv%list_elem_of_singleton. subst v.
      exists (mkEntry s 0). set_solver.
    - set_solver.
    - apply NoDup_singleton. }
  split_and!; [apply Hsound| |apply Hsound].
  assert (Hpre : ∀ fuel q c r',
            connectedComponentMapBF fuel edges q c = Some r' →
            ∃ c', r' = c ++ c').
  { induction fuel as [|fuel IH]; intros q c r'; simpl; [done|].
    destruct q as [|x rest].
    - intros [= <-]. exists []. by rewrite app_nil_r.
    - destruct (enqueue_fold (depth x) (nextLevelNodes edges (node x)) rest c)
        as (news & E & _). rewrite E.
      intros (c' & ->)%IH. eexists. by rewrite <- (assoc_L (++)). }
  destruct (Hpre _ _ _ _ Hr) as (c' & ->). done.
Qed.

(** ** The largest component *)

(** The second loop of [findLargestComponent] keeps the first of the
    longest lists. *)
Lemma largest_spec (comps : list (list value)) :
  ∀ l0,
  let r := foldl (λ largestComponent component,
                    if Nat.ltb (length largestComponent) (length component)
                    then component else largestComponent) l0 comps in
  (r = l0 ∨ r ∈ comps) ∧ length l0 ≤ length r ∧
  ∀ c, c ∈ comps → length c ≤ length r.
Proof.
  induction comps as [|c comps IH]; intros l0; cbn zeta.
  { split_and!; [by left|done|]. intros c Hc. by apply elem_of_nil in Hc. }
  cbn [foldl].
  destruct (Nat.ltb_spec (length l0) (length c)) as [Hlt|Hge].
  - destruct (IH c) as (Hr & Hlen & Hall). split_and!.
    + right. destruct Hr as [-> | Hr]; set_solver.
    + lia.
    + intros c' [->|Hc']%elem_of_cons; [done|by apply Hall].
  - destruct (IH l0) as (Hr & Hlen & Hall). split_and!.
    + destruct Hr as [-> | Hr]; [by left|right; set_solver].
    + done.
    + intros c' [->|Hc']%elem_of_cons; [lia|by apply Hall].
Qed.

(** The first loop of [findLargestComponent]: it ends, every component
    it adds is the set of the nodes reached in one hop or more from a
    node of the array, and every node of the array has its component
    added or is in a component that was there or was added. *)
Lemma collectComponents_spec (edges : list Edge) (nodes : list ref) :
  ∀ (rc : list value) (comps : list (list value)),
  (∀ v, v ∈ rc → ∃ c, c ∈ comps ∧ v ∈ c) →
  ∃ comps',
    collectComponents edges nodes rc comps = Some (comps ++ comps') ∧
    Forall (λ c, ∃ node, node ∈ nodes ∧ NoDup c ∧
                 ∀ v, v ∈ c ↔ ∃ n, walk edges (Some node) (S n) v) comps' ∧
    ∀ node, node ∈ nodes →
      ∃ c, c ∈ comps ++ comps' ∧
           (Some node ∈ c ∨ ∀ v, v ∈ c ↔ ∃ n, walk edges (Some node) (S n) v).
Proof.
  induction nodes as [|r nodes IH]; intros rc comps Hrc.
  { exists []. rewrite app_nil_r. split_and!; [done|constructor|].
    intros node Hn. by apply elem_of_nil in Hn. }
  cbn [collectComponents].
  destruct (includes rc (Some r)) eqn:Hin; cbn [negb].
  - apply includes_true in Hin.
    destruct (IH rc comps Hrc) as (comps' & E & Hall & Hnodes).
    exists comps'. split_and!; [done| |].
    + eapply Forall_impl; [exact Hall|]. intros c (node & ? & ?).
      exists node. split; [set_solver|done].
    + intros node [->|Hn]%elem_of_cons; [|by apply Hnodes].
      destruct (Hrc _ Hin) as (c & Hc & Hrc'). exists c. set_solver.
  - destruct (connectedComponentMapBF_from_origin edges (Some r))
      as (comp & -> & Hnd & Hcomp).
    destruct (IH (rc ++ comp) (comps ++ [comp])) as (comps' & E & Hall & Hnodes).
    { intros v [Hv|Hv]%elem_of_app.
      - destruct (Hrc _ Hv) as (c & ? & ?). exists c. set_solver.
      - exists comp. set_solver. }
    exists (comp :: comps'). rewrite E, <- (assoc_L (++)). cbn [app].
    split_and!; [done| |].
    + constructor.
      * exists r. split; [set_solver|done].
      * eapply Forall_impl; [exact Hall|]. intros c (node & ? & ?).
        exists node. split; [set_solver|done].
    + intros node [->|Hn]%elem_of_cons.
      * exists comp. split; [set_solver|by right].
      * destruct (Hnodes _ Hn) as (c & Hc & H).
        exists c. split; [|done]. by rewrite <- (assoc_L (++)) in Hc.
Qed.

(** What [findLargestComponent] answers, whatever the graph. *)
Lemma findLargestComponent_spec (g : Graph) :
  ∃ r,
    findLargestComponent g = Some r ∧
    NoDup r ∧
    (r = [] ∨ ∃ node, node ∈ nodes g ∧
                      ∀ v, v ∈ r ↔ ∃ n, walk (edges g) (Some node) (S n) v) ∧
    ∀ node l, node ∈ nodes g → NoDup l →
              (∀ v, v ∈ l → ∃ n, walk (edges g) (Some node) (S n) v) →
              length l ≤ length r.
Proof.
  destruct (collectComponents_spec (edges g) (nodes g) [] [])
    as (comps & E & Hall & Hnodes).
  { intros v Hv. by apply elem_of_nil in Hv. }
  cbn [app] in E, Hnodes. unfold findLargestComponent. rewrite E.
  eexists. split; [reflexivity|].
  destruct (largest_spec comps []) as (Hr & _ & Hmax).
  cbn zeta in Hr, Hmax.
  set (r := foldl _ [] comps) in *.
  rewrite Forall_forall in Hall.
  split_and!.
  - destruct Hr as [->|Hr]; [constructor|].
    by destruct (Hall _ Hr) as (_ & _ & ? & _).
  - destruct Hr as [Hr|Hr]; [by left|right].
    destruct (Hall _ Hr) as (node & ? & _ & ?). eauto.
  - intros node l Hn Hnd Hl.
    destruct (Hnodes _ Hn) as (c & Hc & Hcase).
    etrans; [|exact (Hmax _ Hc)].
    apply submseteq_length, NoDup_submseteq; [done|].
    intros v Hv. destruct (Hl _ Hv) as [n Hwalk].
    destruct Hcase as [Hin|Hsame]; [|apply Hsame; eauto].
    destruct (Hall _ Hc) as (node' & _ & _ & Hc').
    apply Hc'. apply Hc' in Hin as [m Hm].
    exists (m + S n). change (S (m + S n)) with (S m + S n).
    by eapply walk_trans.
Qed.

(** X13.  [findLargestComponent] always answers, and its answer is the
    largest of the sets that the nodes of the graph reach: the answer
    has no node twice; it is empty, or it is exactly the set of the
    nodes reached in one hop or more from some node of the graph; and no
    node of the graph reaches, in one hop or more, more nodes than the
    answer has. *)
Theorem findLargestComponent_largest (g : Graph) :
  ∃ r,
    findLargestComponent g = Some r ∧
    NoDup r ∧
    (r = [] ∨ ∃ node, node ∈ nodes g ∧
                      ∀ v, v ∈ r ↔ ∃ n, walk (edges g) (Some node) (S n) v) ∧
    ∀ node l, node ∈ nodes g → NoDup l →
              (∀ v, v ∈ l → ∃ n, walk (edges g) (Some node) (S n) v) →
              length l ≤ length r.
Proof. apply findLargestComponent_spec. Qed.

(** A walk of one hop or more starts with a hop. *)
Lemma walk_first (es : list Edge) (s v : value) (n : nat) :
  walk es s (S n) v → ∃ u, adjacent es s u.
Proof.
  remember (S n) as m eqn:Hm. intros Hw. revert n Hm.
  induction Hw as [|m u v Hu IH Huv]; intros n Hm; [done|].
  injection Hm as ->. destruct n as [|n]; [|by eapply IH].
  inversion Hu; subst. by exists v.
Qed.

(** A node that has a neighbour is reached from itself in two hops, so
    that what it reaches in one hop or more is all that it reaches. *)
Lemma walk_back (es : list Edge) (s v : value) (n : nat) :
  walk es s (S n) v → walk es s 2 s.
Proof.
  intros [u Hu]%walk_first.
  eapply walk_hop; [eapply walk_hop; [constructor|exact Hu]|].
  by apply adjacent_sym.
Qed.

(** X14.  When [findLargestComponent] is right: in a consistent store
    with at least one edge, the answer is a connected component of the
    graph, and a largest one.  It is exactly the set of the nodes joined
    to some node of the graph by a chain of edges, that node included,
    each once, and no node of the graph is joined to more nodes than the
    answer has. *)
Theorem findLargestComponent_with_edges (w : World) :
  store_inv w → edges (this w) ≠ [] →
  ∃ r node,
    findLargestComponent (this w) = Some r ∧
    NoDup r ∧
    node ∈ nodes (this w) ∧
    (∀ v, v ∈ r ↔ reachable (edges (this w)) (Some node) v) ∧
    ∀ node' l, node' ∈ nodes (this w) → NoDup l →
               (∀ v, v ∈ l → reachable (edges (this w)) (Some node') v) →
               length l ≤ length r.
Proof.
  intros (_ & _ & _ & He) Hne.
  destruct (findLargestComponent_spec (this w)) as (r & E & Hnd & Hr & Hmax).
  destruct (edges (this w)) as [|e es] eqn:Hes; [done|]. rewrite <- Hes in *.
  assert (Hein : e ∈ edges (this w)) by (rewrite Hes; set_solver).
  rewrite Forall_forall in He.
  destruct (He _ Hein) as (a & b & Ha & Hb & Hain & Hbin).
  assert (Hab : walk (edges (this w)) (Some a) 1 (Some b)).
  { eapply walk_hop; [constructor|]. exists e. split; [done|]. by left. }
  assert (Hlen : 1 ≤ length r).
  { apply (Hmax a [Some b] Hain); [apply NoDup_singleton|].
    intros v ->%list_elem_of_singleton. by exists 0. }
  destruct Hr as [->|(node & Hnode & Hr)]; [simpl in Hlen; lia|].
  assert (Hself : Some node ∈ r).
  { destruct r as [|v r']; [simpl in Hlen; lia|].
    assert (Hv : v ∈ v :: r') by set_solver.
    apply Hr in Hv as [n Hn]. apply Hr. exists 1. by eapply walk_back. }
  exists r, node. split_and!; try done.
  - intros v. rewrite Hr. split; [intros [n Hn]; by exists (S n)|].
    intros [[|n] Hn]; [|by exists n].
    inversion Hn; subst. by apply Hr.
  - intros node' l Hnode' Hl Hreach.
    destruct (nextLevelNodes (edges (this w)) (Some node')) as [|u us] eqn:Hnext.
    + assert (Hiso : ∀ v, v ∈ l → v = Some node').
      { intros v [[|n] Hn]%Hreach; [by inversion Hn|].
        apply walk_first in Hn as [u Hu].
        apply nextLevelNodes_adjacent in Hu. rewrite Hnext in Hu.
        by apply elem_of_nil in Hu. }
      etrans; [|exact Hlen].
      change 1 with (length [Some node']).
      apply submseteq_length, NoDup_submseteq; [done|].
      intros v Hv. rewrite (Hiso _ Hv). set_solver.
    + assert (Hu : adjacent (edges (this w)) (Some node') u).
      { apply nextLevelNodes_adjacent. rewrite Hnext. set_solver. }
      apply (Hmax node' l Hnode' Hl).
      intros v [[|n] Hn]%Hreach; [|by exists n].
      inversion Hn; subst. exists 1.
      eapply walk_hop; [eapply walk_hop; [constructor|exact Hu]|].
      by apply adjacent_sym.
Qed.

Lemma findLargestComponent_with_edges_witness :
  ∃ r node,
    findLargestComponent (this pairWorld) = Some r ∧
    (∀ v, v ∈ r ↔ reachable (edges (this pairWorld)) (Some node) v).
Proof.
  destruct (findLargestComponent_with_edges pairWorld store_inv_pairWorld)
    as (r & node & E & _ & _ & Hr & _).
  - vm_compute. discriminate.
  - exists r, node. split; [exact E | exact Hr].
Defined.

(** * Further properties: the generator *)

Lemma for_of_app {A} (l1 l2 : list A) (body : A → M unit) (w : World) :
  for_of (l1 ++ l2) body w = (for_of l1 body ;;; for_of l2 body) w.
Proof.
  revert w. induction l1 as [|a l1 IH]; intros w; [done|].
  cbn [app for_of]. unfold bind.
  destruct (body a w) as [[[]|e] w1]; [|done]. rewrite IH. done.
Qed.

(** The first loop of the generator, from the name numbered [m] on, on
    a store that lists none of the names it adds. *)
Lemma generator_nodes (nodePrefix : string) (a k : nat) :
  ∀ (m : nat) (w : World),
  length (heap w) = a + m →
  (∀ i, m ≤ i < m + k → nodeName nodePrefix i ∉ nodeIds (this w)) →
  ∃ w',
    for_of (seq m k) (λ i,
      let* _ := addNode (justId (nodeName nodePrefix i)) in ret tt) w
    = (Normal tt, w') ∧
    nodeIds (this w') = nodeIds (this w) ++ map (nodeName nodePrefix) (seq m k) ∧
    (∀ i, m ≤ i < m + k →
          own (nodeDictionary (this w')) !! nodeName nodePrefix i
          = Some (a + i)) ∧
    (∀ id, (∀ i, m ≤ i < m + k → id ≠ nodeName nodePrefix i) →
           own (nodeDictionary (this w')) !! id
           = own (nodeDictionary (this w)) !! id) ∧
    edges (this w') = edges (this w) ∧
    console w' = console w ∧
    random w' = random w ∧
    drawn w' = drawn w + 2 * k ∧
    length (heap w') = a + m + k.
Proof.
  induction k as [|k IH]; intros m w Hlen Hfresh.
  { exists w. cbn [seq for_of map]. rewrite app_nil_r.
    split_and!; first [done | intros; lia]. }
  cbn [seq for_of].
  assert (Hm : nodeName nodePrefix m ∉ nodeIds (this w)) by (apply Hfresh; lia).
  pose proof (addNode_new (justId (nodeName nodePrefix m)) w Hm) as E1.
  cbn [justId arg_id arg_x arg_y arg_strokeColor arg_fillColor arg_label
       arg_displayLabel draws] in E1.
  match type of E1 with _ = (_, ?w0) => set (w1 := w0) in * end.
  assert (Hown1 : own (nodeDictionary (this w1)) =
                  <[nodeName nodePrefix m := length (heap w)]>
                    (own (nodeDictionary (this w)))).
  { unfold w1. cbn [this set_this nodeDictionary set_nodeDictionary].
    unfold dictionary_set. by rewrite decide_False by apply nodeName_not_proto. }
  destruct (IH (S m) w1) as (w' & E & Hids & Hnew & Hold & He & Hc & Hr & Hd & Hl).
  { unfold w1. simpl. rewrite length_app. simpl. lia. }
  { intros i Hi. unfold w1. simpl. rewrite elem_of_app, list_elem_of_singleton.
    intros [Hin|Heq]; [by apply (Hfresh i); [lia|]|].
    apply nodeName_inj in Heq. lia. }
  exists w'. split_and!.
  - erewrite bind_normal; [exact E|]. by erewrite bind_normal by exact E1.
  - rewrite Hids. unfold w1. simpl. by rewrite <- (assoc_L (++)).
  - intros i Hi. destruct (decide (i = m)) as [->|Hne].
    + rewrite Hold.
      * rewrite Hown1, lookup_insert_eq. by rewrite Hlen.
      * intros j Hj Heq%nodeName_inj. lia.
    + apply Hnew. lia.
  - intros id Hid. rewrite Hold by (intros; apply Hid; lia).
    rewrite Hown1, lookup_insert_ne; [done|].
    intros Heq. by apply (Hid m); [lia|].
  - by rewrite He.
  - by rewrite Hc.
  - by rewrite Hr.
  - rewrite Hd. unfold w1. simpl. lia.
  - rewrite Hl. lia.
Qed.

Lemma drawnEdges_app (rnd : nat → float) (p : float) (a : nat)
    (l1 l2 : list (nat * nat)) :
  ∀ d, drawnEdges rnd p a d (l1 ++ l2) =
       drawnEdges rnd p a d l1 ++ drawnEdges rnd p a (d + length l1) l2.
Proof.
  induction l1 as [|[i j] l1 IH]; intros d; cbn [app drawnEdges length].
  - by rewrite Nat.add_0_r.
  - rewrite IH, <- (assoc_L (++)). by replace (S d + length l1) with (d + S (length l1)) by lia.
Qed.

(** The inner loop of the generator, for the node numbered [i]. *)
Lemma generator_row (nodePrefix : string) (a n : nat) (p : float) (i : nat)
    (js : list nat) :
  i < n → Forall (λ j, j < n) js →
  ∀ w, named nodePrefix a n w →
  ∃ w',
    for_of js (λ j,
      let* r := Math_random in
      if (r <=? p)%float
      then addEdge (nodeName nodePrefix i) (nodeName nodePrefix j)
      else ret tt) w
    = (Normal tt, w') ∧
    this w' = set_edges (edges (this w) ++
                         drawnEdges (random w) p a (drawn w) (map (pair i) js))
                        (this w) ∧
    drawn w' = drawn w + length js ∧
    heap w' = heap w ∧ random w' = random w ∧ console w' = console w.
Proof.
  intros Hi. induction 1 as [|j js Hj _ IH]; intros w Hw.
  { exists w. cbn [for_of map drawnEdges length]. rewrite app_nil_r.
    split_and!; first [done | by destruct (this w) | lia]. }
  cbn [for_of map drawnEdges length].
  pose (w1 := set_drawn (S (drawn w)) w).
  destruct (random w (drawn w) <=? p)%float eqn:Hr.
  - pose proof (addEdge_known (nodeName nodePrefix i) (nodeName nodePrefix j) w1
                  (proj1 (Hw i Hi)) (proj1 (Hw j Hj))) as E1.
    cbn [w1 this set_drawn] in E1.
    change (nodeDictionary_get w1) with (nodeDictionary_get w) in E1.
    rewrite (proj2 (Hw i Hi)), (proj2 (Hw j Hj)) in E1. cbn [toValue] in E1.
    match type of E1 with _ = (_, ?w0) =>
      destruct (IH w0) as (w' & E & Ht & Hd & Hh & Hrnd & Hc); [done|]
    end.
    exists w'. split_and!.
    + erewrite bind_normal; [exact E|].
      erewrite bind_normal by reflexivity. rewrite Hr. exact E1.
    + rewrite Ht. simpl. by rewrite <- (assoc_L (++)).
    + rewrite Hd. simpl. lia.
    + by rewrite Hh.
    + by rewrite Hrnd.
    + by rewrite Hc.
  - destruct (IH w1) as (w' & E & Ht & Hd & Hh & Hrnd & Hc); [done|].
    exists w'. split_and!.
    + erewrite bind_normal; [exact E|].
      erewrite bind_normal by reflexivity. by rewrite Hr.
    + by rewrite Ht.
    + rewrite Hd. simpl. lia.
    + by rewrite Hh.
    + by rewrite Hrnd.
    + by rewrite Hc.
Qed.

(** The outer loop of the generator. *)
Lemma generator_rows (nodePrefix : string) (a n : nat) (p : float)
    (rows : list nat) :
  Forall (λ i, i < n) rows →
  ∀ w, named nodePrefix a n w →
  ∃ w',
    for_of rows (λ i,
      for_of (range (i + 1) n) (λ j,
        let* r := Math_random in
        if (r <=? p)%float
        then addEdge (nodeName nodePrefix i) (nodeName nodePrefix j)
        else ret tt)) w
    = (Normal tt, w') ∧
    this w' =
      set_edges
        (edges (this w) ++
         drawnEdges (random w) p a (drawn w)
           (flat_map (λ i, map (pair i) (range (i + 1) n)) rows))
        (this w) ∧
    drawn w' =
      drawn w + length (flat_map (λ i, map (pair i) (range (i + 1) n)) rows) ∧
    heap w' = heap w ∧ random w' = random w ∧ console w' = console w.
Proof.
  induction 1 as [|i rows Hi _ IH]; intros w Hw.
  { exists w. cbn [for_of flat_map drawnEdges length]. rewrite app_nil_r.
    split_and!; first [done | by destruct (this w) | lia]. }
  cbn [for_of flat_map].
  destruct (generator_row nodePrefix a n p i (range (i + 1) n) Hi) with (w := w)
    as (w1 & E1 & Ht1 & Hd1 & Hh1 & Hr1 & Hc1); [|done|].
  { apply Forall_forall. intros j Hj%list_elem_of_In%in_seq. lia. }
  destruct (IH w1) as (w' & E & Ht & Hd & Hh & Hrnd & Hc).
  { intros j Hj. unfold nodeDictionary_get. rewrite Ht1, Hh1. exact (Hw j Hj). }
  exists w'. split_and!.
  - erewrite bind_normal; [exact E|exact E1].
  - rewrite Ht, Ht1, Hr1, Hd1, drawnEdges_app, length_map. simpl.
    by rewrite <- (assoc_L (++)).
  - rewrite Hd, Hd1, length_app, length_map. lia.
  - by rewrite Hh.
  - by rewrite Hrnd.
  - by rewrite Hc.
Qed.

Lemma drawnEdges_sublist (rnd : nat → float) (p : float) (a : nat)
    (l : list (nat * nat)) :
  ∀ d, sublist (drawnEdges rnd p a d l)
               (map (λ ij, mkEdge (Some (a + ij.1)) (Some (a + ij.2))) l).
Proof.
  induction l as [|[i j] l IH]; intros d; cbn [drawnEdges map]; [constructor|].
  destruct (rnd d <=? p)%float; cbn [app fst snd].
  - by apply sublist_skip.
  - by apply sublist_cons.
Qed.

Lemma drawnEdges_all (rnd : nat → float) (p : float) (a : nat)
    (l : list (nat * nat)) :
  (∀ k, (rnd k <=? p)%float = true) →
  ∀ d, drawnEdges rnd p a d l =
       map (λ ij, mkEdge (Some (a + ij.1)) (Some (a + ij.2))) l.
Proof.
  intros Hall. induction l as [|[i j] l IH]; intros d; [done|].
  cbn [drawnEdges map]. by rewrite Hall, IH.
Qed.

Lemma drawnEdges_none (rnd : nat → float) (p : float) (a : nat)
    (l : list (nat * nat)) :
  (∀ k, (rnd k <=? p)%float = false) →
  ∀ d, drawnEdges rnd p a d l = [].
Proof.
  intros Hnone. induction l as [|[i j] l IH]; intros d; [done|].
  cbn [drawnEdges]. by rewrite Hnone, IH.
Qed.

Lemma completeEdges_pairsBelow (a n : nat) :
  completeEdges a n =
  map (λ ij, mkEdge (Some (a + ij.1)) (Some (a + ij.2))) (pairsBelow n).
Proof.
  unfold completeEdges, pairsBelow.
  induction (range 0 n) as [|i l IH]; [done|].
  cbn [flat_map]. rewrite map_app, IH. f_equal.
  by rewrite map_map.
Qed.

(** X15.  The generator on a store that lists none of the names it is
    to give: it returns, having added the [n] names in order to the id
    list and, to the edges, an edge for exactly those pairs [i < j]
    whose draw was at most [p], in the order of the pairs; the draw of
    the pair number [k] is the result number [2 n + k] of the random
    source, after the two that each new node takes for its position.
    The new edges are therefore a sublist of the edges of the complete
    graph on the new nodes; they are all of them when every draw is at
    most [p] and none when no draw is.  The generator takes [2 n + n (n - 1) / 2] results from the
    random source and writes nothing to the console. *)
Theorem generateRandomNetwork_edges_by_draws (n : nat) (p : float)
    (nodePrefix : string) (w : World) :
  (∀ i, i < n → nodeName nodePrefix i ∉ nodeIds (this w)) →
  ∃ w',
    generateRandomNetwork n p nodePrefix w = (Normal tt, w') ∧
    nodeIds (this w') =
      nodeIds (this w) ++ map (nodeName nodePrefix) (seq 0 n) ∧
    edges (this w') =
      edges (this w) ++
      drawnEdges (random w) p (length (heap w)) (drawn w + 2 * n)
                 (pairsBelow n) ∧
    sublist (drawnEdges (random w) p (length (heap w)) (drawn w + 2 * n)
                        (pairsBelow n))
            (completeEdges (length (heap w)) n) ∧
    ((∀ k, (random w k <=? p)%float = true) →
     edges (this w') = edges (this w) ++ completeEdges (length (heap w)) n) ∧
    ((∀ k, (random w k <=? p)%float = false) →
     edges (this w') = edges (this w)) ∧
    2 * drawn w' = 2 * drawn w + 4 * n + n * (n - 1) ∧
    length (heap w') = length (heap w) + n ∧
    console w' = console w.
Proof.
  intros Hfresh. unfold generateRandomNetwork, range. rewrite Nat.sub_0_r.
  destruct (generator_nodes nodePrefix (length (heap w)) n 0 w)
    as (w1 & E1 & Hids & Hnew & _ & He1 & Hc1 & Hr1 & Hd1 & Hl1);
    [lia|intros; apply Hfresh; lia|].
  destruct (generator_rows nodePrefix (length (heap w)) n p (seq 0 n))
    with (w := w1) as (w' & E & Ht & Hd & Hh & Hrnd & Hc).
  { apply Forall_forall. intros i Hi%list_elem_of_In%in_seq. lia. }
  { intros i Hi. split; [|apply dictionary_get_own, Hnew; lia].
    rewrite Hids, elem_of_app. right.
    apply list_elem_of_In, in_map, in_seq. lia. }
  exists w'.
  assert (Hp : flat_map (λ i, map (pair i) (range (i + 1) n)) (seq 0 n) =
               pairsBelow n).
  { unfold pairsBelow. f_equal. unfold range. by rewrite Nat.sub_0_r. }
  rewrite Hp in Ht, Hd.
  assert (Hedges : edges (this w') =
            edges (this w) ++
            drawnEdges (random w) p (length (heap w)) (drawn w + 2 * n)
                       (pairsBelow n)).
  { rewrite Ht. simpl. by rewrite He1, Hr1, Hd1. }
  split_and!.
  - erewrite bind_normal; [exact E|exact E1].
  - rewrite Ht. simpl. exact Hids.
  - exact Hedges.
  - rewrite completeEdges_pairsBelow. apply drawnEdges_sublist.
  - intros Hall. rewrite Hedges, completeEdges_pairsBelow.
    by rewrite drawnEdges_all.
  - intros Hnone. rewrite Hedges, drawnEdges_none by done.
    by rewrite app_nil_r.
  - rewrite Hd, Hd1.
    pose proof (length_completeEdges (length (heap w)) n) as Hlen.
    rewrite completeEdges_pairsBelow, length_map in Hlen. lia.
  - rewrite Hh, Hl1. lia.
  - by rewrite Hc, Hc1.
Qed.

Lemma generateRandomNetwork_edges_by_draws_witness :
  ∃ w', generateRandomNetwork 3 0.5 "n" (newWorld 0.5) = (Normal tt, w') ∧
        length (edges (this w')) = 3.
Proof.
  destruct (generateRandomNetwork_edges_by_draws 3 0.5 "n" (newWorld 0.5))
    as (w' & E & _ & _ & _ & Hall & _).
  - intros i Hi. simpl. apply not_elem_of_nil.
  - exists w'. split; [exact E|]. rewrite Hall; [reflexivity|]. by intros k.
Defined.

(** X16.  The generator on a store that lists one of the names it is to
    give: when the name numbered [k] is the first that is taken, the
    generator throws the duplicate-node error of [addNode], and the
    [k] nodes named before it stay in the store: they are listed, they
    have taken their two results each from the random source, and no
    edge was added.  In particular a second call with the same prefix
    throws at once and changes nothing. *)
Theorem generateRandomNetwork_duplicate (n k : nat) (p : float)
    (nodePrefix : string) (w : World) :
  k < n →
  (∀ i, i < k → nodeName nodePrefix i ∉ nodeIds (this w)) →
  nodeName nodePrefix k ∈ nodeIds (this w) →
  ∃ w',
    generateRandomNetwork n p nodePrefix w = (Throw DuplicateNodeError, w') ∧
    nodeIds (this w') =
      nodeIds (this w) ++ map (nodeName nodePrefix) (seq 0 k) ∧
    edges (this w') = edges (this w) ∧
    drawn w' = drawn w + 2 * k ∧
    length (heap w') = length (heap w) + k ∧
    (k = 0 → w' = w).
Proof.
  intros Hk Hfresh Htaken.
  unfold generateRandomNetwork, range. rewrite Nat.sub_0_r.
  assert (Hseq : seq 0 n = seq 0 k ++ k :: seq (S k) (n - S k)).
  { replace n with (k + S (n - S k)) at 1 by lia. by rewrite seq_app. }
  destruct (generator_nodes nodePrefix (length (heap w)) k 0 w)
    as (w1 & E1 & Hids & _ & _ & He1 & _ & _ & Hd1 & Hl1);
    [lia|intros; apply Hfresh; lia|].
  exists w1.
  assert (Hthrow : addNode (justId (nodeName nodePrefix k)) w1 =
                   (Throw DuplicateNodeError, w1)).
  { unfold addNode, bind, get. cbn [justId arg_id].
    assert (Hin : includes (nodeIds (this w1)) (nodeName nodePrefix k) = true).
    { apply includes_true. rewrite Hids. set_solver. }
    by rewrite Hin. }
  split_and!; [|exact Hids|exact He1|exact Hd1|lia|].
  - erewrite bind_throw; [done|].
    rewrite Hseq, for_of_app. erewrite bind_normal; [|exact E1].
    cbn [for_of]. erewrite bind_throw; [done|].
    by erewrite bind_throw by exact Hthrow.
  - intros ->. cbn [seq for_of] in E1. by injection E1.
Qed.

Lemma generateRandomNetwork_duplicate_witness :
  ∃ w',
    generateRandomNetwork 2 0.5 "n"
      (exec (addNode (justId "n1")) (newWorld 0.5))
    = (Throw DuplicateNodeError, w') ∧
    nodeIds (this w') = ["n1"; "n0"].
Proof.
  destruct (generateRandomNetwork_duplicate 2 1 0.5 "n"
              (exec (addNode (justId "n1")) (newWorld 0.5)))
    as (w' & E & Hids & _).
  - lia.
  - intros i Hi. assert (i = 0) as -> by lia. by apply includes_false.
  - by apply includes_true.
  - exists w'. split; [exact E|]. rewrite Hids. reflexivity.
Defined.

(** * Further properties: the layout *)

(** ** Stopping the animated solver *)

Lemma updatePositionsAnimate_sized (L : nat) (net_nodes : list ref)
    (width height t : float) :
  Forall (λ r, r < L) net_nodes →
  hoare (sized L) (updatePositionsAnimate net_nodes width height t)
    (λ _, sized L).
Proof.
  intros Hn. rewrite Forall_forall in Hn. unfold updatePositionsAnimate.
  apply hoare_for_of_inv. intros node Hnode.
  eapply hoare_bind; [apply hoare_deref_sized; auto|]. intros n.
  eapply hoare_bind; [apply hoare_update_sized; auto|]. intros [].
  apply hoare_update_sized; auto.
Qed.

(** The loop of the animated solver, entered with [playing] set. *)
Lemma fruchtermanReingoldAnimate_passes (L : nat) (net_nodes : list ref)
    (net_edges : list Edge) (width height k c1 c2 : float)
    (stop : nat → bool) (l : list nat) :
  Forall (λ r, r < L) net_nodes →
  Forall (λ e, (∃ r, source e = Some r ∧ r < L) ∧
               (∃ r, target e = Some r ∧ r < L)) net_edges →
  ∀ (t : float) (w : World),
  sized L (heap w) → nodes (this w) = net_nodes → edges (this w) = net_edges →
  playing (this w) = true →
  ∃ t' w',
    for_fold_break l t (λ i t,
      let* w := get in
      if negb (playing (this w)) then ret (Break t)
      else
        repulsion net_nodes k c2 ;;;
        attraction net_edges k c1 ;;;
        updatePositionsAnimate net_nodes width height t ;;;
        pass_done ;;;
        let t := (t - 10 / number_of_nat i)%float in
        refresh ;;;
        suspend stop i ;;;
        ret (Continue t)) w
    = (Normal t', w') ∧
    passes w' = passes w + passesRun stop l ∧
    length (frames w') = length (frames w) + passesRun stop l.
Proof.
  intros Hn He.
  induction l as [|i l IH]; intros t w Hw HN HE Hplay;
    cbn [for_fold_break passesRun].
  { exists t, w. rewrite !Nat.add_0_r. done. }
  destruct (repulsion_sized L net_nodes k c2 Hn w Hw) as ([] & h1 & E1 & H1).
  destruct (attraction_sized L net_edges k c1 He (set_heap h1 w) H1)
    as ([] & h2 & E2 & H2).
  destruct (updatePositionsAnimate_sized L net_nodes width height t Hn
              (set_heap h2 (set_heap h1 w)) H2) as ([] & h3 & E3 & H3).
  pose (w4 := set_passes (S (passes w)) (set_heap h3 w)).
  destruct (refresh_frame w4) as (f & Ef & Hf).
  { simpl. rewrite HN, H3. done. }
  { simpl. rewrite HE. eapply Forall_impl; [exact He|]. simpl.
    intros e [(rs & Hrs & ?) (rt & Hrt & ?)]. unfold allocated.
    rewrite Hrs, Hrt. simpl. rewrite !lookup_lt_is_Some, H3. done. }
  pose (w5 := set_frames (frames w4 ++ [f]) w4).
  assert (Hbody : ∀ w6, suspend stop i w5 = (Normal tt, w6) →
    (let* w := get in
      if negb (playing (this w)) then ret (Break t)
      else
        repulsion net_nodes k c2 ;;;
        attraction net_edges k c1 ;;;
        updatePositionsAnimate net_nodes width height t ;;;
        pass_done ;;;
        let t := (t - 10 / number_of_nat i)%float in
        refresh ;;;
        suspend stop i ;;;
        ret (Continue t)) w
    = (Normal (Continue (t - 10 / number_of_nat i)%float), w6)).
  { intros w6 Es.
    rewrite (bind_normal get _ w w w) by done. rewrite Hplay. cbn [negb].
    step_with E1.
    step_with E2.
    step_with E3.
    step.
    step_with Ef.
    step_with Es.
    reflexivity. }
  destruct (stop i) eqn:Hstop.
  - pose (w6 := set_this (set_playing false (this w5)) w5).
    assert (Es : suspend stop i w5 = (Normal tt, w6)).
    { unfold suspend. by rewrite Hstop. }
    exists (t - 10 / number_of_nat i)%float, w6. split_and!.
    + rewrite (bind_normal _ _ _ _ _ (Hbody _ Es)).
      destruct l as [|j l]; [done|]. cbn [for_fold_break].
      match goal with
      | |- bind ?c _ w6 = _ =>
          assert (Hb : c w6 =
                       (Normal (Break (t - 10 / number_of_nat i)%float), w6))
      end.
      { by rewrite (bind_normal get _ w6 w6 w6) by done. }
      by rewrite (bind_normal _ _ _ _ _ Hb).
    + simpl. lia.
    + simpl. rewrite length_app. simpl. lia.
  - assert (Es : suspend stop i w5 = (Normal tt, w5)).
    { unfold suspend. by rewrite Hstop. }
    destruct (IH (t - 10 / number_of_nat i)%float w5)
      as (t' & w' & E & Hp & Hfr); [exact H3|done|done|done|].
    exists t', w'. split_and!.
    + rewrite (bind_normal _ _ _ _ _ (Hbody _ Es)). exact E.
    + rewrite Hp. simpl. lia.
    + rewrite Hfr. simpl. rewrite length_app. simpl. lia.
Qed.

Lemma passesRun_none (stop : nat → bool) (n : nat) :
  ∀ m, (∀ i, m ≤ i < m + n → stop i = false) → passesRun stop (seq m n) = n.
Proof.
  induction n as [|n IH]; intros m Hnone; [done|].
  cbn [seq passesRun]. rewrite Hnone by lia. f_equal.
  apply IH. intros i Hi. apply Hnone. lia.
Qed.

Lemma passesRun_first (stop : nat → bool) (n : nat) :
  ∀ m k, m ≤ k < m + n → stop k = true →
         (∀ i, m ≤ i < k → stop i = false) →
         passesRun stop (seq m n) = S (k - m).
Proof.
  induction n as [|n IH]; intros m k Hk Hstop Hnone; [lia|].
  cbn [seq passesRun]. destruct (decide (k = m)) as [->|Hne].
  - rewrite Hstop. f_equal. lia.
  - rewrite Hnone by lia. rewrite (IH (S m) k); [f_equal; lia|lia|done|].
    intros i Hi. apply Hnone. lia.
Qed.

(** X17.  How the animated solver stops.  On a well-formed graph the
    solver returns, with [playing] reset to [false].  A stop signal
    takes effect at the end of the pass during whose suspension it
    comes: when it first comes after pass [k], the solver has made
    exactly [k] passes and drawn exactly [k] frames; when it does not
    come, the solver makes 79 passes and draws 79 frames.  It always
    makes the first pass, and it draws a frame after every pass it
    makes. *)
Theorem fruchtermanReingoldAnimate_stop (c1 c2 : float) (stop : nat → bool)
    (w : World) :
  wf w →
  ∃ w',
    fruchtermanReingoldAnimate c1 c2 stop w = (Normal tt, w') ∧
    playing (this w') = false ∧
    passes w' = passes w + passesRun stop (range 1 80) ∧
    length (frames w') = length (frames w) + passesRun stop (range 1 80) ∧
    1 ≤ passesRun stop (range 1 80) ≤ 79 ∧
    ((∀ i, 1 ≤ i ≤ 79 → stop i = false) → passes w' = passes w + 79) ∧
    (∀ k, 1 ≤ k ≤ 79 → stop k = true → (∀ i, 1 ≤ i < k → stop i = false) →
          passes w' = passes w + k).
Proof.
  intros Hwf.
  pose proof (wf_nodes_sized _ Hwf) as Hn.
  pose proof (wf_edges_sized _ Hwf) as He.
  unfold fruchtermanReingoldAnimate.
  step.
  step.
  cbn [this set_this heap nodes edges canvas set_playing].
  edestruct (fruchtermanReingoldAnimate_passes (length (heap w))
               (nodes (this w)) (edges (this w))
               (clientWidth (canvas (this w)))
               (clientHeight (canvas (this w))))
    as (t' & w' & E & Hp & Hfr); [exact Hn | exact He | | | | |].
  5: step_with E.
  1-4: reflexivity.
  eexists. split; [reflexivity|].
  cbn [this set_this passes frames] in Hp, Hfr.
  cbn [this set_this playing set_playing passes frames].
  change (range 1 80) with (seq 1 79) in *.
  assert (Hbound : 1 ≤ passesRun stop (seq 1 79) ≤ 79).
  { split; [cbn [seq passesRun]; destruct (stop 1); lia|].
    assert (Hle : ∀ n m, passesRun stop (seq m n) ≤ n).
    { induction n as [|n IH]; intros m; [done|].
      cbn [seq passesRun]. destruct (stop m); [lia|].
      specialize (IH (S m)). lia. }
    apply Hle. }
  split_and!; try done; try apply Hbound.
  - intros Hnone. rewrite Hp, passesRun_none; [done|]. intros; apply Hnone; lia.
  - intros k Hk Hstop Hnone.
    rewrite Hp, (passesRun_first stop 79 1 k); [lia|lia|done|done].
Qed.

Lemma fruchtermanReingoldAnimate_stop_witness :
  ∃ w',
    fruchtermanReingoldAnimate 1 1 (λ i, bool_decide (i = 3)) pairWorld
    = (Normal tt, w') ∧
    passes w' = passes pairWorld + 3.
Proof.
  destruct (fruchtermanReingoldAnimate_stop 1 1 (λ i, bool_decide (i = 3))
              pairWorld wf_pairWorld) as (w' & E & _ & _ & _ & _ & _ & Hk).
  exists w'. split; [exact E|]. apply Hk; [lia|done|].
  intros i Hi. apply bool_decide_eq_false. lia.
Defined.

(** ** The floor of the deltas *)

Lemma SFcompare_number (a b : float) :
  Math.isNaN a = false → Math.isNaN b = false →
  is_Some (SFcompare (Prim2SF a) (Prim2SF b)).
Proof.
  unfold Math.isNaN, is_nan.
  rewrite !negb_false_iff, !FloatAxioms.eqb_spec. unfold SFeqb.
  destruct (Prim2SF a) as [| | |], (Prim2SF b) as [| | |]; simpl; try done;
    eauto.
Qed.

(** Of two numbers, one is below the other or the other is at most it. *)
Lemma float_not_ltb_leb (a b : float) :
  Math.isNaN a = false → Math.isNaN b = false →
  (b <? a)%float = false → (a <=? b)%float = true.
Proof.
  intros Ha Hb. destruct (SFcompare_number a b Ha Hb) as [c Hc].
  rewrite FloatAxioms.ltb_spec, FloatAxioms.leb_spec. unfold SFltb, SFleb.
  rewrite (SFcompare_antisym (Prim2SF a) (Prim2SF b)), Hc. by destruct c.
Qed.

Lemma float_ltb_not_NaN (a b : float) :
  (a <? b)%float = true → Math.isNaN a = false.
Proof. intros H%float_ltb_leb. by eapply float_leb_not_NaN. Qed.

(** X18.  The floor of [deltaF]: the difference it returns is never a
    number strictly between -0.0001 and 0.0001.  It is NaN, which it is
    only when the difference of the two coordinates is NaN, or it is at
    most -0.0001, or it is at least 0.0001. *)
Theorem deltaF_floor (a b : float) :
  (Math.isNaN (deltaF a b) = true ∧ Math.isNaN (a - b) = true) ∨
  (deltaF a b <=? -0.0001)%float = true ∨
  (0.0001 <=? deltaF a b)%float = true.
Proof.
  unfold deltaF. cbn zeta.
  destruct (a - b <? 0)%float eqn:Hneg.
  - right. left. pose proof (float_ltb_not_NaN _ _ Hneg) as Hn.
    unfold Math.min. rewrite Hn.
    change (Math.isNaN (-0.0001)) with false. cbn [orb].
    change (Math.isNegZero (-0.0001)) with false. cbn [andb].
    rewrite orb_false_r.
    destruct (-0.0001 <? a - b)%float eqn:Hlt; [reflexivity|].
    by apply float_not_ltb_leb.
  - destruct (Math.isNaN (a - b)) eqn:Hn.
    { left. unfold Math.max. by rewrite Hn. }
    right. right. unfold Math.max. rewrite Hn.
    change (Math.isNaN 0.0001) with false. cbn [orb].
    change (Math.isPosZero 0.0001) with false. cbn [andb].
    rewrite orb_false_r.
    destruct (a - b <? 0.0001)%float eqn:Hlt; [reflexivity|].
    by apply float_not_ltb_leb.
Qed.

(** ** What a layout leaves alone *)

Lemma sameStyle_own (n n' : GraphNode.t) (r : ref) (key : string) :
  sameStyle n n' → key ≠ "x" → key ≠ "y" →
  GraphNode_own n' r key = GraphNode_own n r key.
Proof.
  intros (Hid & Hl & Hdl & Hw & Hs & Hf) Hx Hy. unfold GraphNode_own.
  repeat case_decide; congruence.
Qed.

(** What a read of the dictionary finds after a layout: what it found
    before, unless it reads a coordinate of the node that is the
    prototype of the dictionary. *)
Lemma layoutOnly_get (w w' : World) (i : string) :
  layoutOnly w w' →
  nodeDictionary_get w' i = nodeDictionary_get w i ∨
  ((i = "x" ∨ i = "y") ∧
   is_Some (prototype (nodeDictionary (this w))) ∧
   foreign (nodeDictionary_get w i) ∧ foreign (nodeDictionary_get w' i)).
Proof.
  intros (Hg & Hh & _).
  apply sameStructure_fields in Hg as (_ & _ & Ed & _).
  unfold nodeDictionary_get. rewrite Ed. unfold dictionary_get.
  destruct (own (nodeDictionary (this w)) !! i) eqn:Hown; [by left|].
  destruct (prototype (nodeDictionary (this w))) as [r|] eqn:Hp; [|by left].
  destruct (heap w !! r) as [n|] eqn:Hn.
  - destruct (Forall2_lookup_l _ _ _ _ _ Hh Hn) as (n' & Hn' & Hs).
    rewrite Hn'. cbn [mbind option_bind].
    destruct (decide (i = "x" ∨ i = "y")) as [Hxy|Hxy].
    + right. split_and!; [done|eauto|..];
        destruct Hxy as [-> | ->]; by intros [?|].
    + left. rewrite (sameStyle_own n n') by tauto. done.
  - assert (Hn' : heap w' !! r = None).
    { apply lookup_ge_None. rewrite <- (Forall2_length _ _ _ Hh).
      by apply lookup_ge_None. }
    rewrite Hn'. by left.
Qed.

(** The analyser sees no difference between two worlds that differ by a
    layout, but for the reads of [shortestPath] that see a position. *)
Lemma layoutOnly_analysis (w w' : World) :
  layoutOnly w w' →
  (∀ i, degree w' i = degree w i) ∧
  averageDegree w' = averageDegree w ∧
  findLargestComponent (this w') = findLargestComponent (this w) ∧
  (∀ i, positionFree w i →
        nodeDictionary_get w' i = nodeDictionary_get w i) ∧
  (∀ s t, positionFree w s → positionFree w t →
          shortestPath w' s t = shortestPath w s t).
Proof.
  intros Hl. pose proof Hl as (Hg & _ & _).
  apply sameStructure_fields in Hg as (En & Ei & Ed & Ee & _).
  assert (Hdeg : ∀ i, degree w' i = degree w i).
  { intros i. rewrite !degree_count, Ee.
    destruct (layoutOnly_get w w' i Hl) as [->|(_ & _ & Hf & Hf')]; [done|].
    f_equal. apply list_filter_iff. intros e. rewrite !containsNode_spec.
    split; intros [E|E]; exfalso;
      first [exact (Hf _ E) | exact (Hf' _ E)]. }
  assert (Hget : ∀ i, positionFree w i →
            nodeDictionary_get w' i = nodeDictionary_get w i).
  { intros i Hi.
    destruct (layoutOnly_get w w' i Hl) as [->|(Hxy & Hp & Hf & _)]; [done|].
    destruct Hi as [[? ?]|[Hi|[r Hr]]].
    - naive_solver.
    - rewrite Hi in Hp. by destruct Hp.
    - rewrite Hr in Hf. by destruct (Hf (Some r)). }
  split_and!; [exact Hdeg| | |exact Hget|].
  - unfold averageDegree. rewrite En, Ei.
    by rewrite (foldl_add_ext _ _ _ _ Hdeg).
  - unfold findLargestComponent. by rewrite En, Ee.
  - intros s t Hs Ht. apply shortestPath_by_reads; auto.
Qed.

(** The answer of [shortestPath] can change with a layout where a read
    sees a position.  In the store whose one node has the id
    [__proto__] and is at [x = 0], the read under ["x"] finds the
    coordinate of that node, which counts as false: [shortestPath]
    throws the node-not-found error.  After [arrangeRandomly] the
    coordinate is 250, and [shortestPath] answers 0. *)
Lemma layout_reads_position :
  built prototypeWorld ∧
  ¬ positionFree prototypeWorld "x" ∧
  shortestPath prototypeWorld "x" "x" = Some (Throw NodeNotFoundError) ∧
  shortestPath (exec arrangeRandomly prototypeWorld) "x" "x" = Some (Normal 0).
Proof.
  split_and!.
  - repeat constructor.
  - intros [[? _]|[?|[r ?]]]; done.
  - vm_compute. reflexivity.
  - vm_compute. reflexivity.
Qed.

(** X19.  The two solvers and the two arrangements change positions
    only, whether they return or throw: afterwards the graph has the
    same nodes, ids, dictionary, edges, canvas and palette, every object
    of the heap has its id, label, weight and colours, and the console
    is as it was; what differs is at most the coordinates and the
    displacements of the nodes and the [playing] flag.  So [degree],
    [averageDegree] and [findLargestComponent] answer after a layout
    what they answered before it, and so does [shortestPath] between
    two ids whose reads see no position: ids other than ["x"] and
    ["y"], any id when the dictionary has no node as its prototype, and
    any id for which the dictionary gives a node.  (Where the node with
    the id [__proto__] is the prototype of the dictionary, the read
    under ["x"] finds its coordinate, and the answer of [shortestPath]
    can change with the layout: [layout_reads_position].) *)
Theorem layout_changes_positions_only (c1 c2 : float) (stop : nat → bool)
    (cos sin : float → float) (w w' : World) :
  w' = exec (fruchtermanReingold c1 c2) w ∨
  w' = exec (fruchtermanReingoldAnimate c1 c2 stop) w ∨
  w' = exec (arrangeInCircle cos sin) w ∨
  w' = exec arrangeRandomly w →
  layoutOnly w w' ∧
  (∀ i, degree w' i = degree w i) ∧
  averageDegree w' = averageDegree w ∧
  findLargestComponent (this w') = findLargestComponent (this w) ∧
  (∀ i, positionFree w i →
        nodeDictionary_get w' i = nodeDictionary_get w i) ∧
  (∀ s t, positionFree w s → positionFree w t →
          shortestPath w' s t = shortestPath w s t).
Proof.
  intros Hw'.
  assert (Hl : layoutOnly w w').
  { destruct Hw' as [->|[->|[->| ->]]].
    - apply layoutOnly_fruchtermanReingold.
    - apply layoutOnly_fruchtermanReingoldAnimate.
    - apply layoutOnly_arrangeInCircle.
    - apply layoutOnly_arrangeRandomly. }
  split; [exact Hl|]. by apply layoutOnly_analysis.
Qed.

Lemma layout_changes_positions_only_witness :
  shortestPath (exec (fruchtermanReingold 1 1) pathWorld) "A" "C"
  = shortestPath pathWorld "A" "C".
Proof.
  destruct (layout_changes_positions_only 1 1 (λ _, false) (λ z, z) (λ z, z)
              pathWorld (exec (fruchtermanReingold 1 1) pathWorld))
    as (_ & _ & _ & _ & _ & H).
  - left. reflexivity.
  - apply H; left; split; discriminate.
Defined.

(** X20.  The clamp of the static solver.  On a well-formed graph, on a
    canvas at least 20 wide and 30 high, the static solver returns, and
    it leaves every node of the graph with each coordinate NaN or within
    the box: [x] between 10 and the width less 10, [y] between 20 and
    the height less 10.  The one frame it draws shows the nodes of the
    graph, in the order of the node array, as they are left. *)
Theorem fruchtermanReingold_clamp (c1 c2 : float) (w : World) :
  wf w →
  (10 <=? clientWidth (canvas (this w)) - 10)%float = true →
  (20 <=? clientHeight (canvas (this w)) - 10)%float = true →
  ∃ w' f,
    fruchtermanReingold c1 c2 w = (Normal tt, w') ∧
    Forall (λ r, ∃ n, heap w' !! r = Some n ∧
                      boxed 10 (clientWidth (canvas (this w)) - 10)
                            20 (clientHeight (canvas (this w)) - 10) n)
           (nodes (this w)) ∧
    frames w' = frames w ++ [f] ∧
    Forall2 (λ r n, heap w' !! r = Some n) (nodes (this w)) (frame_nodes f).
Proof.
  intros Hwf Hbw Hbh.
  pose proof (wf_nodes_sized _ Hwf) as Hn.
  pose proof (wf_edges_sized _ Hwf) as He.
  unfold fruchtermanReingold.
  rewrite (bind_normal get _ w w w) by done.
  edestruct (fruchtermanReingold_loop_boxed (length (heap w)) (nodes (this w))
               (edges (this w)) (clientWidth (canvas (this w)))
               (clientHeight (canvas (this w)))) as (t' & h' & E & Hh' & Hbox);
    [exact Hbw|exact Hbh|exact Hn|exact He| |].
  2: rewrite (bind_normal _ _ _ _ _ E).
  { reflexivity. }
  destruct Hbox as [Hnil|Hbox]; [discriminate Hnil|].
  destruct Hwf as (Hn' & He' & _).
  edestruct (refresh_frame (set_passes (passes w + length (range 1 80))
                              (set_heap h' w))) as (f & Ef & Hf).
  { simpl. by rewrite Hh'. }
  { simpl. eapply Forall_impl; [exact He'|]. simpl.
    intros e [? ?]. split; eapply allocated_length; eauto. }
  rewrite Ef. eexists _, f. split; [reflexivity|]. simpl.
  split_and!; [exact Hbox|done|exact Hf].
Qed.

Lemma fruchtermanReingold_clamp_witness :
  ∃ w' f,
    fruchtermanReingold 1 1 pairWorld = (Normal tt, w') ∧
    frames w' = frames pairWorld ++ [f].
Proof.
  destruct (fruchtermanReingold_clamp 1 1 pairWorld)
    as (w' & f & E & _ & Hfr & _).
  - apply wf_pairWorld.
  - vm_compute. reflexivity.
  - vm_compute. reflexivity.
  - exists w', f. split; [exact E | exact Hfr].
Defined.

(** ** The two arrangements *)

Lemma update_allocated (w : World) (r : ref) (n : GraphNode.t)
    (f : GraphNode.t → GraphNode.t) :
  heap w !! r = Some n →
  update (Some r) f w = (Normal tt, set_heap (<[r := f n]> (heap w)) w).
Proof. intros Hr. unfold update, bind, deref. by rewrite Hr. Qed.

(** The loop of [arrangeRandomly] over nodes that are in the heap, none
    of them twice. *)
Lemma arrangeRandomly_loop (W H : float) (l : list ref) :
  NoDup l →
  ∀ w,
  Forall (λ r, r < length (heap w)) l →
  ∃ w',
    for_of l (λ node,
      let* r := Math_random in
      update (Some node) (GraphNode.set_x (r * (W - 20) + 10)%float) ;;;
      let* r := Math_random in
      update (Some node) (GraphNode.set_y (r * (H - 20) + 10)%float)) w
    = (Normal tt, w') ∧
    this w' = this w ∧ random w' = random w ∧ console w' = console w ∧
    drawn w' = drawn w + 2 * length l ∧
    length (heap w') = length (heap w) ∧
    (∀ k r, l !! k = Some r →
       ∃ n0, heap w !! r = Some n0 ∧
             heap w' !! r =
             Some (GraphNode.set_y
                     (random w (drawn w + 2 * k + 1) * (H - 20) + 10)%float
                     (GraphNode.set_x
                        (random w (drawn w + 2 * k) * (W - 20) + 10)%float n0))) ∧
    (∀ r, r ∉ l → heap w' !! r = heap w !! r).
Proof.
  induction 1 as [|r l Hr Hnd IH]; intros w Hl.
  { exists w. cbn [for_of length]. split_and!; try done; lia. }
  apply Forall_cons in Hl as [Hlt Hl].
  destruct (lookup_lt_is_Some_2 _ _ Hlt) as [n0 Hn0].
  set (x := (random w (drawn w) * (W - 20) + 10)%float).
  set (y := (random w (S (drawn w)) * (H - 20) + 10)%float).
  pose (w1 := set_heap (<[r := GraphNode.set_y y (GraphNode.set_x x n0)]>
                          (<[r := GraphNode.set_x x n0]> (heap w)))
                (set_drawn (S (S (drawn w))) w)).
  assert (E1 :
    (let* r0 := Math_random in
     update (Some r) (GraphNode.set_x (r0 * (W - 20) + 10)%float) ;;;
     let* r0 := Math_random in
     update (Some r) (GraphNode.set_y (r0 * (H - 20) + 10)%float)) w
    = (Normal tt, w1)).
  { erewrite bind_normal by reflexivity.
    erewrite bind_normal by (apply update_allocated; exact Hn0).
    erewrite bind_normal by reflexivity.
    erewrite update_allocated; [reflexivity|].
    simpl. by rewrite list_lookup_insert_eq. }
  destruct (IH w1) as (w' & E & Ht & Hrnd & Hc & Hd & Hlen & Hplaced & Hrest).
  { unfold w1. simpl. by rewrite !length_insert. }
  exists w'. cbn [for_of length]. split_and!.
  - erewrite bind_normal; [exact E|exact E1].
  - by rewrite Ht.
  - by rewrite Hrnd.
  - by rewrite Hc.
  - rewrite Hd. unfold w1. simpl. lia.
  - rewrite Hlen. unfold w1. simpl. by rewrite !length_insert.
  - intros k r' Hk. destruct k as [|k]; simpl in Hk.
    + injection Hk as <-. exists n0. split; [done|].
      rewrite (Hrest _ Hr). unfold w1. simpl.
      rewrite list_lookup_insert_eq by by rewrite length_insert.
      rewrite Nat.add_0_r. by replace (drawn w + 1) with (S (drawn w)) by lia.
    + destruct (Hplaced _ _ Hk) as (n0' & Hn0' & Hn').
      assert (Hne : r ≠ r').
      { intros <-. apply Hr. by eapply list_elem_of_lookup_2. }
      exists n0'. split.
      * unfold w1 in Hn0'. simpl in Hn0'.
        by rewrite !list_lookup_insert_ne in Hn0'.
      * rewrite Hn'. unfold w1. cbn [random drawn set_heap set_drawn heap].
        replace (S (S (drawn w)) + 2 * k + 1) with (drawn w + 2 * S k + 1)
          by lia.
        by replace (S (S (drawn w)) + 2 * k) with (drawn w + 2 * S k) by lia.
  - intros r' Hr'. rewrite Hrest by set_solver. unfold w1. simpl.
    rewrite !list_lookup_insert_ne; [done|set_solver|set_solver].
Qed.

(** X21.  [arrangeRandomly] on a consistent store: it returns, having
    taken two results from the random source for every node, in the
    order of the node array; the node at index [k] is left at the
    position made of the results number [2 k] and [2 k + 1], scaled to
    the canvas less a margin of 10, and is otherwise as it was; the
    objects of the heap that are not nodes of the graph are as they
    were. *)
Theorem arrangeRandomly_places (w : World) :
  store_inv w →
  ∃ w',
    arrangeRandomly w = (Normal tt, w') ∧
    this w' = this w ∧
    drawn w' = drawn w + 2 * length (nodes (this w)) ∧
    length (heap w') = length (heap w) ∧
    (∀ k r, nodes (this w) !! k = Some r →
       ∃ n0, heap w !! r = Some n0 ∧
             heap w' !! r =
             Some (GraphNode.set_y
                     (random w (drawn w + 2 * k + 1) *
                      (height (this w) - 20) + 10)%float
                     (GraphNode.set_x
                        (random w (drawn w + 2 * k) *
                         (width (this w) - 20) + 10)%float n0))) ∧
    (∀ r, r ∉ nodes (this w) → heap w' !! r = heap w !! r).
Proof.
  intros ((Hn & _) & Hnd & _).
  destruct (arrangeRandomly_loop (width (this w)) (height (this w))
              (nodes (this w)) Hnd w Hn)
    as (w' & E & Ht & _ & _ & Hd & Hlen & Hplaced & Hrest).
  exists w'. by split_and!.
Qed.

Lemma arrangeRandomly_places_witness :
  ∃ w', arrangeRandomly pairWorld = (Normal tt, w') ∧
        drawn w' = drawn pairWorld + 2 * 2.
Proof.
  destruct (arrangeRandomly_places pairWorld store_inv_pairWorld)
    as (w' & E & _ & Hd & _).
  exists w'. split; [exact E | exact Hd].
Defined.

(** The loop of [arrangeInCircle] over an array of nodes that are in the
    heap, none of them twice, from index [m] on. *)
Lemma arrangeInCircle_loop (l : list ref) (fx fy : nat → float) :
  NoDup l →
  ∀ (k m : nat) (w : World),
  m + k ≤ length l →
  Forall (λ r, r < length (heap w)) l →
  ∃ h',
    for_of (seq m k) (λ i,
      update (l !! i) (GraphNode.set_x (fx i)) ;;;
      update (l !! i) (GraphNode.set_y (fy i))) w
    = (Normal tt, set_heap h' w) ∧
    length h' = length (heap w) ∧
    (∀ i r, m ≤ i < m + k → l !! i = Some r →
       ∃ n0, heap w !! r = Some n0 ∧
             h' !! r = Some (GraphNode.set_y (fy i) (GraphNode.set_x (fx i) n0))) ∧
    (∀ r, (∀ i, m ≤ i < m + k → l !! i ≠ Some r) → h' !! r = heap w !! r).
Proof.
  intros Hnd. induction k as [|k IH]; intros m w Hk Hl.
  { exists (heap w). cbn [seq for_of]. split_and!; try done.
    - by destruct w.
    - intros; lia. }
  destruct (lookup_lt_is_Some_2 l m) as [r Hr]; [lia|].
  assert (Hlt : r < length (heap w)).
  { rewrite Forall_forall in Hl. apply Hl. by eapply list_elem_of_lookup_2. }
  destruct (lookup_lt_is_Some_2 _ _ Hlt) as [n0 Hn0].
  pose (w1 := set_heap (<[r := GraphNode.set_y (fy m) (GraphNode.set_x (fx m) n0)]>
                          (<[r := GraphNode.set_x (fx m) n0]> (heap w))) w).
  assert (E1 :
    (update (l !! m) (GraphNode.set_x (fx m)) ;;;
     update (l !! m) (GraphNode.set_y (fy m))) w = (Normal tt, w1)).
  { rewrite Hr.
    erewrite bind_normal by (apply update_allocated; exact Hn0).
    erewrite update_allocated; [reflexivity|].
    simpl. by rewrite list_lookup_insert_eq. }
  destruct (IH (S m) w1) as (h' & E & Hlen & Hplaced & Hrest); [lia| |].
  { unfold w1. simpl. by rewrite !length_insert. }
  exists h'. cbn [seq for_of]. split_and!.
  - erewrite bind_normal; [|exact E1]. rewrite E. by destruct w.
  - rewrite Hlen. unfold w1. simpl. by rewrite !length_insert.
  - intros i r' Hi Hr'. destruct (decide (i = m)) as [->|Hne].
    + assert (r' = r) as -> by congruence.
      exists n0. split; [done|]. rewrite Hrest.
      * unfold w1. simpl.
        by rewrite list_lookup_insert_eq by by rewrite length_insert.
      * intros j Hj Hjr. pose proof (NoDup_lookup _ _ _ _ Hnd Hjr Hr). lia.
    + destruct (Hplaced i r') as (n0' & Hn0' & Hn'); [lia|done|].
      assert (Hrr : r ≠ r').
      { intros <-. pose proof (NoDup_lookup _ _ _ _ Hnd Hr' Hr). lia. }
      exists n0'. split; [|done].
      unfold w1 in Hn0'. simpl in Hn0'.
      by rewrite !list_lookup_insert_ne in Hn0'.
  - intros r' Hr'. rewrite Hrest by (intros; apply Hr'; lia).
    assert (Hrr : r ≠ r').
    { intros <-. by apply (Hr' m); [lia|]. }
    unfold w1. simpl. by rewrite !list_lookup_insert_ne.
Qed.

(** X22.  [arrangeInCircle] on a consistent store: it returns and
    changes nothing but the coordinates of the nodes of the graph; the
    node at index [k] of the [n] nodes is left at the angle
    [2 pi / n * k] on the circle around the middle of the canvas whose
    radius is a quarter of the smaller side, and is otherwise as it was.
    On a graph without nodes it changes nothing at all. *)
Theorem arrangeInCircle_places (cos sin : float → float) (w : World) :
  store_inv w →
  let centreX := (width (this w) / 2)%float in
  let centreY := (height (this w) / 2)%float in
  let radius := (Math.min centreX centreY / 2)%float in
  let angle (k : nat) :=
    (2 * Math_PI / number_of_nat (length (nodes (this w))) *
     number_of_nat k)%float in
  ∃ h',
    arrangeInCircle cos sin w = (Normal tt, set_heap h' w) ∧
    length h' = length (heap w) ∧
    (∀ k r, nodes (this w) !! k = Some r →
       ∃ n0, heap w !! r = Some n0 ∧
             h' !! r =
             Some (GraphNode.set_y (centreY + radius * sin (angle k))%float
                     (GraphNode.set_x (centreX + radius * cos (angle k))%float
                        n0))) ∧
    (∀ r, r ∉ nodes (this w) → h' !! r = heap w !! r) ∧
    (nodes (this w) = [] → h' = heap w).
Proof.
  intros ((Hn & _) & Hnd & _) centreX centreY radius angle.
  destruct (arrangeInCircle_loop (nodes (this w))
              (λ i, (centreX + radius * cos (angle i))%float)
              (λ i, (centreY + radius * sin (angle i))%float)
              Hnd (length (nodes (this w))) 0 w)
    as (h' & E & Hlen & Hplaced & Hrest); [lia|done|].
  exists h'. split_and!.
  - unfold arrangeInCircle. rewrite (bind_normal get _ w w w) by done.
    unfold range. rewrite Nat.sub_0_r. exact E.
  - done.
  - intros k r Hk. apply Hplaced; [|done].
    apply lookup_lt_Some in Hk. lia.
  - intros r Hr. apply Hrest. intros i _ Hi. apply Hr.
    by eapply list_elem_of_lookup_2.
  - intros Hnil. rewrite Hnil in E. cbn [length seq for_of] in E.
    injection E as E. apply (f_equal heap) in E. by rewrite E.
Qed.

Lemma arrangeInCircle_places_witness :
  ∃ h', arrangeInCircle (λ z, z) (λ z, z) pairWorld
        = (Normal tt, set_heap h' pairWorld) ∧
        length h' = 2.
Proof.
  destruct (arrangeInCircle_places (λ z, z) (λ z, z) pairWorld
              store_inv_pairWorld) as (h' & E & Hlen & _).
  exists h'. split; [exact E | exact Hlen].
Defined.

(** ** The solvers on a graph without nodes *)

Lemma fruchtermanReingold_loop_empty (width height k c1 c2 : float)
    (l : list nat) :
  ∀ (t : float) (w : World),
  ∃ t',
    for_fold l t (λ i t,
      repulsion [] k c2 ;;;
      attraction [] k c1 ;;;
      updatePositions [] width height t ;;;
      pass_done ;;;
      ret (t - 10 / number_of_nat i)%float) w
    = (Normal t', set_passes (passes w + length l) w).
Proof.
  induction l as [|i l IH]; intros t w; cbn [for_fold length].
  { exists t. rewrite Nat.add_0_r. by destruct w. }
  destruct (IH (t - 10 / number_of_nat i)%float (set_passes (S (passes w)) w))
    as [t' E].
  exists t'. erewrite bind_normal; [|reflexivity]. rewrite E.
  f_equal. destruct w. unfold set_passes. simpl. f_equal. lia.
Qed.

(** X23.  The static solver on a graph without nodes and edges: it
    returns, having made its 79 passes over nothing and drawn one empty
    frame, and it changes nothing else; the division by the number of
    nodes, which is 0, does no harm. *)
Theorem fruchtermanReingold_no_nodes (c1 c2 : float) (w : World) :
  nodes (this w) = [] → edges (this w) = [] →
  fruchtermanReingold c1 c2 w =
  (Normal tt,
   set_frames (frames w ++ [mkFrame [] []]) (set_passes (passes w + 79) w)).
Proof.
  intros Hn He. unfold fruchtermanReingold.
  rewrite (bind_normal get _ w w w) by done. rewrite Hn, He.
  edestruct (fruchtermanReingold_loop_empty
               (clientWidth (canvas (this w))) (clientHeight (canvas (this w))))
    as [t' E].
  erewrite bind_normal; [|exact E].
  unfold refresh. rewrite (bind_normal get _ _ _ _ eq_refl).
  cbn [this set_passes]. rewrite Hn, He. reflexivity.
Qed.

Lemma fruchtermanReingold_no_nodes_witness :
  frames (exec (fruchtermanReingold 1 1) (newWorld 0.5)) = [mkFrame [] []].
Proof.
  unfold exec.
  rewrite (fruchtermanReingold_no_nodes 1 1 (newWorld 0.5));
    reflexivity.
Defined.

(** * Further properties: generating, then analysing *)

Lemma completeEdges_elem (a n i j : nat) :
  i < j < n → mkEdge (Some (a + i)) (Some (a + j)) ∈ completeEdges a n.
Proof.
  intros Hij. unfold completeEdges, range.
  apply list_elem_of_In, in_flat_map. exists i. split; [apply in_seq; lia|].
  apply in_map_iff. exists j. split; [done|]. apply in_seq. lia.
Qed.

(** X24.  A generated complete graph, seen by the analyser.  When every
    draw is at most [p], as with [p = 1], the generator run on a
    consistent store that lists none of its names leaves a graph in
    which [shortestPath] between any two of the generated names is 1
    hop, and 0 from a name to itself. *)
Theorem generateRandomNetwork_complete_paths (n : nat) (p : float)
    (nodePrefix : string) (w : World) :
  store_inv w →
  (∀ i, i < n → nodeName nodePrefix i ∉ nodeIds (this w)) →
  (∀ k, (random w k <=? p)%float = true) →
  ∃ w',
    generateRandomNetwork n p nodePrefix w = (Normal tt, w') ∧
    ∀ i j, i < n → j < n →
      shortestPath w' (nodeName nodePrefix i) (nodeName nodePrefix j)
      = Some (Normal (if decide (i = j) then 0 else 1)).
Proof.
  intros Hinv Hfresh Hall.
  pose proof (store_inv_generateRandomNetwork n p nodePrefix w Hinv) as Hinv'.
  unfold generateRandomNetwork, range in *. rewrite Nat.sub_0_r in *.
  destruct (generator_nodes nodePrefix (length (heap w)) n 0 w)
    as (w1 & E1 & Hids & Hnew & _ & He1 & Hc1 & Hr1 & Hd1 & Hl1);
    [lia|intros; apply Hfresh; lia|].
  destruct (generator_rows nodePrefix (length (heap w)) n p (seq 0 n))
    with (w := w1) as (w' & E & Ht & Hd & Hh & Hrnd & Hc).
  { apply Forall_forall. intros i Hi%list_elem_of_In%in_seq. lia. }
  { intros i Hi. split; [|apply dictionary_get_own, Hnew; lia].
    rewrite Hids, elem_of_app. right.
    apply list_elem_of_In, in_map, in_seq. lia. }
  assert (Erun :
    (for_of (seq 0 n) (λ i,
       let* _ := addNode (justId (nodeName nodePrefix i)) in ret tt) ;;;
     for_of (seq 0 n) (λ i,
       for_of (seq (i + 1) (n - (i + 1))) (λ j,
         let* r := Math_random in
         if (r <=? p)%float
         then addEdge (nodeName nodePrefix i) (nodeName nodePrefix j)
         else ret tt))) w = (Normal tt, w')).
  { erewrite bind_normal; [exact E|exact E1]. }
  rewrite Erun in Hinv'. cbn [snd] in Hinv'.
  exists w'. split; [exact Erun|].
  assert (Hp : flat_map (λ i, map (pair i) (range (i + 1) n)) (seq 0 n) =
               pairsBelow n).
  { unfold pairsBelow. f_equal. unfold range. by rewrite Nat.sub_0_r. }
  rewrite Hp in Ht.
  assert (Hdict : ∀ i, i < n →
            nodeDictionary_get w' (nodeName nodePrefix i) =
            JNode (length (heap w) + i)).
  { intros i Hi. apply dictionary_get_own. rewrite Ht. simpl.
    apply Hnew. lia. }
  assert (Hedge : ∀ i j, i < j < n →
            mkEdge (Some (length (heap w) + i)) (Some (length (heap w) + j))
            ∈ edges (this w')).
  { intros i j Hij. rewrite Ht. simpl. rewrite elem_of_app. right.
    rewrite Hr1, drawnEdges_all, <- completeEdges_pairsBelow by done.
    by apply completeEdges_elem. }
  intros i j Hi Hj. destruct (decide (i = j)) as [->|Hne].
  - apply shortestPath_same; [|done]. by rewrite Hdict.
  - apply (shortestPath_zero_one w' _ _ Hinv'). split.
    + intros Heq%nodeName_inj. done.
    + exists (length (heap w) + i), (length (heap w) + j).
      split_and!; [by apply Hdict|by apply Hdict|].
      destruct (decide (i < j)).
      * eexists. split; [apply (Hedge i j); lia|]. by left.
      * eexists. split; [apply (Hedge j i); lia|]. by right.
Qed.

Lemma generateRandomNetwork_complete_paths_witness :
  ∃ w',
    generateRandomNetwork 3 1 "n" (newWorld 0.5) = (Normal tt, w') ∧
    shortestPath w' "n0" "n2" = Some (Normal 1).
Proof.
  destruct (generateRandomNetwork_complete_paths 3 1 "n" (newWorld 0.5))
    as (w' & E & Hpaths).
  - apply store_inv_built, built_new.
  - intros i Hi. simpl. apply not_elem_of_nil.
  - by intros k.
  - exists w'. split; [exact E|]. apply (Hpaths 0 2); lia.
Defined.
